(** * Summetry (mathblockblast_with_menu.py): board, pieces, generator,
      exact-sum clearing and the game state machine.

    The development embeds the Python program shallowly:
    - Python integers are [Z]; a list of lists is [list (list Z)];
    - [random] is an explicit tape of natural numbers that every draw
      consumes from the front (a state monad [R]);
    - [perf_counter()] is an integer reading in milliseconds handed to each
      operation (so 5.0 s is 5000, CLEAR_ANIM is 450, TIMER_SECONDS is
      180000); the difference of two readings is exact here, while the
      program subtracts floats, so the two can disagree when the readings
      are exactly a threshold apart: the properties that speak of a
      threshold leave that case out;
    - the best-score file is an explicit [disk] value;
    - the mutable [BlockBlastGame] object is a record passed through every
      method.
    Rendering (draw_*, particles) is left out. *)

From stdpp Require Import base numbers list option gmap sets strings pretty.
From Stdlib Require Import ZArith QArith Lia.
From Stdlib Require Ascii.

Open Scope Z_scope.

(** ** The random source *)

Module Rand.

(** A computation that draws from the random tape. *)
Definition R (A : Type) : Type := list nat -> A * list nat.

Definition ret {A} (a : A) : R A := fun t => (a, t).

Definition bind {A B} (c : R A) (k : A -> R B) : R B :=
  fun t => let (a, t') := c t in k a t'.

(** One raw draw; an exhausted tape keeps answering 0. *)
Definition draw : R nat :=
  fun t => match t with
           | [] => (0%nat, [])
           | n :: t' => (n, t')
           end.

End Rand.
Import Rand.

Notation "'let!' x ':=' c 'in' k" := (bind c (fun x => k))
  (at level 10, x pattern, c at level 100, k at level 200).

(** [random.random()], in thousandths: a value in [0, 1000). *)
Definition random_random : R Z :=
  let! n := draw in ret (Z.of_nat n `mod` 1000).

(** [random.randint(mn, mx)]: a value in [mn, mx]. *)
Definition randint (mn mx : Z) : R Z :=
  let! n := draw in ret (mn + Z.of_nat n `mod` (mx - mn + 1)).

(** [random.choice(l)]; [d] stands for the IndexError of an empty list,
    which no call site can trigger. *)
Definition choice {A} (d : A) (l : list A) : R A :=
  let! n := draw in ret (nth (n mod length l) l d).

(** Exchange of positions [i] and [j] of a list. *)
Definition swap {A} (l : list A) (i j : nat) : list A :=
  match l !! i, l !! j with
  | Some a, Some b => <[j := a]> (<[i := b]> l)
  | _, _ => l
  end.

(** [random.shuffle(x)]:
    for i in reversed(range(1, len(x))): j = randbelow(i+1); swap. *)
Fixpoint shuffle_from {A} (i : nat) (l : list A) : R (list A) :=
  match i with
  | O => ret l
  | S i' => let! n := draw in shuffle_from i' (swap l i (n mod (i + 1)))
  end.

Definition shuffle {A} (l : list A) : R (list A) :=
  shuffle_from (length l - 1) l.

(** Sequencing of a list of drawing computations, left to right. *)
Fixpoint mapR {A B} (f : A -> R B) (l : list A) : R (list B) :=
  match l with
  | [] => ret []
  | a :: l' => let! b := f a in let! bs := mapR f l' in ret (b :: bs)
  end.

(** A loop with an early [return]: the first iteration that yields a value
    ends the loop. *)
Fixpoint first_some {A B} (f : A -> R (option B)) (l : list A) : R (option B) :=
  match l with
  | [] => ret None
  | a :: l' =>
      let! r := f a in
      match r with
      | Some b => ret (Some b)
      | None => first_some f l'
      end
  end.

(** ** Configuration constants *)

Definition GRID_SIZE : Z := 7.
Definition CELL : Z := 88.
Definition PADDING : Z := 18.
Definition SIDEBAR_WIDTH : Z := 460.
Definition TARGET_SUM : Z := 25.
Definition POINTS_PER_CELL : Z := 15.
Definition TIMER_SECONDS : Z := 180000.
Definition CLEAR_ANIM : Z := 450.
Definition WIDTH : Z := GRID_SIZE * CELL + SIDEBAR_WIDTH + PADDING * 3.
Definition HEIGHT : Z := GRID_SIZE * CELL + PADDING * 2.

(** BLOCK_COLORS, by position: blue, green, red, yellow, purple, orange,
    pink, teal. *)
Definition BLOCK_COLORS : list nat := seq 0 8.

(** HYPE_TEXTS, by position. *)
Definition HYPE_TEXTS : list nat := seq 0 8.

(** ** Python ranges and indexing *)

(** [range(n)]. *)
Definition range (n : Z) : list Z := seqZ 0 n.

(** [range(a, b)]. *)
Definition range2 (a b : Z) : list Z := seqZ a (b - a).

(** [range(a, b, -1)]. *)
Definition range_down (a b : Z) : list Z :=
  map (fun i => a - i) (seqZ 0 (a - b)).

(** [l[i]] for an index known to be in range; [None] otherwise. *)
Definition zget {A} (l : list A) (i : Z) : option A :=
  if i <? 0 then None else l !! Z.to_nat i.

(** [m[r][c]] of a matrix of integers. Every access of the program is
    guarded so that it stays inside the matrix; the 0 is never read on a
    7x7 board. *)
Definition at2 (m : list (list Z)) (r c : Z) : Z :=
  match zget m r with
  | Some row => default 0 (zget row c)
  | None => 0
  end.

(** [m[r][c] = v]. *)
Definition set2 {A} (m : list (list A)) (r c : Z) (v : A) : list (list A) :=
  if (r <? 0) || (c <? 0) then m
  else match m !! Z.to_nat r with
       | Some row => <[Z.to_nat r := <[Z.to_nat c := v]> row]> m
       | None => m
       end.

(** [len(l)]. *)
Definition len {A} (l : list A) : Z := Z.of_nat (length l).

(** ** Shapes and pieces *)

(** SHAPES: 1 = occupied, 0 = empty. *)
Definition SHAPES : list (list (list Z)) :=
  [ [[1]];
    [[1;1]];
    [[1];[1]];
    [[1;1;1]];
    [[1];[1];[1]];
    [[1;1];[1;1]];
    [[1;1;1];[0;1;0]];
    [[1;1];[1;0]];
    [[1;1];[0;1]];
    [[1;0];[1;0];[1;1]];
    [[0;1];[0;1];[1;1]];
    [[1;0;1];[1;1;1]];
    [[1;1;1;1]];
    [[1];[1;1];[1]] ].

Inductive bias : Type := low | high | neutral.

Definition bias_range (b : bias) : Z * Z :=
  match b with
  | low => (1, 3)
  | high => (3, 5)
  | neutral => (1, 5)
  end.

(** random_piece_from_shape(shape, bias). *)
Definition random_piece_from_shape (shape : option (list (list Z))) (b : bias)
  : R (list (list Z)) :=
  let! sh := match shape with
        | None => choice [] SHAPES
        | Some s => ret s
        end in
  let '(mn, mx) := bias_range b in
  mapR (fun row => mapR (fun cell => if cell =? 1 then randint mn mx else ret 0) row) sh.

Record Piece : Type := mkPiece {
  shape : list (list Z);
  h : Z;
  w : Z;
  color : nat
}.

(** any(any(cell not in (0,1) for cell in row) for row in shape). *)
Definition contains_numbers (s : list (list Z)) : bool :=
  existsb (fun row => existsb (fun cell => negb ((cell =? 0) || (cell =? 1))) row) s.

(** Piece.__init__(shape, bias). *)
Definition Piece_init (s : option (list (list Z))) (b : bias) : R Piece :=
  let! sh := match s with
        | None => random_piece_from_shape None b
        | Some s' =>
            if contains_numbers s' then ret s'
            else random_piece_from_shape (Some s') b
        end in
  let! c := choice 0%nat BLOCK_COLORS in
  ret {| shape := sh; h := len sh; w := len (hd [] sh); color := c |}.

(** ** The game object *)

Record animation : Type := mkAnim {
  cells : list (Z * Z);
  start : Z
}.

Record game : Type := mkGame {
  grid : list (list Z);
  grid_nums : list (list Z);
  grid_colors : list (list (option nat));
  last_piece_time : Z;
  consecutive_single_5s : Z;
  pieces : list Piece;
  selected : option nat;
  dragging : bool;
  score : Z;
  best : Z;
  game_over : bool;
  start_time : Z;
  popups : list (Z * Z);
  hype_popups : list (nat * Z);
  animations : list animation;
  paused : bool;
  timed_mode : bool
}.

Definition board_size : Z := GRID_SIZE.

(** can_place(piece, x, y); the Python loops return False at the first
    offending cell, which is the conjunction over all cells. *)
Definition cell_fits (g : game) (p : Piece) (x y dy dx : Z) : bool :=
  if negb (at2 (shape p) dy dx =? 0) then
    let gx := x + dx in
    let gy := y + dy in
    if (gx <? 0) || (gx >=? board_size) || (gy <? 0) || (gy >=? board_size)
    then false
    else if negb (at2 (grid g) gy gx =? 0) then false
    else true
  else true.

Definition can_place (g : game) (p : Piece) (x y : Z) : bool :=
  forallb (fun dy => forallb (fun dx => cell_fits g p x y dy dx) (range (w p)))
          (range (h p)).

(** find_any_pos(piece): the first legal origin in row-major order. *)
Definition find_any_pos (g : game) (p : Piece) : option (Z * Z) :=
  list_find (fun '(x, y) => can_place g p x y = true)
    (y ← range (board_size - h p + 1);
     x ← range (board_size - w p + 1);
     [(x, y)])
  ≫= fun r => Some (snd r).

(** any_move_possible(). *)
Definition any_move_possible (g : game) : bool :=
  existsb (fun piece => bool_decide (is_Some (find_any_pos g piece))) (pieces g).

(** ** Helpers of the adaptive generator *)

(** board_average(): [None] on an empty board, else sum(vals)/len(vals). *)
Definition board_vals (g : game) : list Z :=
  r ← range board_size;
  c ← range board_size;
  let v := at2 (grid_nums g) r c in
  if v =? 0 then [] else [v].

Definition zsum (l : list Z) : Z := foldr Z.add 0 l.

Definition board_average (g : game) : option Q :=
  let vals := board_vals g in
  match vals with
  | [] => None
  | _ => Some (inject_Z (zsum vals) / inject_Z (len vals))%Q
  end.

(** choose_bias_from_board(). *)
Definition choose_bias_from_board (g : game) : bias :=
  match board_average g with
  | None => neutral
  | Some avg =>
      if Qle_bool (7 # 2) avg then low
      else if Qle_bool avg (2 # 1) then high
      else neutral
  end.

Inductive kind : Type := row | col.

(** A candidate line: (kind, index, empties, needed_total). *)
Definition candidate : Type := kind * Z * list Z * Z.

(** One iteration of the "rows" loop of find_near_lines_and_needed. *)
Definition near_row (g : game) (max_empty y : Z) : list candidate :=
  let empties := filter (fun x => at2 (grid g) y x = 0) (range board_size) in
  let s := zsum (map (fun x => if at2 (grid g) y x =? 0 then 0
                               else at2 (grid_nums g) y x) (range board_size)) in
  if (1 <=? len empties) && (len empties <=? max_empty) then
    let needed_total := TARGET_SUM - s in
    let mn := 1 * len empties in
    let mx := 5 * len empties in
    if (mn <=? needed_total) && (needed_total <=? mx)
    then [(row, y, empties, needed_total)] else []
  else [].

(** One iteration of the "cols" loop. *)
Definition near_col (g : game) (max_empty x : Z) : list candidate :=
  let empties := filter (fun y => at2 (grid g) y x = 0) (range board_size) in
  let s := zsum (map (fun y => if at2 (grid g) y x =? 0 then 0
                               else at2 (grid_nums g) y x) (range board_size)) in
  if (1 <=? len empties) && (len empties <=? max_empty) then
    let needed_total := TARGET_SUM - s in
    let mn := 1 * len empties in
    let mx := 5 * len empties in
    if (mn <=? needed_total) && (needed_total <=? mx)
    then [(col, x, empties, needed_total)] else []
  else [].

(** find_near_lines_and_needed(max_empty). *)
Definition find_near_lines_and_needed (g : game) (max_empty : Z) : list candidate :=
  (range board_size ≫= near_row g max_empty)
  ++ (range board_size ≫= near_col g max_empty).

(** The nested generator compositions(total, k, mn, mx), as the list of
    the tuples it yields, in order. It is only called with k >= 1. *)
Fixpoint compositions (total : Z) (k : nat) (mn mx : Z) : list (list Z) :=
  match k with
  | O => []
  | S O => if (mn <=? total) && (total <=? mx) then [[total]] else []
  | S k' =>
      v ← range2 mn (mx + 1);
      rest ← compositions (total - v) k' mn mx;
      [v :: rest]
  end.

Definition in_board (gx gy : Z) : bool :=
  (0 <=? gx) && (gx <? board_size) && (0 <=? gy) && (gy <? board_size).

(** The scan that computes [positions] for one origin (top, left): the
    aligned cells so far, or [None] once a cell off the line is out of the
    board or over an occupied cell. *)
Definition scan_cell (g : game) (sh : list (list Z)) (y : Z) (empties : list Z)
    (top left dy : Z) (acc : option (list (Z * Z))) (dx : Z)
  : option (list (Z * Z)) :=
  match acc with
  | None => None
  | Some ps =>
      if at2 sh dy dx =? 1 then
        let gx := left + dx in
        let gy := top + dy in
        if (gy =? y) && bool_decide (gx ∈ empties) then Some (ps ++ [(gx, gy)])
        else if negb (in_board gx gy) then None
        else if negb (at2 (grid g) gy gx =? 0) then None
        else Some ps
      else Some ps
  end.

Definition scan_positions (g : game) (sh : list (list Z)) (shape_h shape_w : Z)
    (y : Z) (empties : list Z) (top left : Z) : option (list (Z * Z)) :=
  foldl (fun acc dy => foldl (scan_cell g sh y empties top left dy) acc (range shape_w))
        (Some []) (range shape_h).

(** occ_cells and row_indices of one origin. *)
Definition occ_cells_of (sh : list (list Z)) (shape_h shape_w top left : Z)
  : list (Z * Z) :=
  dy ← range shape_h;
  dx ← range shape_w;
  if at2 sh dy dx =? 1 then [(left + dx, top + dy)] else [].

Definition row_indices_of (occ_cells : list (Z * Z)) (y : Z) (empties : list Z)
  : list nat :=
  omap (fun '(i, p) =>
          if (snd p =? y) && bool_decide (fst p ∈ empties) then Some i else None)
       (imap (fun i p => (i, p)) occ_cells).

(** The body of "for parts in compositions(...)": build full_shape, wrap it
    in a Piece and test it at the tried origin. *)
Definition fill_candidate (g : game) (sh : list (list Z)) (shape_h shape_w : Z)
    (top left : Z) (occ_cells : list (Z * Z)) (row_indices : list nat)
    (parts : list Z) : R (option Piece) :=
  let shape_numbers : gmap (Z * Z) Z :=
    foldl (fun m '(idx_i, pval) =>
             match occ_cells !! idx_i with
             | Some (gx, gy) => <[(gy - top, gx - left) := pval]> m
             | None => m
             end) ∅ (zip row_indices parts) in
  let '(mn, mx) := bias_range (choose_bias_from_board g) in
  let! full_shape :=
    mapR (fun dy =>
            mapR (fun dx =>
                    if at2 sh dy dx =? 1 then
                      match shape_numbers !! (dy, dx) with
                      | Some v => ret v
                      | None => randint mn mx
                      end
                    else ret 0) (range shape_w)) (range shape_h) in
  let! cand := Piece_init (Some full_shape) neutral in
  if can_place g cand left top then ret (Some cand) else ret None.

(** The work done for one origin of a "row" candidate. *)
Definition strategic_origin (g : game) (sh : list (list Z)) (shape_h shape_w : Z)
    (y : Z) (empties : list Z) (needed_total : Z) (top left : Z)
  : R (option Piece) :=
  match scan_positions g sh shape_h shape_w y empties top left with
  | None | Some [] => ret None
  | Some _ =>
      let occ_cells := occ_cells_of sh shape_h shape_w top left in
      let row_indices := row_indices_of occ_cells y empties in
      match row_indices with
      | [] => ret None
      | _ =>
          let k := length row_indices in
          let! r := first_some
                      (fill_candidate g sh shape_h shape_w top left occ_cells row_indices)
                      (compositions needed_total k 1 5) in
          match r with
          | Some p => ret (Some p)
          | None =>
              first_some
                (fun try_sum =>
                   if negb ((1 * len row_indices <=? try_sum)
                            && (try_sum <=? 5 * len row_indices))
                   then ret None
                   else first_some
                          (fill_candidate g sh shape_h shape_w top left
                                          occ_cells row_indices)
                          (compositions try_sum k 1 5))
                (range_down (needed_total - 1) (Z.max 0 (needed_total - 6) - 1))
          end
      end
  end.

(** The body of "for shape in SHAPES" for one candidate: only the "row"
    kind has a search in the source. *)
Definition strategic_shape (g : game) (c : candidate) (sh : list (list Z))
  : R (option Piece) :=
  let '(kd, idx, empties, needed_total) := c in
  let shape_h := len sh in
  let shape_w := len (hd [] sh) in
  match kd with
  | row =>
      let y := idx in
      first_some
        (fun top =>
           first_some
             (strategic_origin g sh shape_h shape_w y empties needed_total top)
             (range2 0 (board_size - shape_w + 1)))
        (range2 (Z.max 0 (y - shape_h + 1)) (Z.min (board_size - shape_h) y + 1))
  | col => ret None
  end.

(** The strategic branch over the shuffled candidates. *)
Definition strategic (g : game) (candidates : list candidate) : R (option Piece) :=
  first_some (fun c => first_some (strategic_shape g c) SHAPES) candidates.

(** sum(sum(row) for row in s). *)
Definition shape_cells (s : list (list Z)) : Z := zsum (map zsum s).

Definition small_shapes : list (list (list Z)) :=
  filter (fun s => shape_cells s <= 2) SHAPES.
Definition medium_shapes : list (list (list Z)) :=
  filter (fun s => 3 <= shape_cells s ∧ shape_cells s <= 4) SHAPES.
Definition large_shapes : list (list (list Z)) :=
  filter (fun s => shape_cells s >= 4) SHAPES.
Definition shapes_with_variety : list (list (list Z)) :=
  filter (fun s => shape_cells s > 1) SHAPES.

Definition free_cells_of (g : game) : Z :=
  len (filter (fun '(r, c) => at2 (grid g) r c = 0)
              (r ← range board_size; c ← range board_size; [(r, c)])).

Definition is_single (s : list (list Z)) : bool :=
  (len s =? 1) && (len (hd [] s) =? 1).

(** The "for _ in range(tries)" loop; [c] is consecutive_single_5s. *)
Fixpoint explore (g : game) (b : bias) (free_cells : Z) (tries : nat) (c : Z)
  : R (option Piece * Z) :=
  match tries with
  | O => ret (None, c)
  | S n =>
      let! sh := (if free_cells <=? 10 then choice [] (small_shapes ++ medium_shapes)
                  else if free_cells <=? 20
                       then choice [] (medium_shapes ++ small_shapes ++ large_shapes)
                       else choice [] SHAPES) in
      let! sh := (if is_single sh && (c >=? 2)
                  then choice [] shapes_with_variety
                  else ret sh) in
      let! p := Piece_init (Some sh) b in
      let c' := if is_single (shape p) && (at2 (shape p) 0 0 =? 5)
                then c + 1 else 0 in
      if bool_decide (is_Some (find_any_pos g p)) then ret (Some p, c')
      else explore g b free_cells n c'
  end.

Definition set_generator_state (g : game) (t c : Z) : game :=
  {| grid := grid g; grid_nums := grid_nums g; grid_colors := grid_colors g;
     last_piece_time := t; consecutive_single_5s := c;
     pieces := pieces g; selected := selected g; dragging := dragging g;
     score := score g; best := best g; game_over := game_over g;
     start_time := start_time g; popups := popups g;
     hype_popups := hype_popups g; animations := animations g;
     paused := paused g; timed_mode := timed_mode g |}.

(** generate_placeable_piece(tries): the piece and the game object with
    its generator bookkeeping updated. [now] is the perf_counter reading. *)
Definition generate_placeable_piece (g : game) (now : Z) (tries : nat)
  : R (Piece * game) :=
  let current_time := now in
  let time_since_last := current_time - last_piece_time g in
  let c0 := if time_since_last >? 5000 then 0 else consecutive_single_5s g in
  let! r := random_random in
  let! strat := (if r <? 300 then
                   let! candidates := shuffle (find_near_lines_and_needed g 3) in
                   strategic g candidates
                 else ret None) in
  match strat with
  | Some p => ret (p, set_generator_state g current_time c0)
  | None =>
      let free_cells := free_cells_of g in
      let b := choose_bias_from_board g in
      let! (found, c1) := explore g b free_cells tries c0 in
      match found with
      | Some p => ret (p, set_generator_state g current_time c1)
      | None =>
          let! fb := (match shapes_with_variety with
                      | [] => ret None
                      | _ =>
                          let! sh := choice [] shapes_with_variety in
                          let! p := Piece_init (Some sh) b in
                          if bool_decide (is_Some (find_any_pos g p))
                          then ret (Some p) else ret None
                      end) in
          match fb with
          | Some p => ret (p, set_generator_state g current_time c1)
          | None =>
              let! p := Piece_init (Some [[1; 1]]) b in
              ret (p, set_generator_state g current_time c1)
          end
      end
  end.

(** ** Field assignments on the game object *)

Definition set_grid (g : game) (v : list (list Z)) : game :=
  {| grid := v; grid_nums := grid_nums g; grid_colors := grid_colors g;
     last_piece_time := last_piece_time g;
     consecutive_single_5s := consecutive_single_5s g; pieces := pieces g;
     selected := selected g; dragging := dragging g; score := score g;
     best := best g; game_over := game_over g; start_time := start_time g;
     popups := popups g; hype_popups := hype_popups g;
     animations := animations g; paused := paused g;
     timed_mode := timed_mode g |}.

Definition set_grid_nums (g : game) (v : list (list Z)) : game :=
  {| grid := grid g; grid_nums := v; grid_colors := grid_colors g;
     last_piece_time := last_piece_time g;
     consecutive_single_5s := consecutive_single_5s g; pieces := pieces g;
     selected := selected g; dragging := dragging g; score := score g;
     best := best g; game_over := game_over g; start_time := start_time g;
     popups := popups g; hype_popups := hype_popups g;
     animations := animations g; paused := paused g;
     timed_mode := timed_mode g |}.

Definition set_grid_colors (g : game) (v : list (list (option nat))) : game :=
  {| grid := grid g; grid_nums := grid_nums g; grid_colors := v;
     last_piece_time := last_piece_time g;
     consecutive_single_5s := consecutive_single_5s g; pieces := pieces g;
     selected := selected g; dragging := dragging g; score := score g;
     best := best g; game_over := game_over g; start_time := start_time g;
     popups := popups g; hype_popups := hype_popups g;
     animations := animations g; paused := paused g;
     timed_mode := timed_mode g |}.

Definition set_pieces (g : game) (v : list Piece) : game :=
  {| grid := grid g; grid_nums := grid_nums g; grid_colors := grid_colors g;
     last_piece_time := last_piece_time g;
     consecutive_single_5s := consecutive_single_5s g; pieces := v;
     selected := selected g; dragging := dragging g; score := score g;
     best := best g; game_over := game_over g; start_time := start_time g;
     popups := popups g; hype_popups := hype_popups g;
     animations := animations g; paused := paused g;
     timed_mode := timed_mode g |}.

Definition set_selected (g : game) (v : option nat) : game :=
  {| grid := grid g; grid_nums := grid_nums g; grid_colors := grid_colors g;
     last_piece_time := last_piece_time g;
     consecutive_single_5s := consecutive_single_5s g; pieces := pieces g;
     selected := v; dragging := dragging g; score := score g; best := best g;
     game_over := game_over g; start_time := start_time g;
     popups := popups g; hype_popups := hype_popups g;
     animations := animations g; paused := paused g;
     timed_mode := timed_mode g |}.

Definition set_dragging (g : game) (v : bool) : game :=
  {| grid := grid g; grid_nums := grid_nums g; grid_colors := grid_colors g;
     last_piece_time := last_piece_time g;
     consecutive_single_5s := consecutive_single_5s g; pieces := pieces g;
     selected := selected g; dragging := v; score := score g; best := best g;
     game_over := game_over g; start_time := start_time g;
     popups := popups g; hype_popups := hype_popups g;
     animations := animations g; paused := paused g;
     timed_mode := timed_mode g |}.

Definition set_score (g : game) (v : Z) : game :=
  {| grid := grid g; grid_nums := grid_nums g; grid_colors := grid_colors g;
     last_piece_time := last_piece_time g;
     consecutive_single_5s := consecutive_single_5s g; pieces := pieces g;
     selected := selected g; dragging := dragging g; score := v;
     best := best g; game_over := game_over g; start_time := start_time g;
     popups := popups g; hype_popups := hype_popups g;
     animations := animations g; paused := paused g;
     timed_mode := timed_mode g |}.

Definition set_best (g : game) (v : Z) : game :=
  {| grid := grid g; grid_nums := grid_nums g; grid_colors := grid_colors g;
     last_piece_time := last_piece_time g;
     consecutive_single_5s := consecutive_single_5s g; pieces := pieces g;
     selected := selected g; dragging := dragging g; score := score g;
     best := v; game_over := game_over g; start_time := start_time g;
     popups := popups g; hype_popups := hype_popups g;
     animations := animations g; paused := paused g;
     timed_mode := timed_mode g |}.

Definition set_game_over (g : game) (v : bool) : game :=
  {| grid := grid g; grid_nums := grid_nums g; grid_colors := grid_colors g;
     last_piece_time := last_piece_time g;
     consecutive_single_5s := consecutive_single_5s g; pieces := pieces g;
     selected := selected g; dragging := dragging g; score := score g;
     best := best g; game_over := v; start_time := start_time g;
     popups := popups g; hype_popups := hype_popups g;
     animations := animations g; paused := paused g;
     timed_mode := timed_mode g |}.

Definition set_popups (g : game) (v : list (Z * Z)) : game :=
  {| grid := grid g; grid_nums := grid_nums g; grid_colors := grid_colors g;
     last_piece_time := last_piece_time g;
     consecutive_single_5s := consecutive_single_5s g; pieces := pieces g;
     selected := selected g; dragging := dragging g; score := score g;
     best := best g; game_over := game_over g; start_time := start_time g;
     popups := v; hype_popups := hype_popups g; animations := animations g;
     paused := paused g; timed_mode := timed_mode g |}.

Definition set_hype_popups (g : game) (v : list (nat * Z)) : game :=
  {| grid := grid g; grid_nums := grid_nums g; grid_colors := grid_colors g;
     last_piece_time := last_piece_time g;
     consecutive_single_5s := consecutive_single_5s g; pieces := pieces g;
     selected := selected g; dragging := dragging g; score := score g;
     best := best g; game_over := game_over g; start_time := start_time g;
     popups := popups g; hype_popups := v; animations := animations g;
     paused := paused g; timed_mode := timed_mode g |}.

Definition set_animations (g : game) (v : list animation) : game :=
  {| grid := grid g; grid_nums := grid_nums g; grid_colors := grid_colors g;
     last_piece_time := last_piece_time g;
     consecutive_single_5s := consecutive_single_5s g; pieces := pieces g;
     selected := selected g; dragging := dragging g; score := score g;
     best := best g; game_over := game_over g; start_time := start_time g;
     popups := popups g; hype_popups := hype_popups g; animations := v;
     paused := paused g; timed_mode := timed_mode g |}.

Definition set_paused (g : game) (v : bool) : game :=
  {| grid := grid g; grid_nums := grid_nums g; grid_colors := grid_colors g;
     last_piece_time := last_piece_time g;
     consecutive_single_5s := consecutive_single_5s g; pieces := pieces g;
     selected := selected g; dragging := dragging g; score := score g;
     best := best g; game_over := game_over g; start_time := start_time g;
     popups := popups g; hype_popups := hype_popups g;
     animations := animations g; paused := v; timed_mode := timed_mode g |}.

(** ** The line clearing engine *)

(** all(self.grid[y][x] != 0 for x in range(7)) and sum(grid_nums[y]) == 25. *)
Definition row_qualifies (g : game) (y : Z) : bool :=
  forallb (fun x => negb (at2 (grid g) y x =? 0)) (range board_size)
  && (zsum (default [] (zget (grid_nums g) y)) =? TARGET_SUM).

(** all(self.grid[y][x] != 0 for y in range(7)) and the column sum == 25. *)
Definition col_qualifies (g : game) (x : Z) : bool :=
  forallb (fun y => negb (at2 (grid g) y x =? 0)) (range board_size)
  && (zsum (map (fun y => at2 (grid_nums g) y x) (range board_size)) =? TARGET_SUM).

(** The set [to_clear] of check_and_animate, holding (x, y) pairs. *)
Definition add_row (y : Z) (s : gset (Z * Z)) : gset (Z * Z) :=
  foldl (fun s x => s ∪ {[ (x, y) ]}) s (range board_size).

Definition add_col (x : Z) (s : gset (Z * Z)) : gset (Z * Z) :=
  foldl (fun s y => s ∪ {[ (x, y) ]}) s (range board_size).

Definition to_clear_of (g : game) : gset (Z * Z) :=
  let s1 := foldl (fun s y => if row_qualifies g y then add_row y s else s)
                  ∅ (range board_size) in
  foldl (fun s x => if col_qualifies g x then add_col x s else s)
        s1 (range board_size).

(** check_and_animate(): returns (len(to_clear), pts). *)
Definition check_and_animate (g : game) (now : Z) : R ((Z * Z) * game) :=
  let to_clear := to_clear_of g in
  let! g1 := (if bool_decide (to_clear = ∅) then ret g
              else
                let g' := set_animations g
                            (animations g ++ [mkAnim (elements to_clear) now]) in
                let! hype_text := choice 0%nat HYPE_TEXTS in
                ret (set_hype_popups g' (hype_popups g' ++ [(hype_text, now)]))) in
  let pts := Z.of_nat (size to_clear) * POINTS_PER_CELL in
  ret ((Z.of_nat (size to_clear), pts), set_score g1 (score g1 + pts)).

#[global] Instance animation_eq_dec : EqDecision animation.
Proof. solve_decision. Defined.

(** list.remove(d): drops the first element equal to [d]. *)
Fixpoint list_remove {A} `{EqDecision A} (d : A) (l : list A) : list A :=
  match l with
  | [] => []
  | a :: l' => if decide (a = d) then l' else a :: list_remove d l'
  end.

(** The reset of one cell of an expired animation. *)
Definition clear_cell (g : game) (xy : Z * Z) : game :=
  let '(x, y) := xy in
  if negb (at2 (grid g) y x =? 0) then
    let g1 := set_grid g (set2 (grid g) y x 0) in
    let g2 := set_grid_nums g1 (set2 (grid_nums g1) y x 0) in
    set_grid_colors g2 (set2 (grid_colors g2) y x None)
  else g.

(** The body of "for anim in self.animations": the game object and
    done_anims so far. *)
Definition anim_step (now : Z) (st : game * list animation) (anim : animation)
  : game * list animation :=
  let t := now - start anim in
  if t >? CLEAR_ANIM
  then (foldl clear_cell (fst st) (cells anim), snd st ++ [anim])
  else st.

(** update_animations(). *)
Definition update_animations (g : game) (now : Z) : game :=
  let '(g1, done_anims) := foldl (anim_step now) (g, []) (animations g) in
  let g2 := set_animations g1 (foldl (fun l d => list_remove d l) (animations g1) done_anims) in
  set_hype_popups g2 (filter (fun hp => now - snd hp < 700) (hype_popups g2)).

(** ** Persistence of the best score *)

(** The state of BEST_FILE as the program can observe it. *)
Inductive disk : Type :=
  | Missing
  | Unreadable
  | Holds (s : string).

Inductive exn : Type := OSError | ValueError.

Inductive result (A : Type) : Type :=
  | Ok (a : A)
  | Raise (e : exn).
Arguments Ok {A} a.
Arguments Raise {A} e.

(** ASCII whitespace as str.strip() and int() see it. *)
Definition is_space (c : Ascii.ascii) : bool :=
  let n := Ascii.nat_of_ascii c in
  ((9 <=? n) && (n <=? 13) || (28 <=? n) && (n <=? 32))%nat.

Fixpoint lstrip (s : string) : string :=
  match s with
  | String c s' => if is_space c then lstrip s' else s
  | EmptyString => EmptyString
  end.

Definition rstrip (s : string) : string :=
  String.rev (lstrip (String.rev s)).

Definition strip (s : string) : string := rstrip (lstrip s).

Definition digit_of (c : Ascii.ascii) : option Z :=
  let n := Ascii.nat_of_ascii c in
  if ((48 <=? n) && (n <=? 57))%nat then Some (Z.of_nat n - 48) else None.

(** The digits of a decimal literal, where single underscores may separate
    digits; [prev] tells whether the previous character was a digit. *)
Fixpoint digits (s : string) (acc : Z) (prev : bool) : option Z :=
  match s with
  | EmptyString => if prev then Some acc else None
  | String c s' =>
      match digit_of c with
      | Some d => digits s' (10 * acc + d) true
      | None =>
          if (Ascii.eqb c (Ascii.ascii_of_nat 95)) && prev then digits s' acc false
          else None
      end
  end.

(** int(s) on ASCII text: surrounding whitespace, an optional sign, decimal
    digits. Anything else raises ValueError. CPython's limit on the
    number of digits is not part of it (see [printable]). *)
Definition py_int (s : string) : result Z :=
  match strip s with
  | String c s' =>
      if Ascii.eqb c (Ascii.ascii_of_nat 45) then
        match digits s' 0 false with Some v => Ok (- v) | None => Raise ValueError end
      else if Ascii.eqb c (Ascii.ascii_of_nat 43) then
        match digits s' 0 false with Some v => Ok v | None => Raise ValueError end
      else
        match digits (String c s') 0 false with
        | Some v => Ok v | None => Raise ValueError end
  | EmptyString => Raise ValueError
  end.

(** [s or "0"]. *)
Definition or_zero (s : string) : string :=
  match s with EmptyString => "0"%string | _ => s end.

(** The body of the try block of load_best: [Ok (Some v)] is "return v",
    [Ok None] falls out of the block. *)
Definition load_best_try (d : disk) : result (option Z) :=
  match d with
  | Missing => Ok None
  | Unreadable => Raise OSError
  | Holds s =>
      match py_int (or_zero (strip s)) with
      | Ok v => Ok (Some v)
      | Raise e => Raise e
      end
  end.

(** load_best(). *)
Definition load_best (d : disk) : Z :=
  match load_best_try d with
  | Ok (Some v) => v
  | Ok None => 0
  | Raise _ => 0
  end.

(** What happens when the file is opened for writing and written. *)
Inductive write_outcome : Type := WriteOk | OpenFails | WriteFails.

(** The body of the try block of save_best on the disk. *)
Definition save_best_try (b : Z) (d : disk) (o : write_outcome) : result unit * disk :=
  match o with
  | OpenFails => (Raise OSError, d)
  | WriteFails => (Raise OSError, Holds "")
  | WriteOk => (Ok tt, Holds (pretty b))
  end.

(** save_best(): the exception is swallowed; the game object is not
    assigned to. *)
Definition save_best (g : game) (d : disk) (o : write_outcome) : game * disk :=
  match save_best_try (best g) d o with
  | (Ok _, d') => (g, d')
  | (Raise _, d') => (g, d')
  end.

(** ** Placement *)

(** The writing loops of place_piece. The caller has checked can_place, so
    every written index lies inside the board. *)
Definition stamp_cell (p : Piece) (x y dy : Z) (g : game) (dx : Z) : game :=
  if negb (at2 (shape p) dy dx =? 0) then
    let g1 := set_grid g (set2 (grid g) (y + dy) (x + dx) 1) in
    let g2 := set_grid_nums g1 (set2 (grid_nums g1) (y + dy) (x + dx)
                                     (at2 (shape p) dy dx)) in
    set_grid_colors g2 (set2 (grid_colors g2) (y + dy) (x + dx) (Some (color p)))
  else g.

Definition stamp (g : game) (p : Piece) (x y : Z) : game :=
  foldl (fun g' dy => foldl (stamp_cell p x y dy) g' (range (w p))) g (range (h p)).

(** place_piece(idx, piece, x, y). The only caller passes the selected
    slot and its piece after can_place; an idx outside the held pieces,
    where the assignment to pieces[idx] raises IndexError, leaves the list
    as it is here. *)
Definition place_piece (g : game) (d : disk) (o : write_outcome) (now : Z)
    (idx : nat) (piece : Piece) (x y : Z) : R (game * disk) :=
  let g1 := stamp g piece x y in
  let! (np, g2) := generate_placeable_piece g1 now 150 in
  let g3 := set_pieces g2 (<[idx := np]> (pieces g2)) in
  let! (res, g4) := check_and_animate g3 now in
  let '(cleared_cells, points) := res in
  let g5 := if points >? 0 then set_popups g4 (popups g4 ++ [(points, now)]) else g4 in
  let '(g6, d') := (if score g5 >? best g5
                    then save_best (set_best g5 (score g5)) d o
                    else (g5, d)) in
  let g7 := if negb (any_move_possible g6) then set_game_over g6 true else g6 in
  ret (g7, d').

(** ** Geometry of the screen *)

Record Rect : Type := mkRect {
  left : Z;
  top : Z;
  width : Z;
  height : Z
}.

Definition right (r : Rect) : Z := left r + width r.
Definition bottom (r : Rect) : Z := top r + height r.

(** pygame.Rect.collidepoint: the right and bottom edges are outside. *)
Definition collidepoint (r : Rect) (mx my : Z) : bool :=
  (left r <=? mx) && (mx <? right r) && (top r <=? my) && (my <? bottom r).

Definition board_rect : Rect :=
  mkRect PADDING PADDING (board_size * CELL) (board_size * CELL).
Definition sidebar_rect : Rect :=
  mkRect (right board_rect + PADDING) PADDING SIDEBAR_WIDTH (height board_rect).
Definition slot_area : Rect :=
  mkRect (left sidebar_rect + 20) (top sidebar_rect + 240)
         (width sidebar_rect - 40) 120.
Definition button_width : Z := (width sidebar_rect - 60) `div` 2.
Definition restart_button : Rect :=
  mkRect (left sidebar_rect + 20) (bottom sidebar_rect - 70) button_width 50.
Definition quit_button : Rect :=
  mkRect (left sidebar_rect + 40 + button_width) (bottom sidebar_rect - 70)
         button_width 50.

(** ** Construction and reset of a session *)

Definition empty_grid {A} (v : A) : list (list A) :=
  replicate (Z.to_nat board_size) (replicate (Z.to_nat board_size) v).

(** [self.generate_placeable_piece() for _ in range(3)]. *)
Fixpoint generate_n (g : game) (now : Z) (n : nat) : R (list Piece * game) :=
  match n with
  | O => ret ([], g)
  | S n' =>
      let! (p, g1) := generate_placeable_piece g now 150 in
      let! (ps, g2) := generate_n g1 now n' in
      ret (p :: ps, g2)
  end.

(** BlockBlastGame.__init__(timed_mode). *)
Definition BlockBlastGame_init (timed : bool) (d : disk) (now : Z) : R game :=
  let g0 := {| grid := empty_grid 0; grid_nums := empty_grid 0;
               grid_colors := empty_grid None;
               last_piece_time := now; consecutive_single_5s := 0;
               pieces := []; selected := None; dragging := false;
               score := 0; best := load_best d; game_over := false;
               start_time := now; popups := []; hype_popups := [];
               animations := []; paused := false; timed_mode := timed |} in
  let! (ps, g1) := generate_n g0 now 3 in
  ret (set_pieces g1 ps).

(** reset(). *)
Definition reset (g : game) (now : Z) : R game :=
  let g1 := set_grid_colors (set_grid_nums (set_grid g (empty_grid 0)) (empty_grid 0))
                            (empty_grid None) in
  let! (ps, g2) := generate_n g1 now 3 in
  ret {| grid := grid g2; grid_nums := grid_nums g2; grid_colors := grid_colors g2;
         last_piece_time := last_piece_time g2; consecutive_single_5s := 0;
         pieces := ps; selected := None; dragging := false;
         score := 0; best := best g2; game_over := false;
         start_time := now; popups := []; hype_popups := [];
         animations := []; paused := false; timed_mode := timed_mode g2 |}.

(** ** Clicks and frames of a session *)

(** What handle_click returns: "menu" or nothing. *)
Inductive click_result : Type := ToMenu | NoResult.

Definition slot_w : Z := width slot_area `div` 3.

Definition slot_rect (i : nat) : Rect :=
  mkRect (left slot_area + slot_w * Z.of_nat i) (top slot_area)
         slot_w (height slot_area).

(** BlockBlastGame.handle_click(mx, my). *)
Definition handle_click (g : game) (d : disk) (o : write_outcome) (now : Z)
    (mx my : Z) : R (click_result * game * disk) :=
  if game_over g then ret (ToMenu, g, d)
  else if paused g then ret (NoResult, g, d)
  else if collidepoint restart_button mx my then
    let! g' := reset g now in ret (NoResult, g', d)
  else if collidepoint quit_button mx my then ret (ToMenu, g, d)
  else if collidepoint board_rect mx my then
    match dragging g, selected g with
    | true, Some sel =>
        match pieces g !! sel with
        | Some piece =>
            let gx := (mx - left board_rect) `div` CELL in
            let gy := (my - top board_rect) `div` CELL in
            let! (g1, d1) := (if can_place g piece gx gy
                              then place_piece g d o now sel piece gx gy
                              else ret (g, d)) in
            ret (NoResult, set_selected (set_dragging g1 false) None, d1)
        | None => ret (NoResult, g, d)
        end
    | _, _ => ret (NoResult, g, d)
    end
  else
    match list_find (fun i => collidepoint (slot_rect i) mx my = true) (seq 0 3) with
    | Some (_, i) => ret (NoResult, set_dragging (set_selected g (Some i)) true, d)
    | None => ret (NoResult, g, d)
    end.

(** update(dt). *)
Definition update (g : game) (now : Z) : game :=
  if negb (paused g) && negb (game_over g) then
    let g1 := update_animations g now in
    if timed_mode g1 && (now - start_time g1 >? TIMER_SECONDS)
    then set_game_over g1 true else g1
  else g.

(** ** The menu and the main loop *)

Record Menu : Type := mkMenu {
  active : bool;
  menu_timed_mode : bool;
  showing_credits : bool;
  showing_mechanics : bool
}.

Definition Menu_init : Menu := mkMenu true true false false.

Inductive action : Type := timed | relaxed | credits | mechanics.

Definition buttons : list (Rect * action) :=
  [ (mkRect (WIDTH `div` 2 - 100) (HEIGHT `div` 2 - 40) 200 50, timed);
    (mkRect (WIDTH `div` 2 - 100) (HEIGHT `div` 2 + 20) 200 50, relaxed);
    (mkRect (WIDTH `div` 2 - 100) (HEIGHT `div` 2 + 80) 200 50, credits);
    (mkRect (WIDTH `div` 2 - 100) (HEIGHT `div` 2 + 140) 200 50, mechanics) ].

Definition back_button : Rect :=
  mkRect (WIDTH `div` 2 - 100) (HEIGHT - 80) 200 50.

(** Menu.handle_click(mx, my). *)
Definition menu_handle_click (m : Menu) (mx my : Z) : bool * Menu :=
  if showing_credits m || showing_mechanics m then
    if collidepoint back_button mx my
    then (false, mkMenu (active m) (menu_timed_mode m) false false)
    else (false, m)
  else
    match list_find (fun b => collidepoint (fst b) mx my = true) buttons with
    | Some (_, (_, timed)) => (true, mkMenu false true (showing_credits m) (showing_mechanics m))
    | Some (_, (_, relaxed)) => (true, mkMenu false false (showing_credits m) (showing_mechanics m))
    | Some (_, (_, credits)) => (false, mkMenu (active m) (menu_timed_mode m) true (showing_mechanics m))
    | Some (_, (_, mechanics)) => (false, mkMenu (active m) (menu_timed_mode m) (showing_credits m) true)
    | None => (false, m)
    end.

Inductive key : Type := K_ESCAPE | K_p | K_other.

Inductive event : Type :=
  | QUIT
  | MOUSEBUTTONDOWN (button : Z) (mx my : Z)
  | KEYDOWN (k : key)
  | MOUSEWHEEL (dy : Z)
  | OTHER.

(** The variables of main(). *)
Record app : Type := mkApp {
  menu : Menu;
  the_game : option game;
  running : bool;
  the_disk : disk
}.

Definition app_init (d : disk) : app := mkApp Menu_init None true d.

(** What the outside world supplies while one event or frame is handled:
    the clock reading, the random draws and the fate of a write. *)
Record env : Type := mkEnv {
  now : Z;
  tape : list nat;
  wr : write_outcome
}.

Definition set_active (m : Menu) (v : bool) : Menu :=
  mkMenu v (menu_timed_mode m) (showing_credits m) (showing_mechanics m).

(** The body of "for event in pygame.event.get()". *)
Definition on_event (a : app) (e : env) (ev : event) : app :=
  match ev with
  | QUIT => mkApp (menu a) (the_game a) false (the_disk a)
  | MOUSEBUTTONDOWN button mx my =>
      if button =? 1 then
        if active (menu a) then
          let '(chosen, m') := menu_handle_click (menu a) mx my in
          if chosen then
            let g := fst (BlockBlastGame_init (menu_timed_mode m') (the_disk a)
                                              (now e) (tape e)) in
            mkApp m' (Some g) (running a) (the_disk a)
          else mkApp m' (the_game a) (running a) (the_disk a)
        else
          match the_game a with
          | Some g =>
              let '(res, g', d') :=
                fst (handle_click g (the_disk a) (wr e) (now e) mx my (tape e)) in
              match res with
              | ToMenu => mkApp (set_active (menu a) true) None (running a) d'
              | NoResult => mkApp (menu a) (Some g') (running a) d'
              end
          | None => a
          end
      else a
  | KEYDOWN k =>
      match k with
      | K_ESCAPE =>
          match the_game a with
          | Some _ =>
              if negb (active (menu a))
              then mkApp (set_active (menu a) true) None (running a) (the_disk a)
              else a
          | None => a
          end
      | K_p =>
          match the_game a with
          | Some g =>
              if negb (active (menu a))
              then mkApp (menu a) (Some (set_paused g (negb (paused g))))
                         (running a) (the_disk a)
              else a
          | None => a
          end
      | K_other => a
      end
  | MOUSEWHEEL _ => a
  | OTHER => a
  end.

(** The part of the loop body after the events: update of the session. *)
Definition on_frame (a : app) (e : env) : app :=
  if active (menu a) then a
  else match the_game a with
       | Some g => mkApp (menu a) (Some (update g (now e))) (running a) (the_disk a)
       | None => a
       end.

(** One iteration of "while running": the events of the frame, each with
    what the outside world supplies, then the update. *)
Definition frame : Type := list (env * event) * env.

Definition loop_body (a : app) (f : frame) : app :=
  on_frame (foldl (fun a' ee => on_event a' (fst ee) (snd ee)) a (fst f)) (snd f).

(** main(), over the frames the outside world delivers. *)
Fixpoint main (a : app) (frames : list frame) : app :=
  match frames with
  | [] => a
  | f :: fs => if running a then main (loop_body a f) fs else a
  end.

(** * Vocabulary of the properties *)

(** The occupied cells of a piece: the non-zero entries inside its
    h x w extent. *)
Definition occupied (p : Piece) (dx dy : Z) : Prop :=
  0 <= dy < h p ∧ 0 <= dx < w p ∧ at2 (shape p) dy dx ≠ 0.

(** A piece as the constructor builds it from a rectangular matrix: h rows,
    each of length w. *)
Definition rectangular_piece (p : Piece) : Prop :=
  h p = len (shape p) ∧ Forall (fun r => len r = w p) (shape p).

(** [m[r][c]] as an optional value: [None] outside the matrix. *)
Definition get2 {A} (m : list (list A)) (r c : Z) : option A :=
  match zget m r with
  | Some rw => zget rw c
  | None => None
  end.

(** A filled entry of the piece's matrix, wherever it lies: shape[dy][dx]
    exists and is not 0. This is the occupied cell of the specification;
    [occupied] above is what the loops over range(h) x range(w) read. *)
Definition filled (p : Piece) (dx dy : Z) : Prop :=
  ∃ v, get2 (shape p) dy dx = Some v ∧ v ≠ 0.

(** Every filled entry of [p] put at origin (x, y) maps into
    [0,7) x [0,7) onto an empty cell of the board. *)
Definition all_filled_fit (g : game) (p : Piece) (x y : Z) : Prop :=
  ∀ dx dy, filled p dx dy ->
    0 <= x + dx < 7 ∧ 0 <= y + dy < 7 ∧ at2 (grid g) (y + dy) (x + dx) = 0.

(** The draws that make the generator skip the strategic branch, pick the
    last template of the catalog, fill its four entries with 3 and take
    the first colour. *)
Definition deal_ragged : list nat := [500; 13; 2; 2; 2; 2; 0]%nat.

(** Every row of a template has the length of its first row. *)
Definition rectangular (s : list (list Z)) : bool :=
  forallb (fun r => len r =? len (hd [] s)) s.

Definition boolean_entries (s : list (list Z)) : bool :=
  forallb (fun r => forallb (fun c => (c =? 0) || (c =? 1)) r) s.

Definition has_occupied_entry (s : list (list Z)) : bool :=
  existsb (fun r => existsb (fun c => c =? 1) r) s.

(** A 7x7 matrix, as __init__ and reset build it. *)
Definition board_shape {A} (m : list (list A)) : Prop :=
  length m = 7%nat ∧ Forall (fun r => length r = 7%nat) m.

Definition well_formed (g : game) : Prop :=
  board_shape (grid g) ∧ board_shape (grid_nums g) ∧ board_shape (grid_colors g).

(** A session with an empty board and no pieces, from which the example
    boards below are built. *)
Definition blank_game : game :=
  {| grid := empty_grid 0; grid_nums := empty_grid 0;
     grid_colors := empty_grid None;
     last_piece_time := 0; consecutive_single_5s := 0;
     pieces := []; selected := None; dragging := false;
     score := 0; best := 0; game_over := false;
     start_time := 0; popups := []; hype_popups := [];
     animations := []; paused := false; timed_mode := false |}.

(** The board whose row 0 is fully occupied with the given values. *)
Definition board_with_row (vals : list Z) : game :=
  set_grid_nums (set_grid blank_game (<[0%nat := replicate 7 1]> (grid blank_game)))
                (<[0%nat := vals]> (grid_nums blank_game)).

(** The board whose row 3 and column 3 are both fully occupied with values
    summing to 25; they share the cell (3, 3). *)
Definition cross_board : game :=
  let line := [4; 4; 4; 1; 4; 4; 4] in
  let put m v := foldl (fun m' i => set2 (set2 m' 3 i (v i)) i 3 (v i)) m (range 7) in
  set_grid_nums (set_grid blank_game (put (grid blank_game) (fun _ => 1)))
                (put (grid_nums blank_game) (fun i => default 0 (zget line i))).

(** The colour tag of a board cell. *)
Definition color_at (m : list (list (option nat))) (r c : Z) : option nat :=
  default None (get2 m r c).

(** A cell that one or more resets leave as it was. *)
Definition cell_kept (g g' : game) (r c : Z) : Prop :=
  at2 (grid g') r c = at2 (grid g) r c
  ∧ at2 (grid_nums g') r c = at2 (grid_nums g) r c
  ∧ color_at (grid_colors g') r c = color_at (grid_colors g) r c.

(** An empty cell: occupied = false, value = 0, color = none. *)
Definition cell_empty (g : game) (r c : Z) : Prop :=
  at2 (grid g) r c = 0
  ∧ at2 (grid_nums g) r c = 0
  ∧ color_at (grid_colors g) r c = None.

(** [g'] is [g] with some cells reset and no other change to the board. *)
Definition cleared_from (g g' : game) : Prop :=
  well_formed g' ∧ ∀ r c, cell_kept g g' r c ∨ cell_empty g' r c.

(** Row 0 holds six cells of value 4 and one empty cell, (6, 0): the row
    needs exactly 1. *)
Definition row_needs_one : game :=
  let put m v := foldl (fun m' i => set2 m' 0 i v) m (range 6) in
  set_grid_nums (set_grid blank_game (put (grid blank_game) 1))
                (put (grid_nums blank_game) 4).

(** A template: no cell other than 0 or 1. *)
Definition template (s : list (list Z)) : Prop := contains_numbers s = false.

(** A fill of a template from the range [mn, mx]: the same layout, a value
    of the range on every 1 and 0 elsewhere. *)
Definition filled_from (mn mx : Z) (s f : list (list Z)) : Prop :=
  Forall2 (Forall2 (fun c v => if c =? 1 then mn <= v <= mx else v = 0)) s f.

(** The empty cells and the present sum of a line, as the two loops of
    find_near_lines_and_needed compute them. *)
Definition line_cell (k : kind) (i j : Z) : Z * Z :=
  match k with
  | row => (i, j)
  | col => (j, i)
  end.

Definition line_empties (g : game) (k : kind) (i : Z) : list Z :=
  match k with
  | row => filter (fun x => at2 (grid g) i x = 0) (range board_size)
  | col => filter (fun y => at2 (grid g) y i = 0) (range board_size)
  end.

Definition line_sum (g : game) (k : kind) (i : Z) : Z :=
  match k with
  | row => zsum (map (fun x => if at2 (grid g) i x =? 0 then 0
                               else at2 (grid_nums g) i x) (range board_size))
  | col => zsum (map (fun y => if at2 (grid g) y i =? 0 then 0
                               else at2 (grid_nums g) y i) (range board_size))
  end.

(** A line with 1 to [max_empty] empty cells whose needed total can be
    reached with values 1..5 on them. *)
Definition near_complete (g : game) (max_empty : Z) (k : kind) (i : Z) : Prop :=
  let e := len (line_empties g k i) in
  let needed := TARGET_SUM - line_sum g k i in
  1 <= e <= max_empty ∧ e <= needed <= 5 * e.

Definition is_col (c : candidate) : Prop := fst (fst (fst c)) = col.

(** Column 3 holds six cells of value 4 and one empty cell, (3, 6): the
    column needs exactly 1. *)
Definition column_needs_one : game :=
  let put m v := foldl (fun m' i => set2 m' i 3 v) m (range 6) in
  set_grid_nums (set_grid blank_game (put (grid blank_game) 1))
                (put (grid_nums blank_game) 4).

(** A piece with a cell and no legal origin, decided by trying every origin
    at which some cell of the piece could lie on the board. *)
Definition has_cell_b (p : Piece) : bool :=
  existsb (fun dy => existsb (fun dx => negb (at2 (shape p) dy dx =? 0)) (range (w p)))
          (range (h p)).

Definition no_origin_b (g : game) (p : Piece) : bool :=
  forallb (fun y => forallb (fun x => negb (can_place g p x y))
                            (range2 (- w p) board_size))
          (range2 (- h p) board_size).

(** The session is showing GAME OVER. *)
Definition in_game_over (a : app) : Prop :=
  active (menu a) = false ∧ ∃ g, the_game a = Some g ∧ game_over g = true.

(** The program is back at the menu, with the session discarded. *)
Definition at_menu (a : app) : Prop :=
  active (menu a) = true ∧ the_game a = None.

(** The events that are an explicit way out of a session: a left click
    (on GAME OVER, "Press Anywhere to Return to Menu") and the Escape key. *)
Definition exit_action (ev : event) : bool :=
  match ev with
  | MOUSEBUTTONDOWN button _ _ => button =? 1
  | KEYDOWN K_ESCAPE => true
  | _ => false
  end.

(** No event of the frames is a way out. *)
Definition no_exit (frames : list frame) : Prop :=
  Forall (fun f => Forall (fun ee => exit_action (snd ee) = false) (fst f)) frames.

(** The board is full except for (0, 0); three single cells are held. *)
Definition nearly_full : game :=
  let single := mkPiece [[3]] 1 1 0 in
  set_pieces
    (set_grid_nums (set_grid blank_game (set2 (replicate 7 (replicate 7 1)) 0 0 0))
                   (set2 (replicate 7 (replicate 7 1)) 0 0 0))
    [single; single; single].

(** A piece with a legal origin on the board of [g]. *)
Definition placeable (g : game) (p : Piece) : Prop :=
  ∃ x y, can_place g p x y = true.

(** The last resort of the generator: a horizontal domino with values of
    the bias range, returned without a placement check. *)
Definition last_resort (p : Piece) : Prop :=
  ∃ a b, shape p = [[a; b]] ∧ h p = 1 ∧ w p = 2 ∧ 1 <= a <= 5 ∧ 1 <= b <= 5.

(** Two horizontally adjacent empty cells of the board. *)
Definition domino_fits (g : game) : Prop :=
  ∃ x y, 0 <= x ∧ x + 1 < 7 ∧ 0 <= y < 7
         ∧ at2 (grid g) y x = 0 ∧ at2 (grid g) y (x + 1) = 0.

(** A session that main() can be in after some frames, started from the
    menu. *)
Definition reachable (g : game) : Prop :=
  ∃ d frames, the_game (main (app_init d) frames) = Some g.

(** The draws that make the generator skip the strategic branch and deal
    the single cell with value 3 and the first colour. *)
Definition deal_single : list nat := [500; 0; 2; 0]%nat.

(** A click on RELAXED MODE, then, for every cell (cx, cy) with cx + cy
    odd, a click on the first slot and a click on that cell. *)
Definition checker_cells : list (Z * Z) :=
  filter (fun '(cx, cy) => (cx + cy) `mod` 2 = 1)
         (cy ← range 7; cx ← range 7; [(cx, cy)]).

Definition checker_frames : list frame :=
  ([(mkEnv 0 (deal_single ++ deal_single ++ deal_single) WriteOk,
     MOUSEBUTTONDOWN 1 500 360)], mkEnv 0 [] WriteOk)
  :: map (fun '(cx, cy) =>
            ([(mkEnv 0 [] WriteOk, MOUSEBUTTONDOWN 1 700 300);
              (mkEnv 0 deal_single WriteOk,
               MOUSEBUTTONDOWN 1 (18 + 88 * cx + 40) (18 + 88 * cy + 40))],
             mkEnv 0 [] WriteOk))
         checker_cells.

Definition checker_game : game :=
  default blank_game (the_game (main (app_init Missing) checker_frames)).

(** The draws that skip the strategic branch and then always pick the
    second entry of the list chosen from. *)
Definition stubborn_draws : list nat := 500%nat :: replicate 700 1%nat.

(** * Vocabulary of the further properties *)

(** The cell (r, c) of the board holds what place_piece writes for the
    piece [p] put at origin (x, y): occupied, the value of the piece's
    cell, the piece's colour. *)
Definition cell_written (g : game) (p : Piece) (x y r c : Z) : Prop :=
  at2 (grid g) r c = 1
  ∧ at2 (grid_nums g) r c = at2 (shape p) (r - y) (c - x)
  ∧ color_at (grid_colors g) r c = Some (color p).

(** [f] is a fill of the template [sh]: the same height and width, a value
    of 1..5 on every cell that is 1 in the template and 0 on the other
    cells of the h x w extent. *)
Definition fills (sh f : list (list Z)) : Prop :=
  len f = len sh ∧ len (hd [] f) = len (hd [] sh)
  ∧ ∀ dy dx, 0 <= dy < len sh -> 0 <= dx < len (hd [] sh) ->
      (at2 sh dy dx = 1 -> 1 <= at2 f dy dx <= 5)
      ∧ (at2 sh dy dx ≠ 1 -> at2 f dy dx = 0).

(** A piece as the program deals it: h and w as the constructor sets them
    and a fill of a catalog template. *)
Definition catalog_piece (p : Piece) : Prop :=
  h p = len (shape p) ∧ w p = len (hd [] (shape p))
  ∧ ∃ sh, sh ∈ SHAPES ∧ fills sh (shape p).

(** The h x w extent of a template has a 1 in its first and last row and
    in its first and last column. *)
Definition tight_template (sh : list (list Z)) : bool :=
  let hh := len sh in
  let ww := len (hd [] sh) in
  existsb (fun dx => at2 sh 0 dx =? 1) (range ww)
  && existsb (fun dx => at2 sh (hh - 1) dx =? 1) (range ww)
  && existsb (fun dy => at2 sh dy 0 =? 1) (range hh)
  && existsb (fun dy => at2 sh dy (ww - 1) =? 1) (range hh).

(** The fields of the game object outside the three board matrices and
    the bookkeeping of the generator. *)
Definition off_board (g : game) :=
  (pieces g, selected g, dragging g, score g, best g, game_over g,
   start_time g, popups g, hype_popups g, animations g, paused g, timed_mode g).

(** The fields of the game object outside the three board matrices. *)
Definition session_fields (g : game) :=
  (off_board g, last_piece_time g, consecutive_single_5s g).

(** An occupied cell: occupied = true, a value of 1..5, some colour. *)
Definition cell_occupied (g : game) (r c : Z) : Prop :=
  at2 (grid g) r c = 1
  ∧ 1 <= at2 (grid_nums g) r c <= 5
  ∧ is_Some (color_at (grid_colors g) r c).

(** The board is 7x7 and each of its cells is empty or occupied. *)
Definition board_ok (g : game) : Prop :=
  well_formed g ∧ ∀ r c, cell_empty g r c ∨ cell_occupied g r c.

(** A sound session: a sound board and three held pieces dealt from the
    catalog. *)
Definition session_ok (g : game) : Prop :=
  board_ok g ∧ length (pieces g) = 3%nat ∧ Forall catalog_piece (pieces g).

(** Every session the program holds is sound. *)
Definition app_ok (a : app) : Prop :=
  ∀ g, the_game a = Some g -> session_ok g.

(** The menu is shown exactly when there is no session. *)
Definition menu_or_session (a : app) : Prop :=
  active (menu a) = true ↔ the_game a = None.

(** A session as it starts: an empty board, no score, nothing selected,
    pending or over, the clock started at [now], and three pieces dealt
    from the catalog that all have a legal origin. *)
Definition fresh_session (g : game) (now : Z) : Prop :=
  grid g = empty_grid 0 ∧ grid_nums g = empty_grid 0
  ∧ grid_colors g = empty_grid None
  ∧ score g = 0 ∧ game_over g = false ∧ paused g = false
  ∧ selected g = None ∧ dragging g = false ∧ animations g = []
  ∧ start_time g = now
  ∧ length (pieces g) = 3%nat ∧ Forall catalog_piece (pieces g)
  ∧ Forall (fun p => ∃ x y, can_place g p x y = true) (pieces g).

(** The click drops the dragged piece on the board at a legal origin. *)
Definition legal_drop (g : game) (mx my : Z) : Prop :=
  collidepoint board_rect mx my = true ∧ dragging g = true
  ∧ ∃ sel piece, selected g = Some sel ∧ pieces g !! sel = Some piece
      ∧ can_place g piece ((mx - 18) `div` 88) ((my - 18) `div` 88) = true.

(** The animation has run for more than CLEAR_ANIM. *)
Definition expired (now : Z) (a : animation) : Prop := now - start a > CLEAR_ANIM.

#[global] Instance expired_dec (now : Z) (a : animation) : Decision (expired now a).
Proof. unfold expired. apply _. Defined.

(** The rectangles of the TIMED MODE and RELAXED MODE buttons. *)
Definition timed_button : Rect := mkRect 465 286 200 50.
Definition relaxed_button : Rect := mkRect 465 346 200 50.

(** The click starts a session from the menu: no sub-page is shown and the
    point lies on TIMED MODE or RELAXED MODE. *)
Definition starts_session (m : Menu) (mx my : Z) : Prop :=
  showing_credits m = false ∧ showing_mechanics m = false
  ∧ (collidepoint timed_button mx my = true
     ∨ collidepoint relaxed_button mx my = true).

(** No character of the string is whitespace. *)
Fixpoint no_space (s : string) : bool :=
  match s with
  | EmptyString => true
  | String c s' => negb (is_space c) && no_space s'
  end.

(** ** Piece.rotated *)

(** The first elements of all rows, if every row has one. *)
Fixpoint heads {A} (rows : list (list A)) : option (list A) :=
  match rows with
  | [] => Some []
  | r :: rows' =>
      match r, heads rows' with
      | a :: _, Some hs => Some (a :: hs)
      | _, _ => None
      end
  end.

(** zip of the unpacked rows: the tuples of the i-th elements of the rows, as long as
    every row has an i-th element; nothing when there are no rows. The
    number of tuples is at most the length of the first row. *)
Fixpoint zip_star_fuel {A} (n : nat) (rows : list (list A)) : list (list A) :=
  match n with
  | O => []
  | S n' =>
      match heads rows with
      | Some hs => hs :: zip_star_fuel n' (map (drop 1) rows)
      | None => []
      end
  end.

Definition zip_star {A} (rows : list (list A)) : list (list A) :=
  zip_star_fuel (length (hd [] rows)) rows.

(** The comprehension over zip of the unpacked, reversed shape. *)
Definition rotate_shape (s : list (list Z)) : list (list Z) :=
  zip_star (reverse s).

(** Piece.rotated(); [None] is the IndexError of new[0] on an empty
    result. *)
Definition rotated (p : Piece) : option Piece :=
  let new := rotate_shape (shape p) in
  match new with
  | [] => None
  | r :: _ => Some {| shape := new; h := len new; w := len r; color := color p |}
  end.

(** The entry of a matrix at row i and column j, if there is one. *)
Definition entry {A} (m : list (list A)) (i j : nat) : option A :=
  m !! i ≫= fun r => r !! j.

(** A matrix of hh rows of length ww. *)
Definition matrix {A} (hh ww : nat) (m : list (list A)) : Prop :=
  length m = hh ∧ Forall (fun r => length r = ww) m.

(** The tally and the selection of a session: the score is a non-negative
    multiple of 15 that best does not fall below (a negative best comes
    only from the file), a piece is dragged exactly when a slot is
    selected, and the selected slot holds a piece. *)
Definition tally_ok (g : game) : Prop :=
  0 <= score g ∧ (15 | score g) ∧ score g <= Z.max 0 (best g)
  ∧ (dragging g = true ↔ is_Some (selected g))
  ∧ ∀ i, selected g = Some i -> (i < 3)%nat.

(** Every session the program holds satisfies [P]. *)
Definition sessions_satisfy (P : game -> Prop) (a : app) : Prop :=
  ∀ g, the_game a = Some g -> P g.

(** The line (k, i) has between 1 and [max_empty] empty cells, and values
    of 1..5 on them bring its sum to TARGET_SUM. *)
Definition completable (g : game) (max_empty : Z) (k : kind) (i : Z) : Prop :=
  1 <= len (line_empties g k i) <= max_empty
  ∧ ∃ vals, length vals = length (line_empties g k i)
            ∧ Forall (fun v => 1 <= v <= 5) vals
            ∧ line_sum g k i + zsum vals = TARGET_SUM.

(** Every shape[dy][dx] with dy in range(h) and dx in range(w) exists, so
    that the loops of can_place and place_piece read inside the matrix;
    so it is for every piece built by the constructor from a matrix whose
    rows are at least as long as the first one. *)
Definition readable_piece (p : Piece) : Prop :=
  h p = len (shape p) ∧ Forall (fun r => w p <= len r) (shape p).

(** [idx] is one of the held slots, so that pieces[idx] = ... does not
    raise. *)
Definition held_slot (g : game) (idx : nat) : Prop :=
  (idx < length (pieces g))%nat.

(** CPython's default limit on the number of digits that int() parses and
    str() prints (sys.int_info.default_max_str_digits). *)
Definition max_str_digits : Z := 4300.

(** An integer that str() prints and int() parses back. *)
Definition printable (b : Z) : Prop := Z.abs b < 10 ^ max_str_digits.

(** No pending animation is, at the clock reading [now], exactly
    CLEAR_ANIM old: there the rounding of the float subtraction of the
    two readings decides the comparison. *)
Definition off_threshold (g : game) (now : Z) : Prop :=
  Forall (fun a => now - start a ≠ CLEAR_ANIM) (animations g).

(** * Properties *)

(** ** Ranges, lookups and loops *)

Lemma elem_of_range (n x : Z) : x ∈ range n ↔ 0 <= x < n.
Proof. unfold range. rewrite elem_of_seqZ. lia. Qed.

Lemma elem_of_range2 (a b x : Z) : x ∈ range2 a b ↔ a <= x < b.
Proof. unfold range2. rewrite elem_of_seqZ. lia. Qed.

Lemma forallb_range (f : Z -> bool) (n : Z) :
  forallb f (range n) = true ↔ ∀ x, 0 <= x < n -> f x = true.
Proof.
  rewrite forallb_forall. split; intros H x Hx.
  - apply H, list_elem_of_In, elem_of_range, Hx.
  - apply H, elem_of_range, list_elem_of_In, Hx.
Qed.

(** ** Placement legality *)

Lemma cell_fits_true (g : game) (p : Piece) (x y dy dx : Z) :
  cell_fits g p x y dy dx = true ↔
  (at2 (shape p) dy dx ≠ 0 ->
   0 <= x + dx < board_size ∧ 0 <= y + dy < board_size
   ∧ at2 (grid g) (y + dy) (x + dx) = 0).
Proof.
  unfold cell_fits, board_size, GRID_SIZE.
  destruct (Z.eqb_spec (at2 (shape p) dy dx) 0) as [E|E]; simpl.
  { split; [intros _ H; contradiction | reflexivity]. }
  destruct (Z.ltb_spec (x + dx) 0), (Z.geb_spec (x + dx) 7),
    (Z.ltb_spec (y + dy) 0), (Z.geb_spec (y + dy) 7); simpl;
    try (split; [discriminate | intros Hall; specialize (Hall E); lia]).
  destruct (Z.eqb_spec (at2 (grid g) (y + dy) (x + dx)) 0) as [E'|E']; simpl.
  - split; [intros _ _; repeat split; (lia || assumption) | reflexivity].
  - split; [discriminate | intros Hall; specialize (Hall E); tauto].
Qed.

Lemma can_place_spec (g : game) (p : Piece) (x y : Z) :
  can_place g p x y = true ↔
  ∀ dx dy, occupied p dx dy ->
    0 <= x + dx < board_size ∧ 0 <= y + dy < board_size
    ∧ at2 (grid g) (y + dy) (x + dx) = 0.
Proof.
  unfold can_place, occupied. rewrite forallb_range. split.
  - intros H dx dy (Hdy & Hdx & Hne).
    specialize (H dy Hdy). rewrite forallb_range in H.
    specialize (H dx Hdx). apply cell_fits_true in H; auto.
  - intros H dy Hdy. apply forallb_range. intros dx Hdx.
    apply cell_fits_true. intros Hne. apply H; auto.
Qed.

Lemma at2_get2 (m : list (list Z)) (r c : Z) : at2 m r c = default 0 (get2 m r c).
Proof. unfold at2, get2. destruct (zget m r); reflexivity. Qed.

Lemma zget_Some_range {A} (l : list A) (i : Z) (a : A) :
  zget l i = Some a -> 0 <= i < len l ∧ a ∈ l.
Proof.
  unfold zget, len. destruct (Z.ltb_spec i 0); [discriminate|]. intros H'.
  split; [|eapply list_elem_of_lookup_2; exact H'].
  apply lookup_lt_Some in H'. lia.
Qed.

(** On a rectangular piece the occupied cells are all the non-zero entries
    of its matrix. *)
Lemma occupied_rectangular (p : Piece) (dx dy : Z) :
  rectangular_piece p ->
  occupied p dx dy ↔ ∃ v, get2 (shape p) dy dx = Some v ∧ v ≠ 0.
Proof.
  intros [Hh Hw]. unfold occupied. rewrite at2_get2. split.
  - intros (_ & _ & Hne). destruct (get2 (shape p) dy dx) as [v|]; [|contradiction].
    exists v. auto.
  - intros (v & Hv & Hne). rewrite Hv. unfold get2 in Hv.
    destruct (zget (shape p) dy) as [rw|] eqn:Er; [|discriminate].
    apply zget_Some_range in Er as [Hdy Hin].
    apply zget_Some_range in Hv as [Hdx _].
    rewrite Forall_forall in Hw. rewrite <- (Hw rw Hin), Hh. auto.
Qed.

Lemma can_place_filled (g : game) (p : Piece) (x y : Z) :
  rectangular_piece p -> can_place g p x y = true ↔ all_filled_fit g p x y.
Proof.
  intros Hr. rewrite can_place_spec. unfold all_filled_fit, filled. split.
  - intros H dx dy (v & Hv & Hne). apply H, occupied_rectangular; eauto.
  - intros H dx dy Hocc.
    apply (occupied_rectangular p dx dy Hr) in Hocc. apply H, Hocc.
Qed.

(** ** The shape catalog *)

(** C8: the catalog has exactly 14 templates, all with 0/1 entries and at
    least one occupied entry; the first thirteen are rectangular, but the
    last one, [[1],[1,1],[1]], has rows of lengths 1, 2 and 1. *)
Theorem SHAPES_last_template_ragged :
  length SHAPES = 14%nat
  ∧ forallb boolean_entries SHAPES = true
  ∧ forallb has_occupied_entry SHAPES = true
  ∧ forallb rectangular (take 13 SHAPES) = true
  ∧ SHAPES !! 13%nat = Some [[1]; [1; 1]; [1]]
  ∧ rectangular [[1]; [1; 1]; [1]] = false
  ∧ map len [[1]; [1; 1]; [1]] = [1; 2; 1].
Proof. repeat split; reflexivity. Qed.

(** ** Boards *)

Lemma zsum_row7 (r : list Z) :
  length r = 7%nat ->
  zsum r = zsum (map (fun x => default 0 (zget r x)) (range 7)).
Proof.
  intros Hl.
  destruct r as [|a [|b [|c [|d [|e [|f [|i [|j r]]]]]]]]; try discriminate.
  cbn. reflexivity.
Qed.

Lemma row_sum_well_formed (m : list (list Z)) (y : Z) :
  board_shape m -> 0 <= y < 7 ->
  zsum (default [] (zget m y)) = zsum (map (fun x => at2 m y x) (range 7)).
Proof.
  intros [Hl Hr] Hy. unfold at2, zget.
  destruct (Z.ltb_spec y 0); [lia|].
  destruct (m !! Z.to_nat y) as [r|] eqn:E.
  - simpl. apply zsum_row7.
    rewrite Forall_forall in Hr. apply Hr.
    eapply list_elem_of_lookup_2; eauto.
  - apply lookup_ge_None in E. lia.
Qed.

Lemma forallb_occupied (f : Z -> Z) :
  forallb (fun i => negb (f i =? 0)) (range board_size) = true ↔
  ∀ i, 0 <= i < 7 -> f i ≠ 0.
Proof.
  rewrite forallb_range. split; intros H i Hi; specialize (H i Hi).
  - destruct (Z.eqb_spec (f i) 0); [discriminate | assumption].
  - destruct (Z.eqb_spec (f i) 0); [contradiction | reflexivity].
Qed.

Lemma row_qualifies_spec (g : game) (y : Z) :
  well_formed g -> 0 <= y < 7 ->
  row_qualifies g y = true ↔
  (∀ x, 0 <= x < 7 -> at2 (grid g) y x ≠ 0)
  ∧ zsum (map (fun x => at2 (grid_nums g) y x) (range 7)) = 25.
Proof.
  intros (_ & Hn & _) Hy. unfold row_qualifies.
  rewrite andb_true_iff, (forallb_occupied (fun x => at2 (grid g) y x)).
  rewrite Z.eqb_eq, (row_sum_well_formed _ _ Hn Hy). reflexivity.
Qed.

Lemma col_qualifies_spec (g : game) (x : Z) :
  col_qualifies g x = true ↔
  (∀ y, 0 <= y < 7 -> at2 (grid g) y x ≠ 0)
  ∧ zsum (map (fun y => at2 (grid_nums g) y x) (range 7)) = 25.
Proof.
  unfold col_qualifies.
  rewrite andb_true_iff, (forallb_occupied (fun y => at2 (grid g) y x)).
  rewrite Z.eqb_eq. reflexivity.
Qed.

(** Membership in the set built by check_and_animate. *)
Lemma elem_of_fold_add (f : Z -> Z * Z) (l : list Z) (s : gset (Z * Z)) (p : Z * Z) :
  p ∈ foldl (fun s i => s ∪ {[ f i ]}) s l ↔ p ∈ s ∨ ∃ i, i ∈ l ∧ p = f i.
Proof.
  revert s. induction l as [|a l IH]; intros s; simpl.
  - split; [auto | intros [H | (i & Hi & _)]; [assumption | inversion Hi]].
  - rewrite IH, elem_of_union, elem_of_singleton. split.
    + intros [[H | H] | (i & Hi & E)]; eauto.
      * right. exists a. split; [left | assumption].
      * right. exists i. split; [right; assumption | assumption].
    + intros [H | (i & Hi & E)]; [auto|].
      apply elem_of_cons in Hi as [-> | Hi]; eauto.
Qed.

Lemma elem_of_fold_lines (q : Z -> bool) (f : Z -> Z -> Z * Z) (l : list Z)
    (s : gset (Z * Z)) (p : Z * Z) :
  p ∈ foldl (fun s j => if q j
                        then foldl (fun s i => s ∪ {[ f j i ]}) s (range board_size)
                        else s) s l
  ↔ p ∈ s ∨ ∃ j i, j ∈ l ∧ q j = true ∧ 0 <= i < 7 ∧ p = f j i.
Proof.
  revert s. induction l as [|a l IH]; intros s; cbn [foldl].
  - split; [auto | intros [H | (j & i & Hj & _)]; [assumption | inversion Hj]].
  - rewrite IH. destruct (q a) eqn:Q.
    + rewrite (elem_of_fold_add (f a)). setoid_rewrite elem_of_range.
      unfold board_size, GRID_SIZE. split.
      * intros [[H | (i & Hi & E)] | (j & i & Hj & Hq & Hi & E)]; [auto | |].
        -- right. exists a, i.
           split; [apply list_elem_of_here | auto].
        -- right. exists j, i.
           split; [apply list_elem_of_further; assumption | auto].
      * intros [H | (j & i & Hj & Hq & Hi & E)]; [auto|].
        apply elem_of_cons in Hj as [-> | Hj].
        -- left. right. exists i. auto.
        -- right. exists j, i. auto.
    + split.
      * intros [H | (j & i & Hj & Hq & Hi & E)]; [auto|].
        right. exists j, i.
        split; [apply list_elem_of_further; assumption | auto].
      * intros [H | (j & i & Hj & Hq & Hi & E)]; [auto|].
        apply elem_of_cons in Hj as [-> | Hj]; [congruence|].
        right. exists j, i. auto.
Qed.

Lemma elem_of_to_clear (g : game) (x y : Z) :
  (x, y) ∈ to_clear_of g ↔
  0 <= x < 7 ∧ 0 <= y < 7 ∧ (row_qualifies g y = true ∨ col_qualifies g x = true).
Proof.
  unfold to_clear_of, add_row, add_col.
  rewrite (elem_of_fold_lines (col_qualifies g) (fun x y => (x, y))).
  rewrite (elem_of_fold_lines (row_qualifies g) (fun y x => (x, y))).
  setoid_rewrite elem_of_range. split.
  - intros [[H | (j & i & Hj & Hq & Hi & E)] | (j & i & Hj & Hq & Hi & E)].
    + apply not_elem_of_empty in H. contradiction.
    + inversion E; subst. unfold board_size, GRID_SIZE in Hj. auto.
    + inversion E; subst. unfold board_size, GRID_SIZE in Hj. auto.
  - intros (Hx & Hy & [Hq | Hq]).
    + left. right. exists y, x. auto.
    + right. exists x, y. auto.
Qed.

(** C3, amended: a row or column goes into the clear-set exactly when all 7
    of its cells are occupied and its values sum to 25. A full row
    [5,5,5,5,5,4,1] (sum 30) does not clear; [5,5,5,5,5,3,2] also sums to 30
    and does not clear either; a full row summing to 25, such as
    [5,5,5,5,3,1,1], does. *)
Theorem exact_sum_clearing (g : game) :
  well_formed g ->
  (∀ y, 0 <= y < 7 ->
     row_qualifies g y = true ↔
     (∀ x, 0 <= x < 7 -> at2 (grid g) y x ≠ 0)
     ∧ zsum (map (fun x => at2 (grid_nums g) y x) (range 7)) = 25)
  ∧ (∀ x, 0 <= x < 7 ->
     col_qualifies g x = true ↔
     (∀ y, 0 <= y < 7 -> at2 (grid g) y x ≠ 0)
     ∧ zsum (map (fun y => at2 (grid_nums g) y x) (range 7)) = 25)
  ∧ (∀ x y, (x, y) ∈ to_clear_of g ↔
       0 <= x < 7 ∧ 0 <= y < 7
       ∧ (row_qualifies g y = true ∨ col_qualifies g x = true))
  ∧ row_qualifies (board_with_row [5; 5; 5; 5; 5; 4; 1]) 0 = false
  ∧ zsum [5; 5; 5; 5; 5; 3; 2] = 30
  ∧ row_qualifies (board_with_row [5; 5; 5; 5; 5; 3; 2]) 0 = false
  ∧ row_qualifies (board_with_row [5; 5; 5; 5; 3; 1; 1]) 0 = true.
Proof.
  intros Hwf.
  split; [intros y Hy; apply row_qualifies_spec; assumption|].
  split; [intros x Hx; apply col_qualifies_spec|].
  split; [intros x y; apply elem_of_to_clear|].
  repeat split; vm_compute; reflexivity.
Qed.

Lemma board_with_row_well_formed (vals : list Z) :
  length vals = 7%nat -> well_formed (board_with_row vals).
Proof.
  intros Hl. repeat split; try reflexivity; cbn; repeat constructor.
  exact Hl.
Qed.

Lemma exact_sum_clearing_witness :
  (3, 0) ∈ to_clear_of (board_with_row [5; 5; 5; 5; 3; 1; 1]).
Proof.
  pose proof (exact_sum_clearing (board_with_row [5; 5; 5; 5; 3; 1; 1])
                (board_with_row_well_formed [5; 5; 5; 5; 3; 1; 1] eq_refl))
    as (_ & _ & H & _).
  apply H. repeat split; try lia. left. vm_compute. reflexivity.
Defined.

(** The fully occupied row [5,5,5,5,5,3,2] of C3 sums to 30 and is not
    cleared. *)
Lemma row_5555532_does_not_clear :
  ¬ (row_qualifies (board_with_row [5; 5; 5; 5; 5; 3; 2]) 0 = true).
Proof. vm_compute. discriminate. Qed.

(** ** Scoring of a clear pass *)

Lemma check_and_animate_result (g : game) (now : Z) (t : list nat) :
  let k := Z.of_nat (size (to_clear_of g)) in
  ∃ g', fst (check_and_animate g now t) = ((k, k * POINTS_PER_CELL), g')
        ∧ score g' = score g + k * POINTS_PER_CELL
        ∧ grid g' = grid g ∧ grid_nums g' = grid_nums g
        ∧ grid_colors g' = grid_colors g
        ∧ animations g' =
            if bool_decide (to_clear_of g = ∅) then animations g
            else animations g ++ [mkAnim (elements (to_clear_of g)) now].
Proof.
  unfold check_and_animate, bind, ret.
  destruct (bool_decide (to_clear_of g = ∅)) eqn:E.
  - eexists. split; [reflexivity|]. simpl. auto.
  - unfold choice, bind, ret.
    destruct (draw t) as [n t'] eqn:D.
    eexists. split; [reflexivity|]. simpl. auto.
Qed.

(** C5: a clear pass returns k and 15 * k and adds exactly 15 * k to the
    score, where k is the size of the clear-set, a set of cells in which a
    cell of a qualifying row and a qualifying column occurs once: the list
    of cells handed to the animation that resets them has no duplicates.
    With one qualifying row crossing one qualifying column, k is 13 and the
    pass scores 195. *)
Theorem clear_pass_scores_15_per_cell (g : game) (now : Z) (t : list nat) :
  let k := Z.of_nat (size (to_clear_of g)) in
  (∃ g', fst (check_and_animate g now t) = ((k, 15 * k), g')
         ∧ score g' = score g + 15 * k
         ∧ (to_clear_of g ≠ ∅ ->
            animations g' = animations g ++ [mkAnim (elements (to_clear_of g)) now]))
  ∧ k = Z.of_nat (length (elements (to_clear_of g)))
  ∧ NoDup (elements (to_clear_of g))
  ∧ (∀ x y, (x, y) ∈ elements (to_clear_of g) ↔
       0 <= x < 7 ∧ 0 <= y < 7
       ∧ (row_qualifies g y = true ∨ col_qualifies g x = true))
  ∧ row_qualifies cross_board 3 = true
  ∧ col_qualifies cross_board 3 = true
  ∧ fst (fst (check_and_animate cross_board now t)) = (13, 195).
Proof.
  intros k. split; [|split; [|split; [|split]]].
  - destruct (check_and_animate_result g now t) as (g' & E & Hs & _ & _ & _ & Ha).
    exists g'. fold k in E, Hs. unfold POINTS_PER_CELL in *.
    rewrite (Z.mul_comm 15 k). split; [exact E|]. split; [exact Hs|].
    intros Hne. rewrite Ha. rewrite bool_decide_eq_false_2 by exact Hne.
    reflexivity.
  - reflexivity.
  - apply NoDup_elements.
  - intros x y. rewrite elem_of_elements. apply elem_of_to_clear.
  - split; [vm_compute; reflexivity|]. split; [vm_compute; reflexivity|].
    destruct (check_and_animate_result cross_board now t) as (g' & E & _).
    rewrite E. vm_compute. reflexivity.
Qed.

(** ** Cell updates *)

Lemma get2_set2_ne {A} (m : list (list A)) (r c r' c' : Z) (v : A) :
  (r, c) ≠ (r', c') -> get2 (set2 m r c v) r' c' = get2 m r' c'.
Proof.
  intros Hne. unfold set2.
  destruct (Z.ltb_spec r 0); [reflexivity|].
  destruct (Z.ltb_spec c 0); [reflexivity|]. simpl.
  destruct (m !! Z.to_nat r) as [rw|] eqn:E; [|reflexivity].
  unfold get2, zget.
  destruct (Z.ltb_spec r' 0); [reflexivity|].
  destruct (decide (Z.to_nat r = Z.to_nat r')) as [Er|Er].
  - rewrite <- Er, list_lookup_insert_eq by (eapply lookup_lt_Some; eauto).
    rewrite E.
    destruct (Z.ltb_spec c' 0); [reflexivity|].
    apply list_lookup_insert_ne. intros Ec.
    apply Hne. f_equal; lia.
  - rewrite list_lookup_insert_ne by exact Er. reflexivity.
Qed.

Lemma get2_set2_eq {A} (m : list (list A)) (r c : Z) (v : A) :
  is_Some (get2 m r c) -> get2 (set2 m r c v) r c = Some v.
Proof.
  unfold get2, set2, zget. intros Hs.
  destruct (Z.ltb_spec r 0); [destruct Hs; discriminate|].
  destruct (m !! Z.to_nat r) as [rw|] eqn:E; [|destruct Hs; discriminate].
  destruct (Z.ltb_spec c 0); [destruct Hs; discriminate|]. simpl.
  destruct (Z.ltb_spec r 0); [lia|].
  rewrite list_lookup_insert_eq by (eapply lookup_lt_Some; eauto).
  destruct (Z.ltb_spec c 0); [lia|].
  destruct Hs as [a Ha].
  apply list_lookup_insert_eq. eapply lookup_lt_Some; eauto.
Qed.

Lemma get2_in_range {A} (m : list (list A)) (r c : Z) :
  board_shape m -> is_Some (get2 m r c) ↔ 0 <= r < 7 ∧ 0 <= c < 7.
Proof.
  intros [Hl Hr]. unfold get2, zget. rewrite Forall_forall in Hr.
  destruct (Z.ltb_spec r 0).
  { split; [intros [a Ha]; discriminate | lia]. }
  destruct (m !! Z.to_nat r) as [rw|] eqn:E.
  - pose proof (lookup_lt_Some _ _ _ E) as Hlt.
    pose proof (Hr rw (list_elem_of_lookup_2 _ _ _ E)) as Hrw.
    destruct (Z.ltb_spec c 0).
    { split; [intros [a Ha]; discriminate | lia]. }
    rewrite lookup_lt_is_Some. lia.
  - apply lookup_ge_None in E.
    split; [intros [a Ha]; discriminate | lia].
Qed.

Lemma board_shape_set2 {A} (m : list (list A)) (r c : Z) (v : A) :
  board_shape m -> board_shape (set2 m r c v).
Proof.
  intros [Hl Hr]. unfold set2.
  destruct ((r <? 0) || (c <? 0)); [split; assumption|].
  destruct (m !! Z.to_nat r) as [rw|] eqn:E; [|split; assumption].
  split.
  - rewrite length_insert. exact Hl.
  - apply Forall_insert; [exact Hr|].
    rewrite length_insert. rewrite Forall_forall in Hr.
    apply Hr. eapply list_elem_of_lookup_2; eauto.
Qed.

Lemma at2_nonzero_in_range (m : list (list Z)) (r c : Z) :
  board_shape m -> at2 m r c ≠ 0 -> 0 <= r < 7 ∧ 0 <= c < 7.
Proof.
  intros Hs Hne. apply (get2_in_range m r c Hs).
  rewrite at2_get2 in Hne. destruct (get2 m r c); [eauto | contradiction].
Qed.

(** ** Resetting cells *)

Lemma cleared_from_refl (g : game) : well_formed g -> cleared_from g g.
Proof. intros H. split; [exact H|]. intros r c. left. repeat split. Qed.

Lemma cleared_from_trans (g1 g2 g3 : game) :
  cleared_from g1 g2 -> cleared_from g2 g3 -> cleared_from g1 g3.
Proof.
  intros [_ H12] [Hw H23]. split; [exact Hw|]. intros r c.
  destruct (H23 r c) as [(Ka & Kb & Kc) | He]; [|right; exact He].
  destruct (H12 r c) as [(Ja & Jb & Jc) | (Ea & Eb & Ec)].
  - left. repeat split; congruence.
  - right. repeat split; congruence.
Qed.

Lemma clear_cell_spec (g : game) (x y : Z) :
  well_formed g ->
  cleared_from g (clear_cell g (x, y))
  ∧ at2 (grid (clear_cell g (x, y))) y x = 0.
Proof.
  intros (Hg & Hn & Hc). unfold clear_cell.
  destruct (Z.eqb_spec (at2 (grid g) y x) 0) as [E|E]; simpl.
  { split; [apply cleared_from_refl; exact (conj Hg (conj Hn Hc)) | exact E]. }
  pose proof (at2_nonzero_in_range _ _ _ Hg E) as Hin.
  assert (Hz : ∀ (m : list (list Z)), board_shape m -> at2 (set2 m y x 0) y x = 0).
  { intros m Hm. rewrite at2_get2, get2_set2_eq; [reflexivity|].
    apply get2_in_range; assumption. }
  split; [|apply Hz; exact Hg].
  split; [split; [|split]; apply board_shape_set2; assumption|].
  intros r c. destruct (decide ((y, x) = (r, c))) as [Eq|Ne].
  - inversion Eq; subst r c. right. repeat split; simpl.
    + apply Hz; exact Hg.
    + apply Hz; exact Hn.
    + unfold color_at. rewrite get2_set2_eq; [reflexivity|].
      apply get2_in_range; assumption.
  - left. repeat split; simpl.
    + rewrite !at2_get2, get2_set2_ne by exact Ne. reflexivity.
    + rewrite !at2_get2, get2_set2_ne by exact Ne. reflexivity.
    + unfold color_at. rewrite get2_set2_ne by exact Ne. reflexivity.
Qed.

Lemma cleared_from_zero_stays (g g' : game) (r c : Z) :
  cleared_from g g' -> at2 (grid g) r c = 0 -> at2 (grid g') r c = 0.
Proof.
  intros [_ H] Hz. destruct (H r c) as [(Ka & _) | (Ea & _)]; congruence.
Qed.

Lemma clear_cells_spec (cs : list (Z * Z)) (g : game) :
  well_formed g ->
  cleared_from g (foldl clear_cell g cs)
  ∧ ∀ x y, (x, y) ∈ cs -> at2 (grid (foldl clear_cell g cs)) y x = 0.
Proof.
  revert g. induction cs as [|[x0 y0] cs IH]; intros g Hw; simpl.
  - split; [apply cleared_from_refl; exact Hw|]. intros x y H. inversion H.
  - destruct (clear_cell_spec g x0 y0 Hw) as [Hc Hz].
    destruct (IH (clear_cell g (x0, y0)) (proj1 Hc)) as [Hc' Hz'].
    split; [eapply cleared_from_trans; eauto|].
    intros x y Hin. apply elem_of_cons in Hin as [E | Hin].
    + inversion E; subst. eapply cleared_from_zero_stays; eauto.
    + apply Hz'; exact Hin.
Qed.

(** ** Expired animations *)

Lemma anim_fold_spec (now : Z) (anims : list animation) (st : game * list animation) :
  well_formed (fst st) ->
  cleared_from (fst st) (fst (foldl (anim_step now) st anims))
  ∧ ∀ a x y, a ∈ anims -> now - start a > CLEAR_ANIM -> (x, y) ∈ cells a ->
      at2 (grid (fst (foldl (anim_step now) st anims))) y x = 0.
Proof.
  revert st. induction anims as [|a anims IH]; intros st Hw; simpl.
  - split; [apply cleared_from_refl; exact Hw|]. intros a x y H. inversion H.
  - assert (Hstep : cleared_from (fst st) (fst (anim_step now st a))
                    ∧ (now - start a > CLEAR_ANIM -> ∀ x y, (x, y) ∈ cells a ->
                       at2 (grid (fst (anim_step now st a))) y x = 0)).
    { unfold anim_step. destruct (Z.gtb_spec (now - start a) CLEAR_ANIM); simpl.
      - destruct (clear_cells_spec (cells a) (fst st) Hw) as [Hc Hz].
        split; [exact Hc | intros _; exact Hz].
      - split; [apply cleared_from_refl; exact Hw | lia]. }
    destruct Hstep as [Hc Hz].
    destruct (IH (anim_step now st a) (proj1 Hc)) as [Hc' Hz'].
    split; [eapply cleared_from_trans; eauto|].
    intros b x y Hb Hexp Hin. apply elem_of_cons in Hb as [-> | Hb].
    + eapply cleared_from_zero_stays; [exact Hc'|]. apply Hz; assumption.
    + eapply Hz'; eauto.
Qed.

Lemma update_animations_spec (g : game) (now : Z) :
  well_formed g ->
  cleared_from g (update_animations g now)
  ∧ ∀ a x y, a ∈ animations g -> now - start a > CLEAR_ANIM -> (x, y) ∈ cells a ->
      at2 (grid (update_animations g now)) y x = 0.
Proof.
  intros Hw. unfold update_animations.
  pose proof (anim_fold_spec now (animations g) (g, []) Hw) as H.
  destruct (foldl (anim_step now) (g, []) (animations g)) as [g1 dn]. exact H.
Qed.

Lemma to_clear_of_ext (g g' : game) :
  grid g = grid g' -> grid_nums g = grid_nums g' -> to_clear_of g = to_clear_of g'.
Proof.
  intros H1 H2. unfold to_clear_of, row_qualifies, col_qualifies.
  rewrite H1, H2. reflexivity.
Qed.

Lemma cleared_from_ext (g0 g g' : game) :
  grid g0 = grid g -> grid_nums g0 = grid_nums g -> grid_colors g0 = grid_colors g ->
  cleared_from g0 g' -> cleared_from g g'.
Proof.
  intros H1 H2 H3 [Hw H]. split; [exact Hw|]. intros r c.
  destruct (H r c) as [K | E]; [left | right; exact E].
  unfold cell_kept in *. rewrite <- H1, <- H2, <- H3. exact K.
Qed.

Lemma zsum_map_ext (f f' : Z -> Z) (l : list Z) :
  (∀ i, i ∈ l -> f i = f' i) -> zsum (map f l) = zsum (map f' l).
Proof.
  intros H. f_equal. apply map_ext_in. intros i Hi.
  apply H, list_elem_of_In, Hi.
Qed.

(** A line that qualifies after some cells were reset qualified before, and
    none of its cells was reset. *)
Lemma row_qualifies_cleared (g g' : game) (y : Z) :
  well_formed g -> cleared_from g g' -> 0 <= y < 7 ->
  row_qualifies g' y = true ->
  row_qualifies g y = true ∧ ∀ x, 0 <= x < 7 -> at2 (grid g') y x ≠ 0.
Proof.
  intros Hw [Hw' Hc] Hy Hq.
  apply (row_qualifies_spec g' y Hw' Hy) in Hq as [Hfull Hsum].
  split; [|exact Hfull]. apply (row_qualifies_spec g y Hw Hy).
  assert (Hk : ∀ x, 0 <= x < 7 -> cell_kept g g' y x).
  { intros x Hx. destruct (Hc y x) as [K | (E & _)]; [exact K|].
    exfalso. exact (Hfull x Hx E). }
  split.
  - intros x Hx. destruct (Hk x Hx) as (Ka & _). rewrite <- Ka. apply Hfull, Hx.
  - rewrite <- Hsum. apply zsum_map_ext. intros x Hx.
    apply elem_of_range in Hx. destruct (Hk x Hx) as (_ & Kb & _). symmetry; exact Kb.
Qed.

Lemma col_qualifies_cleared (g g' : game) (x : Z) :
  cleared_from g g' -> col_qualifies g' x = true ->
  col_qualifies g x = true ∧ ∀ y, 0 <= y < 7 -> at2 (grid g') y x ≠ 0.
Proof.
  intros [Hw' Hc] Hq.
  apply col_qualifies_spec in Hq as [Hfull Hsum].
  split; [|exact Hfull]. apply col_qualifies_spec.
  assert (Hk : ∀ y, 0 <= y < 7 -> cell_kept g g' y x).
  { intros y Hy. destruct (Hc y x) as [K | (E & _)]; [exact K|].
    exfalso. exact (Hfull y Hy E). }
  split.
  - intros y Hy. destruct (Hk y Hy) as (Ka & _). rewrite <- Ka. apply Hfull, Hy.
  - rewrite <- Hsum. apply zsum_map_ext. intros y Hy.
    apply elem_of_range in Hy. destruct (Hk y Hy) as (_ & Kb & _). symmetry; exact Kb.
Qed.

Lemma to_clear_occupied (g : game) (x y : Z) :
  well_formed g -> (x, y) ∈ to_clear_of g -> at2 (grid g) y x ≠ 0.
Proof.
  intros Hw Hin. apply elem_of_to_clear in Hin as (Hx & Hy & [Hq | Hq]).
  - apply (row_qualifies_spec g y Hw Hy) in Hq as [Hfull _]. apply Hfull, Hx.
  - apply col_qualifies_spec in Hq as [Hfull _]. apply Hfull, Hy.
Qed.

(** Once the cells of the clear-set of [g] are empty in [g'], no line of
    [g'] qualifies. *)
Lemma nothing_left_to_clear (g g' : game) :
  well_formed g -> cleared_from g g' ->
  (∀ x y, (x, y) ∈ to_clear_of g -> at2 (grid g') y x = 0) ->
  to_clear_of g' = ∅.
Proof.
  intros Hw Hc Hz. apply elem_of_equiv_empty_L. intros [x y] Hin.
  apply elem_of_to_clear in Hin as (Hx & Hy & [Hq | Hq]).
  - destruct (row_qualifies_cleared g g' y Hw Hc Hy Hq) as [Hq0 Hfull].
    apply (Hfull x Hx), Hz, elem_of_to_clear. auto.
  - destruct (col_qualifies_cleared g g' x Hc Hq) as [Hq0 Hfull].
    apply (Hfull y Hy), Hz, elem_of_to_clear. auto.
Qed.

Lemma full_row_25_in_clear_set :
  (3, 0) ∈ to_clear_of (board_with_row [5; 5; 5; 5; 3; 1; 1]).
Proof.
  apply elem_of_to_clear. repeat split; try lia. left. vm_compute. reflexivity.
Qed.

Lemma set_score_same (g : game) : set_score g (score g + 0) = g.
Proof. destruct g. unfold set_score. simpl. rewrite Z.add_0_r. reflexivity. Qed.

(** C4, amended: the evaluation itself never changes a board cell, and when
    no line qualifies it returns (0, 0) and leaves the game object as it
    was. The cells of the clear-set are reset to empty (occupied = false,
    value = 0, color = none) by update_animations once more than CLEAR_ANIM
    has passed since the evaluation; re-evaluating after that reset returns
    (0, 0). *)
Theorem clear_set_reset_after_animation (g : game) (now now' : Z) (t t' : list nat) :
  well_formed g -> now' - now > CLEAR_ANIM ->
  let g1 := snd (fst (check_and_animate g now t)) in
  let g2 := update_animations g1 now' in
  (grid g1 = grid g ∧ grid_nums g1 = grid_nums g ∧ grid_colors g1 = grid_colors g)
  ∧ (to_clear_of g = ∅ -> fst (check_and_animate g now t) = ((0, 0), g))
  ∧ (∀ x y, (x, y) ∈ to_clear_of g -> cell_empty g2 y x)
  ∧ fst (fst (check_and_animate g2 now' t')) = (0, 0).
Proof.
  intros Hw Hlate g1 g2.
  destruct (check_and_animate_result g now t) as (g' & E & _ & Hg & Hn & Hc & Ha).
  assert (E1 : g1 = g') by (unfold g1; rewrite E; reflexivity).
  assert (Hw1 : well_formed g1).
  { rewrite E1. unfold well_formed. rewrite Hg, Hn, Hc. exact Hw. }
  destruct (update_animations_spec g1 now' Hw1) as [Hcl Hz]. fold g2 in Hcl, Hz.
  assert (Hcl0 : cleared_from g g2).
  { eapply cleared_from_ext; [| | | exact Hcl]; rewrite E1; assumption. }
  assert (Hzero : ∀ x y, (x, y) ∈ to_clear_of g -> at2 (grid g2) y x = 0).
  { intros x y Hin.
    apply (Hz (mkAnim (elements (to_clear_of g)) now)); simpl; [|lia|].
    - rewrite E1, Ha. rewrite bool_decide_eq_false_2.
      + apply elem_of_app. right. apply list_elem_of_here.
      + intros Hempty. rewrite Hempty in Hin. apply not_elem_of_empty in Hin. exact Hin.
    - apply elem_of_elements. exact Hin. }
  split; [rewrite E1; auto|].
  split.
  { intros Hempty. unfold check_and_animate, bind, ret.
    rewrite Hempty. rewrite bool_decide_eq_true_2 by reflexivity.
    rewrite size_empty. simpl. rewrite set_score_same. reflexivity. }
  split.
  { intros x y Hin. destruct Hcl0 as [_ Hcells].
    destruct (Hcells y x) as [(Ka & _) | He]; [|exact He].
    exfalso. apply (to_clear_occupied g x y Hw Hin).
    rewrite <- Ka. apply Hzero, Hin. }
  destruct (check_and_animate_result g2 now' t') as (g3 & E3 & _).
  rewrite E3. rewrite (nothing_left_to_clear g g2 Hw Hcl0 Hzero).
  rewrite size_empty. reflexivity.
Qed.

Lemma clear_set_reset_after_animation_witness :
  let g := board_with_row [5; 5; 5; 5; 3; 1; 1] in
  let g2 := update_animations (snd (fst (check_and_animate g 0 []))) 451 in
  cell_empty g2 0 3 ∧ fst (fst (check_and_animate g2 451 [])) = (0, 0).
Proof.
  intros g g2.
  pose proof (clear_set_reset_after_animation g 0 451 [] []
                (board_with_row_well_formed [5; 5; 5; 5; 3; 1; 1] eq_refl)
                ltac:(unfold CLEAR_ANIM; lia)) as (_ & _ & Hcells & Hre).
  split; [|exact Hre].
  apply (Hcells 3 0). apply full_row_25_in_clear_set.
Defined.

(** Right after the evaluation the cells of the clear-set are still
    occupied, and evaluating again scores the same line again. *)
Lemma check_and_animate_leaves_cells_occupied :
  let g := board_with_row [5; 5; 5; 5; 3; 1; 1] in
  let g1 := snd (fst (check_and_animate g 0 [])) in
  (3, 0) ∈ to_clear_of g
  ∧ ¬ cell_empty g1 0 3
  ∧ fst (fst (check_and_animate g1 0 [])) = (7, 105).
Proof.
  intros g g1. split; [apply full_row_25_in_clear_set|]. split.
  - intros (H & _). vm_compute in H. discriminate H.
  - vm_compute. reflexivity.
Qed.

(** ** Persistence *)

(** C9: load_best always yields an integer, and that integer is 0 when
    the best-score file is missing, when opening or reading it raises, and
    when its content does not parse; save_best returns the game object it
    was given whatever happens to the write, so a failed write changes
    nothing of the session. *)
Theorem best_score_io_failures_are_swallowed :
  load_best Missing = 0
  ∧ load_best Unreadable = 0
  ∧ (∀ s e, py_int (or_zero (strip s)) = Raise e -> load_best (Holds s) = 0)
  ∧ (∀ d, (∃ e, load_best_try d = Raise e) ∨ load_best_try d = Ok None ->
          load_best d = 0)
  ∧ (∀ g d o, fst (save_best g d o) = g)
  ∧ (∀ g d o e, fst (save_best_try (best g) d o) = Raise e ->
                fst (save_best g d o) = g)
  ∧ load_best (Holds "not a number") = 0
  ∧ load_best (Holds "") = 0
  ∧ load_best (Holds " 120 ") = 120.
Proof.
  split; [reflexivity|]. split; [reflexivity|].
  split.
  { intros s e H. unfold load_best, load_best_try. rewrite H. reflexivity. }
  split.
  { intros d [[e H] | H]; unfold load_best; rewrite H; reflexivity. }
  split.
  { intros g d o. unfold save_best.
    destruct (save_best_try (best g) d o) as [[u|e] d']; reflexivity. }
  split.
  { intros g d o e _. unfold save_best.
    destruct (save_best_try (best g) d o) as [[u|e'] d']; reflexivity. }
  repeat split; vm_compute; reflexivity.
Qed.

Lemma best_score_io_failures_are_swallowed_witness :
  load_best (Holds "12a") = 0
  ∧ fst (save_best blank_game Missing OpenFails) = blank_game.
Proof.
  pose proof best_score_io_failures_are_swallowed as (_ & _ & Hp & _ & _ & Hs & _).
  split.
  - apply (Hp "12a"%string ValueError). vm_compute. reflexivity.
  - apply (Hs blank_game Missing OpenFails OSError). reflexivity.
Defined.

(** ** The Piece constructor *)

Lemma randint_range (mn mx : Z) (t : list nat) :
  mn <= mx -> mn <= fst (randint mn mx t) <= mx.
Proof.
  intros H. unfold randint, bind, ret. destruct (draw t) as [n t']. simpl.
  pose proof (Z.mod_pos_bound (Z.of_nat n) (mx - mn + 1)). lia.
Qed.

Lemma mapR_cons {A B} (f : A -> R B) (a : A) (l : list A) (t : list nat) :
  mapR f (a :: l) t =
  (fst (f a t) :: fst (mapR f l (snd (f a t))), snd (mapR f l (snd (f a t)))).
Proof.
  simpl. unfold bind, ret. destruct (f a t) as [b t1]. simpl.
  destruct (mapR f l t1) as [bs t2]. reflexivity.
Qed.

Lemma fill_row_spec (mn mx : Z) (rw : list Z) (t : list nat) :
  mn <= mx ->
  Forall2 (fun c v => if c =? 1 then mn <= v <= mx else v = 0) rw
    (fst (mapR (fun cell => if cell =? 1 then randint mn mx else ret 0) rw t)).
Proof.
  intros H. revert t. induction rw as [|c rw IH]; intros t.
  - constructor.
  - rewrite mapR_cons. simpl. constructor; [|apply IH].
    destruct (c =? 1); [apply randint_range; exact H | reflexivity].
Qed.

Lemma fill_shape_spec (mn mx : Z) (s : list (list Z)) (t : list nat) :
  mn <= mx ->
  filled_from mn mx s
    (fst (mapR (fun rw => mapR (fun cell => if cell =? 1 then randint mn mx else ret 0) rw)
               s t)).
Proof.
  intros H. unfold filled_from. revert t.
  induction s as [|rw s IH]; intros t.
  - constructor.
  - rewrite mapR_cons. simpl. constructor; [|apply IH].
    apply fill_row_spec. exact H.
Qed.

Lemma bias_range_ordered (b : bias) :
  fst (bias_range b) <= snd (bias_range b)
  ∧ 1 <= fst (bias_range b) ∧ snd (bias_range b) <= 5.
Proof. destruct b; simpl; lia. Qed.

Lemma random_piece_from_shape_spec (s : list (list Z)) (b : bias) (t : list nat) :
  filled_from (fst (bias_range b)) (snd (bias_range b)) s
    (fst (random_piece_from_shape (Some s) b t)).
Proof.
  unfold random_piece_from_shape, bind, ret.
  destruct (bias_range_ordered b) as (Ho & _).
  destruct (bias_range b) as [mn mx]. simpl in *.
  apply fill_shape_spec. exact Ho.
Qed.

Lemma Piece_init_shape_template (s : list (list Z)) (b : bias) (t : list nat) :
  template s ->
  shape (fst (Piece_init (Some s) b t)) = fst (random_piece_from_shape (Some s) b t).
Proof.
  unfold template. intros H. unfold Piece_init, bind. rewrite H.
  destruct (random_piece_from_shape (Some s) b t) as [sh t1].
  unfold choice, bind, ret. destruct (draw t1). reflexivity.
Qed.

(** C10: for a shape matrix with no cell other than 0 or 1 the constructor
    builds the piece's fill with random_piece_from_shape: every occupied
    cell holds a fresh draw from the bias range and the passed matrix is
    not kept. So an intended fill of 1 on every occupied cell is lost: the
    matrix [[1]] becomes [[5]] when the draw is 5, and under the "high"
    bias every occupied cell of the piece is at least 3. In the strategic
    branch, a row that needs exactly 1 gets the fill [[1]], which the
    constructor replaces: with a draw of 5 the generator returns [[5]]. *)
Theorem Piece_refills_zero_one_shapes (s : list (list Z)) (b : bias) (t : list nat) :
  template s ->
  shape (fst (Piece_init (Some s) b t)) = fst (random_piece_from_shape (Some s) b t)
  ∧ filled_from (fst (bias_range b)) (snd (bias_range b)) s
                (shape (fst (Piece_init (Some s) b t)))
  ∧ shape (fst (Piece_init (Some [[1]]) neutral [4%nat])) = [[5]]
  ∧ filled_from 3 5 s (shape (fst (Piece_init (Some s) high t)))
  ∧ find_near_lines_and_needed row_needs_one 3 = [(row, 0, [6], 1)]
  ∧ shape (fst (fst (generate_placeable_piece row_needs_one 0 150 [0; 4; 0]%nat)))
    = [[5]].
Proof.
  intros H. split; [apply Piece_init_shape_template; exact H|].
  split.
  { rewrite Piece_init_shape_template by exact H.
    apply random_piece_from_shape_spec. }
  split; [vm_compute; reflexivity|].
  split.
  { rewrite Piece_init_shape_template by exact H.
    apply (random_piece_from_shape_spec s high). }
  split; vm_compute; reflexivity.
Qed.

Lemma Piece_refills_zero_one_shapes_witness :
  template [[1; 1]; [0; 1]]
  ∧ shape (fst (Piece_init (Some [[1; 1]; [0; 1]]) neutral [4; 4; 4]%nat))
    = [[5; 5]; [0; 5]].
Proof.
  split; [reflexivity|].
  pose proof (Piece_refills_zero_one_shapes [[1; 1]; [0; 1]] neutral [4; 4; 4]%nat
                eq_refl) as (H & _).
  rewrite H. vm_compute. reflexivity.
Defined.

(** ** The strategic branch *)

Lemma near_row_spec (g : game) (m y : Z) (c : candidate) :
  c ∈ near_row g m y ↔
  near_complete g m row y
  ∧ c = (row, y, line_empties g row y, TARGET_SUM - line_sum g row y).
Proof.
  unfold near_row, near_complete, line_empties, line_sum.
  set (e := filter _ (range board_size)). set (sm := zsum _).
  destruct (Z.leb_spec 1 (len e)), (Z.leb_spec (len e) m); simpl;
    try (rewrite elem_of_nil; split; [tauto | intros [? _]; lia]).
  destruct (Z.leb_spec (1 * len e) (TARGET_SUM - sm)),
    (Z.leb_spec (TARGET_SUM - sm) (5 * len e)); simpl;
    try (rewrite elem_of_nil; split; [tauto | intros [? _]; lia]).
  rewrite list_elem_of_singleton. split; [intros ->; split; [lia | reflexivity] | tauto].
Qed.

Lemma near_col_spec (g : game) (m x : Z) (c : candidate) :
  c ∈ near_col g m x ↔
  near_complete g m col x
  ∧ c = (col, x, line_empties g col x, TARGET_SUM - line_sum g col x).
Proof.
  unfold near_col, near_complete, line_empties, line_sum.
  set (e := filter _ (range board_size)). set (sm := zsum _).
  destruct (Z.leb_spec 1 (len e)), (Z.leb_spec (len e) m); simpl;
    try (rewrite elem_of_nil; split; [tauto | intros [? _]; lia]).
  destruct (Z.leb_spec (1 * len e) (TARGET_SUM - sm)),
    (Z.leb_spec (TARGET_SUM - sm) (5 * len e)); simpl;
    try (rewrite elem_of_nil; split; [tauto | intros [? _]; lia]).
  rewrite list_elem_of_singleton. split; [intros ->; split; [lia | reflexivity] | tauto].
Qed.

Lemma find_near_lines_spec (g : game) (m : Z) (c : candidate) :
  c ∈ find_near_lines_and_needed g m ↔
  ∃ k i, 0 <= i < 7 ∧ near_complete g m k i
         ∧ c = (k, i, line_empties g k i, TARGET_SUM - line_sum g k i).
Proof.
  unfold find_near_lines_and_needed.
  rewrite elem_of_app, !list_elem_of_bind. split.
  - intros [(y & Hc & Hy) | (x & Hc & Hx)].
    + apply near_row_spec in Hc as [Hn ->]. apply elem_of_range in Hy.
      exists row, y. auto.
    + apply near_col_spec in Hc as [Hn ->]. apply elem_of_range in Hx.
      exists col, x. auto.
  - intros (k & i & Hi & Hn & ->). destruct k.
    + left. exists i. split; [apply near_row_spec; auto | apply elem_of_range; exact Hi].
    + right. exists i. split; [apply near_col_spec; auto | apply elem_of_range; exact Hi].
Qed.

Lemma first_some_none {A B} (f : A -> R (option B)) (l : list A) (t : list nat) :
  (∀ a t', f a t' = (None, t')) -> first_some f l t = (None, t).
Proof.
  intros H. induction l as [|a l IH]; simpl; [reflexivity|].
  unfold bind. rewrite H. exact IH.
Qed.

Lemma strategic_shape_col (g : game) (c : candidate) (sh : list (list Z)) (t : list nat) :
  is_col c -> strategic_shape g c sh t = (None, t).
Proof.
  destruct c as [[[k i] e] n]. unfold is_col. simpl. intros ->. reflexivity.
Qed.

Lemma strategic_cols_only (g : game) (cands : list candidate) (t : list nat) :
  Forall is_col cands -> strategic g cands t = (None, t).
Proof.
  intros H. unfold strategic. revert t.
  induction H as [|c cands Hc _ IH]; intros t; cbn [first_some]; [reflexivity|].
  unfold bind at 1.
  rewrite (first_some_none (strategic_shape g c) SHAPES t)
    by (intros sh t'; apply strategic_shape_col; exact Hc).
  apply IH.
Qed.

(** C6: the candidates are exactly the rows and columns with 1 to 3 empty
    cells whose needed total lies between the number of empty cells and five
    times that number. But a column candidate is not searched: for every
    shape the search of a "col" candidate yields nothing and uses no draw,
    so the strategic branch finds no piece when only columns are near
    completion. On the board whose column 3 needs exactly 1 at (3, 6), the
    only candidate is that column and the branch returns nothing, although
    the single cell of value 1 placed at (3, 6) completes the column with
    sum 25. *)
Theorem strategic_branch_skips_column_candidates :
  (∀ g c, c ∈ find_near_lines_and_needed g 3 ↔
     ∃ k i, 0 <= i < 7 ∧ near_complete g 3 k i
            ∧ c = (k, i, line_empties g k i, 25 - line_sum g k i))
  ∧ (∀ g i e n sh t, strategic_shape g (col, i, e, n) sh t = (None, t))
  ∧ (∀ g cands t, Forall is_col cands -> strategic g cands t = (None, t))
  ∧ find_near_lines_and_needed column_needs_one 3 = [(col, 3, [6], 1)]
  ∧ (∀ t, fst (strategic column_needs_one
                          (find_near_lines_and_needed column_needs_one 3) t) = None)
  ∧ can_place column_needs_one (mkPiece [[1]] 1 1 0) 3 6 = true
  ∧ col_qualifies (stamp column_needs_one (mkPiece [[1]] 1 1 0) 3 6) 3 = true.
Proof.
  split; [intros g c; apply find_near_lines_spec|].
  split; [intros g i e n sh t; apply strategic_shape_col; reflexivity|].
  split; [intros g cands t H; apply strategic_cols_only; exact H|].
  split; [vm_compute; reflexivity|].
  split.
  { intros t. rewrite strategic_cols_only; [reflexivity|].
    vm_compute. repeat constructor. }
  split; vm_compute; reflexivity.
Qed.

(** ** Legal origins *)

Lemma can_place_ext (g g' : game) (p : Piece) (x y : Z) :
  grid g = grid g' -> can_place g p x y = can_place g' p x y.
Proof. intros H. unfold can_place, cell_fits. rewrite H. reflexivity. Qed.

Lemma find_any_pos_sound (g : game) (p : Piece) :
  is_Some (find_any_pos g p) -> ∃ x y, can_place g p x y = true.
Proof.
  unfold find_any_pos. intros [xy H].
  destruct (list_find _ _) as [[i [x y]]|] eqn:E; [|discriminate].
  apply list_find_Some in E as (_ & Hc & _). eauto.
Qed.

Lemma any_move_possible_sound (g : game) :
  any_move_possible g = true ->
  ∃ p x y, p ∈ pieces g ∧ can_place g p x y = true.
Proof.
  unfold any_move_possible. intros H.
  apply existsb_exists in H as (p & Hin & Hp).
  apply bool_decide_eq_true in Hp.
  destruct (find_any_pos_sound g p Hp) as (x & y & Hc).
  exists p, x, y. split; [apply list_elem_of_In; exact Hin | exact Hc].
Qed.

Lemma has_cell_b_occupied (p : Piece) :
  has_cell_b p = true -> ∃ dx dy, occupied p dx dy.
Proof.
  unfold has_cell_b. intros H.
  apply existsb_exists in H as (dy & Hdy & H).
  apply existsb_exists in H as (dx & Hdx & H).
  apply list_elem_of_In, elem_of_range in Hdy, Hdx.
  exists dx, dy. split; [lia|]. split; [lia|].
  destruct (Z.eqb_spec (at2 (shape p) dy dx) 0); [discriminate | assumption].
Qed.

Lemma no_origin_b_sound (g : game) (p : Piece) :
  has_cell_b p = true -> no_origin_b g p = true ->
  ∀ x y, can_place g p x y = false.
Proof.
  intros Hc Hn x y. destruct (can_place g p x y) eqn:E; [|reflexivity].
  exfalso. destruct (has_cell_b_occupied p Hc) as (dx & dy & Hocc).
  pose proof (proj1 (can_place_spec g p x y) E dx dy Hocc) as (Hx & Hy & _).
  destruct Hocc as (Hdy & Hdx & _).
  unfold no_origin_b in Hn. rewrite forallb_forall in Hn.
  assert (Hyr : y ∈ range2 (- h p) board_size) by (apply elem_of_range2; lia).
  specialize (Hn y (proj1 (list_elem_of_In _ _) Hyr)).
  rewrite forallb_forall in Hn.
  assert (Hxr : x ∈ range2 (- w p) board_size) by (apply elem_of_range2; lia).
  specialize (Hn x (proj1 (list_elem_of_In _ _) Hxr)).
  rewrite E in Hn. discriminate.
Qed.

(** ** Game over *)

Lemma generate_keeps_board (g : game) (now : Z) (tries : nat) (t : list nat) :
  ∃ tm c, snd (fst (generate_placeable_piece g now tries t))
          = set_generator_state g tm c.
Proof.
  unfold generate_placeable_piece, bind.
  destruct (random_random t) as [r t0].
  match goal with |- context [let (_, _) := ?x in _] =>
    destruct x as [[q|] t1] end; [eexists _, _; reflexivity|].
  match goal with |- context [explore ?a ?b ?c ?d ?e ?f] =>
    destruct (explore a b c d e f) as [[[q|] c1] t2] end;
    [eexists _, _; reflexivity|].
  match goal with |- context [let (_, _) := ?x in _] =>
    destruct x as [[q|] t3] end; [eexists _, _; reflexivity|].
  destruct (Piece_init _ _ t3) as [q t4]. eexists _, _; reflexivity.
Qed.

Lemma stamp_cell_well_formed (p : Piece) (x y dy : Z) (g : game) (dx : Z) :
  well_formed g -> well_formed (stamp_cell p x y dy g dx).
Proof.
  intros (Hg & Hn & Hc). unfold stamp_cell.
  destruct (negb _); [|exact (conj Hg (conj Hn Hc))].
  split; [|split]; simpl; apply board_shape_set2; assumption.
Qed.

Lemma stamp_well_formed (g : game) (p : Piece) (x y : Z) :
  well_formed g -> well_formed (stamp g p x y).
Proof.
  unfold stamp. generalize (range (h p)). intros rows. revert g.
  induction rows as [|dy rows IH]; intros g Hw; simpl; [exact Hw|].
  apply IH. generalize (range (w p)). intros cols. revert g Hw.
  induction cols as [|dx cols IHc]; intros g Hw; simpl; [exact Hw|].
  apply IHc, stamp_cell_well_formed, Hw.
Qed.

(** place_piece ends with the move check, on the board as the writing
    loops left it. *)
Lemma place_piece_ends_with_move_check (g : game) (d : disk) (o : write_outcome)
    (now : Z) (idx : nat) (piece : Piece) (x y : Z) (t : list nat) :
  ∃ g6, fst (fst (place_piece g d o now idx piece x y t))
        = (if negb (any_move_possible g6) then set_game_over g6 true else g6)
        ∧ grid g6 = grid (stamp g piece x y)
        ∧ grid_nums g6 = grid_nums (stamp g piece x y)
        ∧ grid_colors g6 = grid_colors (stamp g piece x y).
Proof.
  unfold place_piece, bind, ret.
  destruct (generate_keeps_board (stamp g piece x y) now 150 t) as (tm & c & Hgen).
  destruct (generate_placeable_piece _ now 150 t) as [[np g2] t1].
  simpl in Hgen. subst g2.
  destruct (check_and_animate_result
              (set_pieces (set_generator_state (stamp g piece x y) tm c)
                          (<[idx := np]> (pieces (set_generator_state
                                                    (stamp g piece x y) tm c))))
              now t1) as (g4 & E4 & _ & Hg4 & Hn4 & Hc4 & _).
  destruct (check_and_animate _ now t1) as [[[cleared points] g4'] t2].
  simpl in E4. assert (Eg : g4' = g4) by (inversion E4; reflexivity).
  subst g4'. clear E4.
  simpl in Hg4, Hn4, Hc4.
  destruct (points >? 0); destruct (score _ >? best _); unfold save_best;
    try destruct (save_best_try _ d o) as [[u|e] d'];
    eexists; (split; [reflexivity|]); simpl; auto.
Qed.

Lemma can_place_cleared (g g' : game) (p : Piece) (x y : Z) :
  cleared_from g g' -> can_place g p x y = true -> can_place g' p x y = true.
Proof.
  intros Hc H. apply can_place_spec. intros dx dy Hocc.
  destruct (proj1 (can_place_spec g p x y) H dx dy Hocc) as (Hx & Hy & Hz).
  split; [exact Hx|]. split; [exact Hy|].
  eapply cleared_from_zero_stays; eauto.
Qed.

Lemma set_game_over_well_formed (g : game) (b : bool) :
  well_formed g -> well_formed (set_game_over g b).
Proof. intros H. exact H. Qed.

Lemma on_event_game_over (a : app) (e : env) (ev : event) :
  in_game_over a ->
  if exit_action ev then at_menu (on_event a e ev)
  else in_game_over (on_event a e ev).
Proof.
  intros [Hm (g & Hg & Ho)]. destruct ev as [|button mx my|k|dy|]; simpl.
  - split; [exact Hm | exists g; auto].
  - destruct (button =? 1); [|split; [exact Hm | exists g; auto]].
    rewrite Hm, Hg. unfold handle_click. rewrite Ho. simpl. split; reflexivity.
  - destruct k; simpl.
    + rewrite Hg, Hm. simpl. split; reflexivity.
    + rewrite Hg, Hm. simpl. split; [exact Hm | eexists; split; [reflexivity | exact Ho]].
    + split; [exact Hm | exists g; auto].
  - split; [exact Hm | exists g; auto].
  - split; [exact Hm | exists g; auto].
Qed.

Lemma on_frame_game_over (a : app) (e : env) :
  in_game_over a -> in_game_over (on_frame a e).
Proof.
  intros [Hm (g & Hg & Ho)]. unfold on_frame. rewrite Hm, Hg.
  split; [exact Hm|]. simpl. eexists. split; [reflexivity|].
  unfold update. rewrite Ho, andb_false_r. exact Ho.
Qed.

Lemma events_game_over (evs : list (env * event)) (a : app) :
  Forall (fun ee => exit_action (snd ee) = false) evs ->
  in_game_over a ->
  in_game_over (foldl (fun a' ee => on_event a' (fst ee) (snd ee)) a evs).
Proof.
  intros H. revert a. induction H as [|ee evs He _ IH]; intros a Ha; simpl.
  - exact Ha.
  - apply IH. pose proof (on_event_game_over a (fst ee) (snd ee) Ha) as H'.
    rewrite He in H'. exact H'.
Qed.

Lemma main_game_over (frames : list frame) (a : app) :
  no_exit frames -> in_game_over a -> in_game_over (main a frames).
Proof.
  intros H. revert a. induction H as [|f frames Hf _ IH]; intros a Ha; simpl.
  - exact Ha.
  - destruct (running a); [|exact Ha].
    apply IH. unfold loop_body.
    apply on_frame_game_over, events_game_over; assumption.
Qed.

(** C7: when, at the end of place_piece, none of the held pieces has a
    legal origin anywhere on the board, game_over is set; the same holds
    when the pieces have no legal origin on the board as a later
    update_animations leaves it. Once the session shows GAME OVER, a left
    click or Escape takes the program back to the menu, every other event
    and every frame update leaves it in GAME OVER, and so does any run of
    the main loop without such an event. *)
Theorem game_over_entered_and_kept :
  (∀ g d o now idx piece x y t,
     let g' := fst (fst (place_piece g d o now idx piece x y t)) in
     (∀ p, p ∈ pieces g' -> ∀ x' y', can_place g' p x' y' = false) ->
     game_over g' = true)
  ∧ (∀ g d o now idx piece x y t now',
     let g' := fst (fst (place_piece g d o now idx piece x y t)) in
     well_formed g ->
     (∀ p, p ∈ pieces g' -> ∀ x' y',
        can_place (update_animations g' now') p x' y' = false) ->
     game_over g' = true)
  ∧ (∀ a e ev, in_game_over a ->
       if exit_action ev then at_menu (on_event a e ev)
       else in_game_over (on_event a e ev))
  ∧ (∀ a e, in_game_over a -> in_game_over (on_frame a e))
  ∧ (∀ a frames, in_game_over a -> no_exit frames -> in_game_over (main a frames)).
Proof.
  assert (Hnow : ∀ g d o now idx piece x y t,
            let g' := fst (fst (place_piece g d o now idx piece x y t)) in
            (∀ p, p ∈ pieces g' -> ∀ x' y', can_place g' p x' y' = false) ->
            game_over g' = true).
  { intros g d o now idx piece x y t g' Hnone.
    destruct (place_piece_ends_with_move_check g d o now idx piece x y t)
      as (g6 & E & _).
    fold g' in E. destruct (any_move_possible g6) eqn:Hmove; simpl in E.
    - exfalso. destruct (any_move_possible_sound g6 Hmove) as (p & x' & y' & Hin & Hc).
      rewrite <- E in Hin, Hc. rewrite (Hnone p Hin x' y') in Hc. discriminate.
    - rewrite E. reflexivity. }
  split; [exact Hnow|].
  split.
  { intros g d o now idx piece x y t now' g' Hw Hnone.
    apply Hnow. fold g'. intros p Hin x' y'.
    destruct (can_place g' p x' y') eqn:Hc; [|reflexivity].
    assert (Hw' : well_formed g').
    { destruct (place_piece_ends_with_move_check g d o now idx piece x y t)
        as (g6 & E & Hg & Hn & Hcol).
      fold g' in E. rewrite E.
      assert (Hw6 : well_formed g6).
      { unfold well_formed. rewrite Hg, Hn, Hcol. apply stamp_well_formed, Hw. }
      destruct (negb _); [apply set_game_over_well_formed|]; exact Hw6. }
    destruct (update_animations_spec g' now' Hw') as [Hcl _].
    rewrite <- (Hnone p Hin x' y'). symmetry.
    eapply can_place_cleared; eauto. }
  split; [exact on_event_game_over|].
  split; [exact on_frame_game_over|].
  intros a frames Ha Hf. apply main_game_over; assumption.
Qed.

Lemma game_over_entered_and_kept_witness :
  let g' := fst (fst (place_piece nearly_full Missing WriteOk 0 0
                                  (mkPiece [[3]] 1 1 0) 0 0 [])) in
  let a := mkApp (mkMenu false true false false) (Some g') true Missing in
  game_over g' = true
  ∧ in_game_over (on_event a (mkEnv 0 [] WriteOk) (KEYDOWN K_p))
  ∧ in_game_over (on_frame a (mkEnv 0 [] WriteOk))
  ∧ in_game_over (main a [([(mkEnv 0 [] WriteOk, KEYDOWN K_p)], mkEnv 0 [] WriteOk)]).
Proof.
  intros g' a.
  destruct game_over_entered_and_kept as (Hplace & _ & Hev & Hfr & Hmain).
  assert (Hover : game_over g' = true).
  { apply (Hplace nearly_full Missing WriteOk 0 0%nat (mkPiece [[3]] 1 1 0) 0 0 []).
    intros p Hin.
    assert (Hall : forallb (fun q => has_cell_b q
                                     && no_origin_b
                                          (fst (fst (place_piece nearly_full Missing WriteOk
                                                       0 0 (mkPiece [[3]] 1 1 0) 0 0 []))) q)
                     (pieces (fst (fst (place_piece nearly_full Missing WriteOk 0 0
                                                    (mkPiece [[3]] 1 1 0) 0 0 []))))
                   = true) by (vm_compute; reflexivity).
    rewrite forallb_forall in Hall.
    specialize (Hall p (proj1 (list_elem_of_In _ _) Hin)).
    apply andb_true_iff in Hall as [Hc Hn].
    apply no_origin_b_sound; assumption. }
  assert (Ha : in_game_over a).
  { split; [reflexivity|]. exists g'. split; [reflexivity | exact Hover]. }
  split; [exact Hover|].
  split; [exact (Hev a (mkEnv 0 [] WriteOk) (KEYDOWN K_p) Ha)|].
  split; [exact (Hfr a (mkEnv 0 [] WriteOk) Ha)|].
  apply (Hmain a _ Ha). repeat constructor.
Defined.

(** ** The generator *)

Lemma first_some_Some {A B} (P : B -> Prop) (f : A -> R (option B)) (l : list A) :
  (∀ a t0 b t1, f a t0 = (Some b, t1) -> P b) ->
  ∀ t b t', first_some f l t = (Some b, t') -> P b.
Proof.
  intros Hf. induction l as [|a l IH]; intros t b t' H; simpl in H.
  - discriminate.
  - unfold bind in H. destruct (f a t) as [[b0|] t1] eqn:E.
    + unfold ret in H. inversion H; subst. eapply Hf; eauto.
    + eapply IH; eauto.
Qed.

Lemma fill_candidate_placeable (g : game) (sh : list (list Z)) (shape_h shape_w : Z)
    (top left : Z) (occ : list (Z * Z)) (ri : list nat) (parts : list Z)
    (t : list nat) (p : Piece) (t' : list nat) :
  fill_candidate g sh shape_h shape_w top left occ ri parts t = (Some p, t') ->
  placeable g p.
Proof.
  unfold fill_candidate. destruct (bias_range _) as [mn mx].
  unfold bind. destruct (mapR _ _ t) as [full t1].
  destruct (Piece_init (Some full) neutral t1) as [cand t2].
  destruct (can_place g cand left top) eqn:E; unfold ret; intros H; inversion H; subst.
  exists left, top. exact E.
Qed.

Lemma strategic_origin_placeable (g : game) (sh : list (list Z)) (shape_h shape_w : Z)
    (y : Z) (empties : list Z) (needed top left : Z)
    (t : list nat) (p : Piece) (t' : list nat) :
  strategic_origin g sh shape_h shape_w y empties needed top left t = (Some p, t') ->
  placeable g p.
Proof.
  unfold strategic_origin.
  destruct (scan_positions _ _ _ _ _ _ _ _) as [[|pos ps]|]; try discriminate.
  destruct (row_indices_of _ _ _) as [|i ri] eqn:Eri; [discriminate|].
  unfold bind.
  destruct (first_some _ (compositions needed _ 1 5) t) as [[q|] t1] eqn:E1.
  - unfold ret. intros H; inversion H; subst.
    eapply (first_some_Some (placeable g)); [|exact E1].
    intros a t0 b t2. apply fill_candidate_placeable.
  - apply (first_some_Some (placeable g)).
    intros try_sum t0 b t2.
    destruct (negb _); [discriminate|].
    apply (first_some_Some (placeable g)).
    intros a t3 b' t4. apply fill_candidate_placeable.
Qed.

Lemma strategic_placeable (g : game) (cands : list candidate)
    (t : list nat) (p : Piece) (t' : list nat) :
  strategic g cands t = (Some p, t') -> placeable g p.
Proof.
  unfold strategic. apply (first_some_Some (placeable g)).
  intros c t0 b t1. apply (first_some_Some (placeable g)).
  intros sh t2 b' t3. unfold strategic_shape.
  destruct c as [[[k i] e] n]. destruct k; [|discriminate].
  apply (first_some_Some (placeable g)).
  intros top t4 b'' t5. apply (first_some_Some (placeable g)).
  intros left t6 b3 t7. apply strategic_origin_placeable.
Qed.

Lemma explore_placeable (g : game) (b : bias) (free : Z) (tries : nat) :
  ∀ c t p c' t', explore g b free tries c t = (Some p, c', t') -> placeable g p.
Proof.
  induction tries as [|n IH]; intros c t p c' t' H; cbn [explore] in H.
  - discriminate.
  - unfold bind in H.
    repeat match type of H with
           | context [let (_, _) := ?x in _] =>
               match x with
               | explore _ _ _ _ _ _ => fail 1
               | _ => let E := fresh "E" in destruct x eqn:E
               end
           end.
    match type of H with
    | context [bool_decide (is_Some (find_any_pos g ?q))] =>
        destruct (bool_decide (is_Some (find_any_pos g q))) eqn:Hf
    end.
    + unfold ret in H. inversion H; subst.
      apply bool_decide_eq_true in Hf. apply find_any_pos_sound. exact Hf.
    + eapply IH; eauto.
Qed.

Lemma Piece_init_dims (s : option (list (list Z))) (b : bias) (t : list nat) :
  h (fst (Piece_init s b t)) = len (shape (fst (Piece_init s b t)))
  ∧ w (fst (Piece_init s b t)) = len (hd [] (shape (fst (Piece_init s b t)))).
Proof.
  unfold Piece_init, bind.
  match goal with |- context [let (_, _) := ?x in _] => destruct x as [sh t1] end.
  unfold choice, bind, ret. destruct (draw t1). split; reflexivity.
Qed.

(** Every piece the constructor builds from the last catalog template has
    h = 3 and w = 1 and a filled entry at row 1, column 1. *)
Lemma ragged_piece_built (b : bias) (t : list nat) :
  let q := fst (Piece_init (Some [[1]; [1; 1]; [1]]) b t) in
  h q = 3 ∧ w q = 1 ∧ filled q 1 1.
Proof.
  intros q.
  destruct (Piece_init_dims (Some [[1]; [1; 1]; [1]]) b t) as [Hh Hw].
  pose proof (Piece_init_shape_template [[1]; [1; 1]; [1]] b t eq_refl) as Hs.
  pose proof (random_piece_from_shape_spec [[1]; [1; 1]; [1]] b t) as Hf.
  rewrite <- Hs in Hf.
  destruct (bias_range_ordered b) as (_ & Hlo & Hhi).
  unfold q, filled. clear q.
  destruct (fst (Piece_init (Some [[1]; [1; 1]; [1]]) b t)) as [sh ph pw pc].
  simpl in *. unfold filled_from in Hf.
  apply Forall2_cons_inv_l in Hf as (r0 & k0 & H0 & Hf & ->).
  apply Forall2_cons_inv_l in Hf as (r1 & k1 & H1 & Hf & ->).
  apply Forall2_cons_inv_l in Hf as (r2 & k2 & H2 & Hf & ->).
  apply Forall2_nil_inv_l in Hf as ->.
  apply Forall2_cons_inv_l in H0 as (a & l0 & _ & H0 & ->).
  apply Forall2_nil_inv_l in H0 as ->.
  apply Forall2_cons_inv_l in H1 as (b1 & l1 & _ & H1 & ->).
  apply Forall2_cons_inv_l in H1 as (c1 & l1' & Hc & H1 & ->).
  apply Forall2_nil_inv_l in H1 as ->.
  apply Forall2_cons_inv_l in H2 as (d2 & l2 & _ & H2 & ->).
  apply Forall2_nil_inv_l in H2 as ->.
  simpl in Hc. split; [exact Hh|]. split; [exact Hw|].
  exists c1. split; [reflexivity | lia].
Qed.

(** C2: can_place(P, x, y) is true exactly when every non-zero entry
    inside the piece's h x w extent (h = len(shape), w = len(shape[0]))
    maps into [0,7) x [0,7) onto an empty board cell, and for a piece with
    a rectangular matrix these are all its filled entries, so the claim
    holds there. The generator also deals the piece built from the last
    catalog template, [[1],[1,1],[1]]: its w is 1, the filled entry
    shape[1][1] is never looked at, and can_place accepts the origin (6, 0)
    on the empty board although that entry maps to column 7, off the
    board. The function only reads the game object. *)
Theorem can_place_misses_entry_of_ragged_piece :
  let p := fst (fst (generate_placeable_piece blank_game 0 150 deal_ragged)) in
  (shape p = [[3]; [3; 3]; [3]] ∧ h p = 3 ∧ w p = 1
   ∧ can_place blank_game p 6 0 = true
   ∧ filled p 1 1 ∧ ¬ 6 + 1 < 7
   ∧ ¬ all_filled_fit blank_game p 6 0)
  ∧ (∀ b t, let q := fst (Piece_init (Some [[1]; [1; 1]; [1]]) b t) in
       can_place blank_game q 6 0 = true ∧ ¬ all_filled_fit blank_game q 6 0)
  ∧ (∀ g q x y, rectangular_piece q ->
       can_place g q x y = true ↔ all_filled_fit g q x y)
  ∧ (∀ g q x y, can_place g q x y = true ↔
       ∀ dx dy, occupied q dx dy ->
         0 <= x + dx < 7 ∧ 0 <= y + dy < 7 ∧ at2 (grid g) (y + dy) (x + dx) = 0).
Proof.
  assert (Hno : ∀ q, filled q 1 1 -> ¬ all_filled_fit blank_game q 6 0).
  { intros q Hq Hall. destruct (Hall 1 1 Hq) as [Hx _]. lia. }
  intros p. split; [|split; [|split]].
  - assert (Hp : p = mkPiece [[3]; [3; 3]; [3]] 3 1 0) by (vm_compute; reflexivity).
    assert (Hf : filled p 1 1).
    { rewrite Hp. exists 3. split; [reflexivity | discriminate]. }
    split; [rewrite Hp; reflexivity|]. split; [rewrite Hp; reflexivity|].
    split; [rewrite Hp; reflexivity|]. split; [rewrite Hp; reflexivity|].
    split; [exact Hf|]. split; [lia | apply Hno, Hf].
  - intros b t q. destruct (ragged_piece_built b t) as (Hh & Hw & Hf).
    fold q in Hh, Hw, Hf. split; [|apply Hno, Hf].
    apply can_place_spec. intros dx dy (Hdy & Hdx & _).
    rewrite Hh in Hdy. rewrite Hw in Hdx.
    assert (dx = 0) by lia. subst dx.
    assert (Hy : dy = 0 ∨ dy = 1 ∨ dy = 2) by lia.
    destruct Hy as [-> | [-> | ->]]; repeat split; try reflexivity; unfold board_size; lia.
  - intros g q x y. apply can_place_filled.
  - intros g q x y. apply can_place_spec.
Qed.

Lemma Piece_init_domino (b : bias) (t : list nat) :
  last_resort (fst (Piece_init (Some [[1; 1]]) b t)).
Proof.
  pose proof (Piece_init_shape_template [[1; 1]] b t eq_refl) as Hs.
  pose proof (random_piece_from_shape_spec [[1; 1]] b t) as Hf.
  rewrite <- Hs in Hf.
  pose proof (Piece_init_dims (Some [[1; 1]]) b t) as Hd.
  destruct Hd as [Hh Hw].
  destruct (bias_range_ordered b) as (_ & Hlo & Hhi).
  unfold filled_from in Hf.
  inversion Hf as [|r1 f1 rs fs Hrow Hrest E1 E2]; subst.
  inversion Hrest; subst.
  inversion Hrow as [|c1 v1 cs vs Hv1 Hrow' E3 E4]; subst.
  inversion Hrow' as [|c2 v2 cs' vs' Hv2 Hrow'' E5 E6]; subst.
  inversion Hrow''; subst.
  simpl in Hv1, Hv2.
  exists v1, v2. rewrite Hh, Hw, <- E2. simpl.
  repeat split; try reflexivity; lia.
Qed.

Lemma generate_placeable_or_last_resort (g : game) (now : Z) (tries : nat)
    (t : list nat) :
  let p := fst (fst (generate_placeable_piece g now tries t)) in
  placeable g p ∨ last_resort p.
Proof.
  intros p. subst p. unfold generate_placeable_piece, bind.
  destruct (random_random t) as [r t0].
  match goal with |- context [let (_, _) := ?x in _] =>
    destruct x as [[q|] t1] eqn:Es end.
  { left. simpl. destruct (r <? 300); [|discriminate].
    unfold bind in Es. destruct (shuffle _ t0) as [cands t0'].
    eapply strategic_placeable; eauto. }
  match goal with |- context [explore ?a ?b ?c ?d ?e ?f] =>
    destruct (explore a b c d e f) as [[[q|] c1] t2] eqn:Ee end.
  { left. simpl. eapply explore_placeable; eauto. }
  match goal with |- context [let (_, _) := ?x in _] =>
    destruct x as [[q|] t3] eqn:Ef end.
  { left. simpl. destruct shapes_with_variety as [|s0 ss]; [discriminate|].
    unfold bind in Ef. destruct (choice _ _ t2) as [sh t2'].
    destruct (Piece_init (Some sh) _ t2') as [q' t2''].
    destruct (bool_decide (is_Some (find_any_pos g q'))) eqn:Hf; [|discriminate].
    unfold ret in Ef. inversion Ef; subst.
    apply bool_decide_eq_true in Hf. apply find_any_pos_sound. exact Hf. }
  right.
  pose proof (Piece_init_domino (choose_bias_from_board g) t3) as Hd.
  destruct (Piece_init _ _ t3) as [q t4]. exact Hd.
Qed.

Lemma last_resort_placeable (g : game) (p : Piece) :
  domino_fits g -> last_resort p -> placeable g p.
Proof.
  intros (x & y & Hx & Hx' & Hy & E0 & E1) (a & b & Hs & Hh & Hw & Ha & Hb).
  exists x, y. apply can_place_spec. intros dx dy (Hdy & Hdx & _).
  rewrite Hh in Hdy. rewrite Hw in Hdx.
  assert (dy = 0) by lia. subst dy.
  assert (dx = 0 ∨ dx = 1) as [-> | ->] by lia.
  - rewrite !Z.add_0_r. unfold board_size, GRID_SIZE. repeat split; (lia || assumption).
  - rewrite Z.add_0_r. unfold board_size, GRID_SIZE. repeat split; (lia || assumption).
Qed.

(** C1, amended: the piece returned by generate_placeable_piece has a legal
    origin on the board, or it is the last-resort horizontal domino, which
    is returned unchecked. So the piece is placeable whenever two
    horizontally adjacent cells of the board are empty. *)
Theorem generated_piece_placeable_unless_last_resort (g : game) (now : Z)
    (tries : nat) (t : list nat) :
  let p := fst (fst (generate_placeable_piece g now tries t)) in
  ((∃ x y, can_place g p x y = true) ∨ last_resort p)
  ∧ (domino_fits g -> ∃ x y, can_place g p x y = true).
Proof.
  intros p. pose proof (generate_placeable_or_last_resort g now tries t) as H.
  fold p in H. split; [exact H|].
  intros Hd. destruct H as [H | H]; [exact H|].
  apply last_resort_placeable; assumption.
Qed.

Lemma generated_piece_placeable_unless_last_resort_witness :
  ∃ x y, can_place blank_game
           (fst (fst (generate_placeable_piece blank_game 0 150 [7; 1]%nat))) x y = true.
Proof.
  apply (generated_piece_placeable_unless_last_resort blank_game 0 150 [7; 1]%nat).
  exists 0, 0. vm_compute. repeat split; discriminate.
Defined.

(** ** Reachable sessions *)

(** On the checkerboard reached by 24 placements of single cells, where 25
    cells are free but no two free cells are adjacent, the generator can
    return the last-resort domino [[2, 2]], which has no legal origin. *)
Lemma generator_can_return_unplaceable_piece :
  reachable checker_game
  ∧ free_cells_of checker_game = 25
  ∧ shape (fst (fst (generate_placeable_piece checker_game 0 150 stubborn_draws)))
    = [[2; 2]]
  ∧ ¬ ∃ x y, can_place checker_game
               (fst (fst (generate_placeable_piece checker_game 0 150 stubborn_draws)))
               x y = true.
Proof.
  split.
  { exists Missing, checker_frames. vm_compute. reflexivity. }
  split; [vm_compute; reflexivity|].
  split; [vm_compute; reflexivity|].
  intros (x & y & H).
  rewrite no_origin_b_sound in H; [discriminate | |]; vm_compute; reflexivity.
Qed.

(** * Further properties of the program *)

(** ** The compositions generator *)

Lemma zsum_cons (a : Z) (l : list Z) : zsum (a :: l) = a + zsum l.
Proof. reflexivity. Qed.

Lemma compositions_SS (total : Z) (k : nat) (mn mx : Z) :
  compositions total (S (S k)) mn mx =
  (v ← range2 mn (mx + 1);
   rest ← compositions (total - v) (S k) mn mx;
   [v :: rest]).
Proof. reflexivity. Qed.

Lemma compositions_spec (k : nat) (total mn mx : Z) (parts : list Z) :
  parts ∈ compositions total k mn mx ↔
  (1 <= k)%nat ∧ length parts = k
  ∧ Forall (fun v => mn <= v <= mx) parts ∧ zsum parts = total.
Proof.
  revert total parts. induction k as [|k IH]; intros total parts.
  { simpl. rewrite elem_of_nil. split; [tauto | lia]. }
  destruct k as [|k].
  - simpl. destruct (Z.leb_spec mn total), (Z.leb_spec total mx); simpl;
      rewrite ?list_elem_of_singleton, ?elem_of_nil.
    + split.
      * intros ->. repeat split; [lia | repeat constructor; lia | unfold zsum; simpl; lia].
      * intros (_ & Hl & Hf & Hs).
        destruct parts as [|a [|b parts]]; try discriminate.
        unfold zsum in Hs. simpl in Hs. f_equal. lia.
    + split; [tauto|]. intros (_ & Hl & Hf & Hs).
      destruct parts as [|a [|b parts]]; try discriminate.
      inversion Hf; subst. unfold zsum in *. simpl in *. lia.
    + split; [tauto|]. intros (_ & Hl & Hf & Hs).
      destruct parts as [|a [|b parts]]; try discriminate.
      inversion Hf; subst. unfold zsum in *. simpl in *. lia.
    + split; [tauto|]. intros (_ & Hl & Hf & Hs).
      destruct parts as [|a [|b parts]]; try discriminate.
      inversion Hf; subst. unfold zsum in *. simpl in *. lia.
  - rewrite compositions_SS, list_elem_of_bind. split.
    + intros (v & Hin & Hv). apply list_elem_of_bind in Hin as (rest & Hp & Hrest).
      apply list_elem_of_singleton in Hp. subst parts.
      apply IH in Hrest as (_ & Hl & Hf & Hs). apply elem_of_range2 in Hv.
      repeat split; [lia | simpl; lia | constructor; [lia | exact Hf] |].
      rewrite zsum_cons. lia.
    + intros (_ & Hl & Hf & Hs). destruct parts as [|v rest]; [discriminate|].
      inversion Hf as [|? ? Hv Hrest]; subst. rewrite zsum_cons.
      exists v. split; [|apply elem_of_range2; lia].
      apply list_elem_of_bind. exists rest. split; [apply list_elem_of_singleton; reflexivity|].
      apply IH. repeat split; [lia | simpl in Hl; lia | exact Hrest | lia].
Qed.

Lemma compositions_feasible (k : nat) (total mn mx : Z) :
  (1 <= k)%nat -> mn <= mx ->
  Z.of_nat k * mn <= total <= Z.of_nat k * mx ->
  ∃ parts, parts ∈ compositions total k mn mx.
Proof.
  intros Hk Hm. revert total. induction k as [|k IH]; intros total Ht; [lia|].
  destruct k as [|k].
  - exists [total]. apply compositions_spec.
    repeat split; [lia | repeat constructor; lia | unfold zsum; simpl; lia].
  - set (v := Z.max mn (total - Z.of_nat (S k) * mx)).
    assert (Hmono : Z.of_nat (S k) * mn <= Z.of_nat (S k) * mx)
      by (apply Z.mul_le_mono_nonneg_l; lia).
    assert (Hv : mn <= v <= mx ∧
                 Z.of_nat (S k) * mn <= total - v <= Z.of_nat (S k) * mx).
    { unfold v. rewrite (Nat2Z.inj_succ (S k)) in Ht. lia. }
    destruct (IH ltac:(lia) (total - v)) as (rest & Hrest); [tauto|].
    exists (v :: rest). apply compositions_spec in Hrest as (_ & Hl & Hf & Hs).
    apply compositions_spec.
    repeat split; [lia | simpl; lia | constructor; [tauto | exact Hf] |].
    rewrite zsum_cons. lia.
Qed.

Lemma zsum_bounds (mn mx : Z) (parts : list Z) :
  Forall (fun v => mn <= v <= mx) parts ->
  len parts * mn <= zsum parts <= len parts * mx.
Proof.
  unfold len. induction 1 as [|v parts Hv _ IH]; [unfold zsum; simpl; lia|].
  rewrite zsum_cons. simpl length. lia.
Qed.

Lemma compositions_NoDup (k : nat) (total mn mx : Z) :
  NoDup (compositions total k mn mx).
Proof.
  revert total. induction k as [|k IH]; intros total; [constructor|].
  destruct k as [|k].
  - simpl. destruct (_ && _); [apply NoDup_singleton | constructor].
  - rewrite compositions_SS. apply NoDup_bind.
    + intros v1 v2 parts _ _ H1 H2.
      apply list_elem_of_bind in H1 as (r1 & E1 & _).
      apply list_elem_of_bind in H2 as (r2 & E2 & _).
      apply list_elem_of_singleton in E1, E2. congruence.
    + intros v _. apply NoDup_bind.
      * intros r1 r2 parts _ _ E1 E2.
        apply list_elem_of_singleton in E1, E2. congruence.
      * intros r _. apply NoDup_singleton.
      * apply IH.
    + apply NoDup_seqZ.
Qed.

(** X1: compositions(total, k, mn, mx) with k >= 1 yields exactly the
    tuples of k values of [mn, mx] that sum to total, each once; it yields
    at least one tuple exactly when k * mn <= total <= k * mx, which is
    the test find_near_lines_and_needed applies to a line. *)
Theorem compositions_exact (k : nat) (total mn mx : Z) :
  (1 <= k)%nat -> mn <= mx ->
  (∀ parts, parts ∈ compositions total k mn mx ↔
     length parts = k ∧ Forall (fun v => mn <= v <= mx) parts ∧ zsum parts = total)
  ∧ NoDup (compositions total k mn mx)
  ∧ (compositions total k mn mx ≠ [] ↔
     Z.of_nat k * mn <= total <= Z.of_nat k * mx).
Proof.
  intros Hk Hm. split; [|split].
  - intros parts. rewrite compositions_spec. tauto.
  - apply compositions_NoDup.
  - split.
    + intros Hne. destruct (compositions total k mn mx) as [|parts l] eqn:E;
        [contradiction|].
      assert (Hin : parts ∈ compositions total k mn mx)
        by (rewrite E; apply list_elem_of_here).
      apply compositions_spec in Hin as (_ & Hl & Hf & Hs).
      pose proof (zsum_bounds mn mx parts Hf) as Hb. unfold len in Hb.
      rewrite Hl, Hs in Hb. exact Hb.
    + intros Ht. destruct (compositions_feasible k total mn mx Hk Hm Ht) as (parts & Hin).
      intros E. rewrite E in Hin. inversion Hin.
Qed.

Lemma compositions_exact_witness :
  [2; 3] ∈ compositions 5 2 1 5 ∧ compositions 11 2 1 5 = [].
Proof.
  destruct (compositions_exact 2 5 1 5 ltac:(lia) ltac:(lia)) as (Hm & _ & _).
  split; [apply Hm; repeat split; repeat constructor; lia|].
  destruct (compositions_exact 2 11 1 5 ltac:(lia) ltac:(lia)) as (_ & _ & Hne).
  destruct (compositions 11 2 1 5) as [|a l] eqn:E; [reflexivity|].
  exfalso. assert (H : a :: l ≠ []) by discriminate. apply Hne in H. lia.
Defined.

(** ** The writing loops of place_piece *)

Lemma blank_game_well_formed : well_formed blank_game.
Proof. repeat split; repeat constructor. Qed.

Lemma cell_kept_refl (g : game) (r c : Z) : cell_kept g g r c.
Proof. repeat split. Qed.

Lemma cell_kept_trans (g1 g2 g3 : game) (r c : Z) :
  cell_kept g1 g2 r c -> cell_kept g2 g3 r c -> cell_kept g1 g3 r c.
Proof. intros (A1 & A2 & A3) (B1 & B2 & B3). repeat split; congruence. Qed.

Lemma foldl_nested {S} (f : Z -> S -> Z -> S) (rows cols : list Z) (s : S) :
  foldl (fun s' dy => foldl (f dy) s' cols) s rows
  = foldl (fun s' dc => f (fst dc) s' (snd dc)) s
          (dy ← rows; dx ← cols; [(dy, dx)]).
Proof.
  revert s. induction rows as [|a rows IH]; intros s; csimpl; [reflexivity|].
  rewrite foldl_app, <- IH. f_equal.
  generalize s. clear. induction cols as [|b cols IHc]; intros s; csimpl;
    [reflexivity|]. apply IHc.
Qed.

Lemma elem_of_window (hh ww dy dx : Z) :
  (dy, dx) ∈ (a ← range hh; b ← range ww; [(a, b)]) ↔ 0 <= dy < hh ∧ 0 <= dx < ww.
Proof.
  rewrite list_elem_of_bind. split.
  - intros (a & Hin & Ha). apply list_elem_of_bind in Hin as (b & Hp & Hb).
    apply list_elem_of_singleton in Hp. inversion Hp; subst.
    apply elem_of_range in Ha, Hb. auto.
  - intros [Hy Hx]. exists dy. split; [|apply elem_of_range; exact Hy].
    apply list_elem_of_bind. exists dx.
    split; [apply list_elem_of_singleton; reflexivity | apply elem_of_range; exact Hx].
Qed.

Lemma stamp_cell_spec (p : Piece) (x y dy dx : Z) (g : game) :
  well_formed g ->
  (at2 (shape p) dy dx ≠ 0 -> 0 <= y + dy < 7 ∧ 0 <= x + dx < 7) ->
  well_formed (stamp_cell p x y dy g dx)
  ∧ ∀ r c,
      if decide ((r - y, c - x) = (dy, dx) ∧ at2 (shape p) dy dx ≠ 0)
      then cell_written (stamp_cell p x y dy g dx) p x y r c
      else cell_kept g (stamp_cell p x y dy g dx) r c.
Proof.
  intros Hw Hin. split; [apply stamp_cell_well_formed, Hw|].
  destruct Hw as (Hg & Hn & Hc). intros r c. unfold stamp_cell.
  destruct (Z.eqb_spec (at2 (shape p) dy dx) 0) as [E|E]; cbn [negb].
  { case_decide as Hd; [destruct Hd; contradiction | apply cell_kept_refl]. }
  specialize (Hin E).
  case_decide as Hne; [destruct Hne as [Heq _]|].
  - inversion Heq; subst dy dx.
    replace (y + (r - y)) with r in * by lia.
    replace (x + (c - x)) with c in * by lia.
    repeat split; simpl.
    + rewrite at2_get2, get2_set2_eq; [reflexivity | apply get2_in_range; assumption].
    + rewrite at2_get2, get2_set2_eq; [reflexivity | apply get2_in_range; assumption].
    + unfold color_at. rewrite get2_set2_eq; [reflexivity | apply get2_in_range; assumption].
  - assert (Hrc : (y + dy, x + dx) ≠ (r, c)).
    { intros Heq. inversion Heq; subst r c. apply Hne. split; [f_equal; lia | exact E]. }
    repeat split; simpl.
    + rewrite !at2_get2, get2_set2_ne by exact Hrc. reflexivity.
    + rewrite !at2_get2, get2_set2_ne by exact Hrc. reflexivity.
    + unfold color_at. rewrite get2_set2_ne by exact Hrc. reflexivity.
Qed.

Lemma stamp_cells_spec (p : Piece) (x y : Z) (L : list (Z * Z)) (g : game) :
  well_formed g ->
  (∀ dy dx, (dy, dx) ∈ L -> at2 (shape p) dy dx ≠ 0 ->
            0 <= y + dy < 7 ∧ 0 <= x + dx < 7) ->
  let g' := foldl (fun s dc => stamp_cell p x y (fst dc) s (snd dc)) g L in
  well_formed g'
  ∧ ∀ r c,
      if decide ((r - y, c - x) ∈ L ∧ at2 (shape p) (r - y) (c - x) ≠ 0)
      then cell_written g' p x y r c
      else cell_kept g g' r c.
Proof.
  revert g. induction L as [|[dy dx] L IH]; intros g Hw Hin; cbn [foldl fst snd].
  - split; [exact Hw|]. intros r c.
    case_decide as Hd; [destruct Hd as [H _]; inversion H | apply cell_kept_refl].
  - destruct (stamp_cell_spec p x y dy dx g Hw) as [Hw1 H1].
    { apply Hin. apply list_elem_of_here. }
    destruct (IH (stamp_cell p x y dy g dx) Hw1) as [Hw' H'].
    { intros dy' dx' Hi. apply Hin. apply list_elem_of_further, Hi. }
    split; [exact Hw'|]. intros r c.
    specialize (H1 r c). specialize (H' r c).
    destruct (decide ((r - y, c - x) ∈ L ∧ at2 (shape p) (r - y) (c - x) ≠ 0))
      as [[HL Hne]|HnL].
    + rewrite decide_True by (split; [apply list_elem_of_further, HL | exact Hne]).
      exact H'.
    + destruct (decide ((r - y, c - x) = (dy, dx) ∧ at2 (shape p) dy dx ≠ 0))
        as [[Heq Hne]|Hneq].
      * rewrite decide_True.
        2:{ injection Heq as E1 E2. rewrite E1, E2.
            split; [apply list_elem_of_here | exact Hne]. }
        destruct H1 as (A1 & A2 & A3). destruct H' as (B1 & B2 & B3).
        repeat split; congruence.
      * rewrite decide_False.
        2:{ intros [Hi Hne]. apply elem_of_cons in Hi as [Heq | Hi].
            - apply Hneq. split; [exact Heq|].
              injection Heq as E1 E2. rewrite <- E1, <- E2. exact Hne.
            - apply HnL. auto. }
        eapply cell_kept_trans; eauto.
Qed.

Lemma stamp_spec (g : game) (p : Piece) (x y : Z) :
  well_formed g -> can_place g p x y = true ->
  well_formed (stamp g p x y)
  ∧ ∀ r c,
      (occupied p (c - x) (r - y) ->
       at2 (grid g) r c = 0 ∧ cell_written (stamp g p x y) p x y r c)
      ∧ (¬ occupied p (c - x) (r - y) -> cell_kept g (stamp g p x y) r c).
Proof.
  intros Hw Hc. unfold stamp. rewrite foldl_nested.
  pose proof (proj1 (can_place_spec g p x y) Hc) as Hfit.
  destruct (stamp_cells_spec p x y (a ← range (h p); b ← range (w p); [(a, b)]) g Hw)
    as [Hw' H].
  { intros dy dx Hi Hne. apply elem_of_window in Hi as [Hy Hx].
    destruct (Hfit dx dy (conj Hy (conj Hx Hne))) as (A & B & _).
    unfold board_size, GRID_SIZE in *. lia. }
  split; [exact Hw'|]. intros r c. specialize (H r c).
  split.
  - intros Hocc. destruct (Hfit _ _ Hocc) as (_ & _ & Hz).
    replace (y + (r - y)) with r in Hz by lia.
    replace (x + (c - x)) with c in Hz by lia.
    split; [exact Hz|].
    destruct Hocc as (Hy & Hx & Hne).
    rewrite decide_True in H; [exact H|].
    split; [apply elem_of_window; auto | exact Hne].
  - intros Hno. rewrite decide_False in H; [exact H|].
    intros [Hi Hne]. apply elem_of_window in Hi as [Hy Hx].
    apply Hno. repeat split; (lia || assumption).
Qed.

Lemma cell_written_ext (g g' : game) (p : Piece) (x y r c : Z) :
  grid g = grid g' -> grid_nums g = grid_nums g' -> grid_colors g = grid_colors g' ->
  cell_written g p x y r c -> cell_written g' p x y r c.
Proof. unfold cell_written. intros <- <- <-. tauto. Qed.

Lemma cell_kept_ext (g0 g g' : game) (r c : Z) :
  grid g = grid g' -> grid_nums g = grid_nums g' -> grid_colors g = grid_colors g' ->
  cell_kept g0 g r c -> cell_kept g0 g' r c.
Proof. unfold cell_kept. intros <- <- <-. tauto. Qed.

Lemma place_piece_board (g : game) (d : disk) (o : write_outcome)
    (now : Z) (idx : nat) (piece : Piece) (x y : Z) (t : list nat) :
  let g' := fst (fst (place_piece g d o now idx piece x y t)) in
  grid (stamp g piece x y) = grid g'
  ∧ grid_nums (stamp g piece x y) = grid_nums g'
  ∧ grid_colors (stamp g piece x y) = grid_colors g'.
Proof.
  intros g'.
  destruct (place_piece_ends_with_move_check g d o now idx piece x y t)
    as (g6 & E & Hg & Hn & Hc).
  fold g' in E. rewrite E.
  destruct (negb _); simpl; auto.
Qed.

(** X2: on a 7x7 board, a placement into a held slot of a piece with a
    rectangular matrix that passed can_place writes exactly the filled
    entries of the piece: each of their cells was empty and now is
    occupied with the piece's value and colour, and every other cell of
    the board is as it was, also after the generator and the clearing
    evaluation that place_piece runs. *)
Theorem place_piece_writes_exactly_the_piece (g : game) (d : disk)
    (o : write_outcome) (now : Z) (idx : nat) (piece : Piece) (x y : Z)
    (t : list nat) :
  well_formed g -> held_slot g idx -> rectangular_piece piece ->
  can_place g piece x y = true ->
  let g' := fst (fst (place_piece g d o now idx piece x y t)) in
  ∀ r c,
    (filled piece (c - x) (r - y) ->
     at2 (grid g) r c = 0 ∧ cell_written g' piece x y r c)
    ∧ (¬ filled piece (c - x) (r - y) -> cell_kept g g' r c).
Proof.
  intros Hw _ Hrect Hc g' r c.
  destruct (place_piece_board g d o now idx piece x y t) as (Hg & Hn & Hcol).
  fold g' in Hg, Hn, Hcol.
  destruct (stamp_spec g piece x y Hw Hc) as [_ H]. specialize (H r c).
  pose proof (occupied_rectangular piece (c - x) (r - y) Hrect) as Hocc.
  unfold filled. split.
  - intros Hf. destruct (proj1 H (proj2 Hocc Hf)) as [Hz Hwr].
    split; [exact Hz | eapply cell_written_ext; eauto].
  - intros Hno. eapply cell_kept_ext; eauto. apply (proj2 H).
    intros Ho. apply Hno, Hocc, Ho.
Qed.

Lemma place_piece_writes_exactly_the_piece_witness :
  let p := mkPiece [[2; 0]; [4; 5]] 2 2 3 in
  let g := set_pieces blank_game [p; p; p] in
  let g' := fst (fst (place_piece g Missing WriteOk 0 0 p 5 5 [])) in
  cell_written g' p 5 5 6 6 ∧ cell_kept g g' 5 6.
Proof.
  intros p g g'.
  assert (Hr : rectangular_piece p) by (split; [reflexivity | repeat constructor]).
  assert (Hh : held_slot g 0) by (unfold held_slot; simpl; lia).
  pose proof (place_piece_writes_exactly_the_piece g Missing WriteOk 0 0%nat
                p 5 5 [] blank_game_well_formed Hh Hr eq_refl) as H.
  split.
  - apply (H 6 6). exists 5. split; [reflexivity | discriminate].
  - apply (H 5 6). intros (v & Hv & Hne). vm_compute in Hv.
    inversion Hv; subst. apply Hne. reflexivity.
Defined.

(** ** The search for a legal origin *)

Lemma existsb_range (f : Z -> bool) (n : Z) :
  existsb f (range n) = true -> ∃ i, 0 <= i < n ∧ f i = true.
Proof.
  intros H. apply existsb_exists in H as (i & Hi & Hf).
  apply list_elem_of_In, elem_of_range in Hi. eauto.
Qed.

Lemma SHAPES_tight (sh : list (list Z)) : sh ∈ SHAPES -> tight_template sh = true.
Proof.
  intros H.
  assert (Hall : forallb tight_template SHAPES = true) by (vm_compute; reflexivity).
  rewrite forallb_forall in Hall. apply Hall, list_elem_of_In, H.
Qed.

Lemma catalog_piece_tight (p : Piece) :
  catalog_piece p ->
  (∃ dx, occupied p dx 0) ∧ (∃ dx, occupied p dx (h p - 1))
  ∧ (∃ dy, occupied p 0 dy) ∧ (∃ dy, occupied p (w p - 1) dy).
Proof.
  intros (Hh & Hw & sh & Hin & Hl & Hlw & Hf).
  pose proof (SHAPES_tight sh Hin) as Ht. unfold tight_template in Ht.
  apply andb_true_iff in Ht as [Ht H4]. apply andb_true_iff in Ht as [Ht H3].
  apply andb_true_iff in Ht as [H1 H2].
  apply existsb_range in H1 as (dx1 & Hdx1 & E1).
  apply existsb_range in H2 as (dx2 & Hdx2 & E2).
  apply existsb_range in H3 as (dy3 & Hdy3 & E3).
  apply existsb_range in H4 as (dy4 & Hdy4 & E4).
  apply Z.eqb_eq in E1, E2, E3, E4.
  unfold occupied. rewrite Hh, Hw, Hl, Hlw.
  assert (Hcell : ∀ dy dx, 0 <= dy < len sh -> 0 <= dx < len (hd [] sh) ->
                    at2 sh dy dx = 1 -> at2 (shape p) dy dx ≠ 0).
  { intros dy dx Hy Hx E. destruct (Hf dy dx Hy Hx) as [Hv _]. specialize (Hv E). lia. }
  split; [|split; [|split]].
  - exists dx1. repeat split; try lia. apply Hcell; (lia || assumption).
  - exists dx2. repeat split; try lia. apply Hcell; (lia || assumption).
  - exists dy3. repeat split; try lia. apply Hcell; (lia || assumption).
  - exists dy4. repeat split; try lia. apply Hcell; (lia || assumption).
Qed.

Lemma can_place_catalog_range (g : game) (p : Piece) (x y : Z) :
  catalog_piece p -> can_place g p x y = true ->
  0 <= x <= 7 - w p ∧ 0 <= y <= 7 - h p.
Proof.
  intros Hc H.
  destruct (catalog_piece_tight p Hc) as ((dx1 & H1) & (dx2 & H2) & (dy3 & H3) & (dy4 & H4)).
  pose proof (proj1 (can_place_spec g p x y) H) as Hfit.
  unfold board_size, GRID_SIZE in Hfit.
  pose proof (Hfit _ _ H1). pose proof (Hfit _ _ H2).
  pose proof (Hfit _ _ H3). pose proof (Hfit _ _ H4). lia.
Qed.

Lemma elem_of_origins (hh ww x y : Z) :
  (x, y) ∈ (b ← range hh; a ← range ww; [(a, b)]) ↔ 0 <= x < ww ∧ 0 <= y < hh.
Proof.
  rewrite list_elem_of_bind. split.
  - intros (b & Hin & Hb). apply list_elem_of_bind in Hin as (a & Hp & Ha).
    apply list_elem_of_singleton in Hp. inversion Hp; subst.
    apply elem_of_range in Ha, Hb. auto.
  - intros [Hx Hy]. exists y. split; [|apply elem_of_range; exact Hy].
    apply list_elem_of_bind. exists x.
    split; [apply list_elem_of_singleton; reflexivity | apply elem_of_range; exact Hx].
Qed.

Lemma find_any_pos_None (g : game) (p : Piece) :
  find_any_pos g p = None ↔
  ∀ x y, 0 <= x <= 7 - w p -> 0 <= y <= 7 - h p -> can_place g p x y = false.
Proof.
  unfold find_any_pos.
  destruct (list_find _ _) as [[i [x y]]|] eqn:E; simpl.
  - split; [discriminate|]. intros H.
    apply list_find_Some in E as (Hl & Hc & _).
    apply list_elem_of_lookup_2, elem_of_origins in Hl.
    unfold board_size, GRID_SIZE in Hl.
    rewrite H in Hc by lia. discriminate.
  - split; [|reflexivity]. intros _ x y Hx Hy.
    apply list_find_None in E. rewrite Forall_forall in E.
    specialize (E (x, y)). simpl in E.
    destruct (can_place g p x y); [|reflexivity].
    exfalso. apply E; [|reflexivity].
    apply elem_of_origins. unfold board_size, GRID_SIZE. lia.
Qed.

Lemma find_any_pos_Some (g : game) (p : Piece) (x y : Z) :
  find_any_pos g p = Some (x, y) ->
  can_place g p x y = true ∧ 0 <= x <= 7 - w p ∧ 0 <= y <= 7 - h p.
Proof.
  unfold find_any_pos.
  destruct (list_find _ _) as [[i [x' y']]|] eqn:E; simpl; [|discriminate].
  intros H. inversion H; subst.
  apply list_find_Some in E as (Hl & Hc & _).
  apply list_elem_of_lookup_2, elem_of_origins in Hl.
  unfold board_size, GRID_SIZE in Hl. split; [exact Hc | lia].
Qed.

Lemma find_any_pos_catalog (g : game) (p : Piece) :
  catalog_piece p ->
  find_any_pos g p = None ↔ ∀ x y, can_place g p x y = false.
Proof.
  intros Hc. rewrite find_any_pos_None. split.
  - intros H x y. destruct (can_place g p x y) eqn:E; [|reflexivity].
    destruct (can_place_catalog_range g p x y Hc E) as [Hx Hy].
    rewrite H in E by assumption. discriminate.
  - intros H x y _ _. apply H.
Qed.

Lemma any_move_possible_false (g : game) :
  Forall catalog_piece (pieces g) ->
  any_move_possible g = false ↔
  ∀ p, p ∈ pieces g -> ∀ x y, can_place g p x y = false.
Proof.
  intros Hcat. unfold any_move_possible. rewrite Forall_forall in Hcat. split.
  - intros H p Hin. apply find_any_pos_catalog; [apply Hcat, Hin|].
    destruct (find_any_pos g p) as [xy|] eqn:E; [|reflexivity].
    exfalso. assert (Ht : existsb (fun piece => bool_decide (is_Some (find_any_pos g piece)))
                                  (pieces g) = true).
    { apply existsb_exists. exists p. split; [apply list_elem_of_In, Hin|].
      apply bool_decide_eq_true. rewrite E. eauto. }
    congruence.
  - intros H. destruct (existsb _ _) eqn:E; [|reflexivity].
    apply existsb_exists in E as (p & Hin & Hp). apply list_elem_of_In in Hin.
    apply bool_decide_eq_true in Hp. destruct Hp as [xy Hp].
    rewrite (proj2 (find_any_pos_catalog g p (Hcat p Hin)) (H p Hin)) in Hp.
    discriminate.
Qed.

Lemma single_cell_catalog (v : Z) (c : nat) :
  1 <= v <= 5 -> catalog_piece (mkPiece [[v]] 1 1 c).
Proof.
  intros Hv. split; [reflexivity|]. split; [reflexivity|].
  exists [[1]]. split; [apply list_elem_of_here|].
  split; [reflexivity|]. split; [reflexivity|].
  intros dy dx Hy Hx. change (len [[1]]) with 1 in Hy.
  change (len (hd [] [[1]])) with 1 in Hx.
  assert (dy = 0) by lia. assert (dx = 0) by lia. subst.
  split; [intros _; exact Hv | intros H; exfalso; apply H; reflexivity].
Qed.

(** X3: find_any_pos returns an origin at which the piece can be placed
    and whose h x w extent lies on the board, and it returns nothing
    exactly when no such origin is legal. For a piece dealt from the
    catalog that means no origin at all is legal, so any_move_possible is
    false exactly when none of the held pieces can be placed anywhere. *)
Theorem find_any_pos_complete (g : game) :
  (∀ p x y, find_any_pos g p = Some (x, y) ->
     can_place g p x y = true ∧ 0 <= x <= 7 - w p ∧ 0 <= y <= 7 - h p)
  ∧ (∀ p, find_any_pos g p = None ↔
       ∀ x y, 0 <= x <= 7 - w p -> 0 <= y <= 7 - h p -> can_place g p x y = false)
  ∧ (∀ p, catalog_piece p ->
       find_any_pos g p = None ↔ ∀ x y, can_place g p x y = false)
  ∧ (Forall catalog_piece (pieces g) ->
     any_move_possible g = false ↔
     ∀ p, p ∈ pieces g -> ∀ x y, can_place g p x y = false).
Proof.
  split; [intros p x y; apply find_any_pos_Some|].
  split; [intros p; apply find_any_pos_None|].
  split; [intros p; apply find_any_pos_catalog|].
  apply any_move_possible_false.
Qed.

Lemma find_any_pos_complete_witness :
  (can_place nearly_full (mkPiece [[3]] 1 1 0) 0 0 = true
   ∧ 0 <= 0 <= 7 - 1 ∧ 0 <= 0 <= 7 - 1)
  ∧ ∀ p, p ∈ pieces (set_grid nearly_full (replicate 7 (replicate 7 1))) ->
      ∀ x y, can_place (set_grid nearly_full (replicate 7 (replicate 7 1))) p x y = false.
Proof.
  split.
  - destruct (find_any_pos_complete nearly_full) as [H _].
    apply (H (mkPiece [[3]] 1 1 0) 0 0). reflexivity.
  - destruct (find_any_pos_complete (set_grid nearly_full (replicate 7 (replicate 7 1))))
      as (_ & _ & _ & H).
    assert (Hcat : Forall catalog_piece
                     (pieces (set_grid nearly_full (replicate 7 (replicate 7 1))))).
    { change (Forall catalog_piece [mkPiece [[3]] 1 1 0; mkPiece [[3]] 1 1 0;
                                    mkPiece [[3]] 1 1 0]).
      do 3 (apply List.Forall_cons; [apply single_cell_catalog; lia|]).
      apply List.Forall_nil. }
    apply (proj1 (H Hcat)). reflexivity.
Defined.

(** ** The pieces the generator deals *)

Lemma mapR_Forall2 {A B} (P : A -> B -> Prop) (f : A -> R B) (l : list A) :
  (∀ a t, P a (fst (f a t))) -> ∀ t, Forall2 P l (fst (mapR f l t)).
Proof.
  intros Hf. induction l as [|a l IH]; intros t.
  - constructor.
  - rewrite mapR_cons. simpl. constructor; [apply Hf | apply IH].
Qed.

Lemma Forall2_range_lookup {A} (Q : Z -> A -> Prop) (n : Z) (l : list A) :
  Forall2 Q (range n) l ->
  length l = Z.to_nat n
  ∧ ∀ i, 0 <= i < n -> ∃ v, zget l i = Some v ∧ Q i v.
Proof.
  intros H. split.
  - rewrite <- (Forall2_length _ _ _ H). unfold range. apply length_seqZ.
  - intros i Hi. unfold zget. destruct (Z.ltb_spec i 0); [lia|].
    assert (Hl : range n !! Z.to_nat i = Some i).
    { unfold range. rewrite lookup_seqZ_lt by lia. f_equal. lia. }
    destruct (Forall2_lookup_l _ _ _ _ _ H Hl) as (v & Hv & HQ). eauto.
Qed.

(** The matrix built by two nested loops over range(hh) and range(ww). *)
Lemma matrix_of_ranges (Q : Z -> Z -> Z -> Prop) (hh ww : Z) (f : list (list Z)) :
  1 <= hh -> 0 <= ww ->
  Forall2 (fun dy rowv => Forall2 (Q dy) (range ww) rowv) (range hh) f ->
  len f = hh ∧ len (hd [] f) = ww
  ∧ ∀ dy dx, 0 <= dy < hh -> 0 <= dx < ww ->
      ∃ v, get2 f dy dx = Some v ∧ Q dy dx v.
Proof.
  intros Hh Hw H. destruct (Forall2_range_lookup _ _ _ H) as [Hl Hrows].
  split; [unfold len; lia|]. split.
  - destruct (Hrows 0 ltac:(lia)) as (r0 & Hr0 & Hq0).
    destruct f as [|r f]; [discriminate|]. simpl in *.
    unfold zget in Hr0. simpl in Hr0. inversion Hr0; subst.
    destruct (Forall2_range_lookup _ _ _ Hq0) as [Hlr _]. unfold len. lia.
  - intros dy dx Hy Hx. destruct (Hrows dy Hy) as (rw & Hrw & Hq).
    destruct (Forall2_range_lookup _ _ _ Hq) as [_ Hcells].
    destruct (Hcells dx Hx) as (v & Hv & HQ).
    exists v. split; [|exact HQ]. unfold get2. rewrite Hrw. exact Hv.
Qed.

Lemma filled_from_get2 (mn mx : Z) (s f : list (list Z)) (dy dx : Z) :
  filled_from mn mx s f ->
  match get2 s dy dx with
  | Some c => ∃ v, get2 f dy dx = Some v
                   ∧ if c =? 1 then mn <= v <= mx else v = 0
  | None => get2 f dy dx = None
  end.
Proof.
  unfold filled_from, get2, zget. intros H.
  destruct (Z.ltb_spec dy 0); [reflexivity|].
  destruct (s !! Z.to_nat dy) as [rs|] eqn:Es.
  - destruct (Forall2_lookup_l _ _ _ _ _ H Es) as (rf & Ef & Hrow). rewrite Ef.
    destruct (Z.ltb_spec dx 0); [reflexivity|].
    destruct (rs !! Z.to_nat dx) as [c|] eqn:Ec.
    + destruct (Forall2_lookup_l _ _ _ _ _ Hrow Ec) as (v & Ev & Hv). eauto.
    + apply lookup_ge_None in Ec. rewrite (Forall2_length _ _ _ Hrow) in Ec.
      apply lookup_ge_None in Ec. exact Ec.
  - apply lookup_ge_None in Es. rewrite (Forall2_length _ _ _ H) in Es.
    apply lookup_ge_None in Es. rewrite Es. reflexivity.
Qed.

Lemma filled_from_at2 (mn mx : Z) (s f : list (list Z)) (dy dx : Z) :
  filled_from mn mx s f ->
  (at2 s dy dx = 1 -> mn <= at2 f dy dx <= mx)
  ∧ (at2 s dy dx ≠ 1 -> at2 f dy dx = 0).
Proof.
  intros H. pose proof (filled_from_get2 mn mx s f dy dx H) as Hg.
  rewrite !at2_get2. destruct (get2 s dy dx) as [c|]; simpl.
  - destruct Hg as (v & Ev & Hv). rewrite Ev. simpl.
    destruct (Z.eqb_spec c 1); split; intros; (lia || congruence).
  - rewrite Hg. simpl. split; intros; (lia || congruence).
Qed.

Lemma filled_from_dims (mn mx : Z) (s f : list (list Z)) :
  filled_from mn mx s f -> len f = len s ∧ len (hd [] f) = len (hd [] s).
Proof.
  unfold filled_from, len. intros H. split.
  - rewrite (Forall2_length _ _ _ H). reflexivity.
  - destruct H as [|rs rf s' f' Hrow _]; [reflexivity|]. simpl.
    rewrite (Forall2_length _ _ _ Hrow). reflexivity.
Qed.

Lemma template_at2 (s : list (list Z)) (dy dx : Z) :
  template s -> at2 s dy dx = 0 ∨ at2 s dy dx = 1.
Proof.
  unfold template, contains_numbers. intros H.
  rewrite at2_get2. unfold get2.
  destruct (zget s dy) as [rw|] eqn:Er; [|left; reflexivity].
  destruct (zget rw dx) as [c|] eqn:Ec; [|left; reflexivity]. simpl.
  apply zget_Some_range in Er as [_ Hr]. apply zget_Some_range in Ec as [_ Hc].
  destruct (decide (c = 0)) as [|H0]; [auto|].
  destruct (decide (c = 1)) as [|H1]; [auto|]. exfalso.
  assert (Ht : existsb (fun r => existsb (fun cell => negb ((cell =? 0) || (cell =? 1))) r) s
               = true).
  { apply existsb_exists. exists rw. split; [apply list_elem_of_In, Hr|].
    apply existsb_exists. exists c. split; [apply list_elem_of_In, Hc|]. lia. }
  congruence.
Qed.

Lemma fills_template_fill (mn mx : Z) (sh f : list (list Z)) :
  1 <= mn -> mx <= 5 -> filled_from mn mx sh f -> fills sh f.
Proof.
  intros Hmn Hmx H. destruct (filled_from_dims mn mx sh f H) as [Hl Hlw].
  split; [exact Hl|]. split; [exact Hlw|]. intros dy dx _ _.
  destruct (filled_from_at2 mn mx sh f dy dx H) as [H1 H0].
  split; [intros E; specialize (H1 E); lia | exact H0].
Qed.

Lemma fills_refill (mn mx : Z) (sh full f : list (list Z)) :
  1 <= mn -> mx <= 5 -> fills sh full -> template full ->
  filled_from mn mx full f -> fills sh f.
Proof.
  intros Hmn Hmx (Hl & Hlw & Hc) Ht H.
  destruct (filled_from_dims mn mx full f H) as [Hl' Hlw'].
  split; [congruence|]. split; [congruence|]. intros dy dx Hy Hx.
  destruct (Hc dy dx Hy Hx) as [C1 C0].
  destruct (filled_from_at2 mn mx full f dy dx H) as [F1 F0].
  destruct (template_at2 full dy dx Ht) as [E|E]; split; intros Hs.
  - specialize (C1 Hs). lia.
  - apply F0. lia.
  - specialize (F1 E). lia.
  - specialize (C0 Hs). lia.
Qed.

Lemma SHAPES_dims (sh : list (list Z)) :
  sh ∈ SHAPES -> 1 <= len sh ∧ 1 <= len (hd [] sh).
Proof.
  intros H.
  assert (Hall : forallb (fun s => (1 <=? len s) && (1 <=? len (hd [] s))) SHAPES = true)
    by (vm_compute; reflexivity).
  rewrite forallb_forall in Hall. specialize (Hall sh (proj1 (list_elem_of_In _ _) H)).
  lia.
Qed.

Lemma SHAPES_template (sh : list (list Z)) : sh ∈ SHAPES -> template sh.
Proof.
  intros H.
  assert (Hall : forallb (fun s => negb (contains_numbers s)) SHAPES = true)
    by (vm_compute; reflexivity).
  rewrite forallb_forall in Hall. specialize (Hall sh (proj1 (list_elem_of_In _ _) H)).
  unfold template. destruct (contains_numbers sh); [discriminate | reflexivity].
Qed.

Lemma Piece_init_catalog (sh : list (list Z)) (b : bias) (t : list nat) :
  sh ∈ SHAPES -> catalog_piece (fst (Piece_init (Some sh) b t)).
Proof.
  intros Hin. destruct (Piece_init_dims (Some sh) b t) as [Hh Hw].
  split; [exact Hh|]. split; [exact Hw|]. exists sh. split; [exact Hin|].
  rewrite (Piece_init_shape_template sh b t (SHAPES_template sh Hin)).
  destruct (bias_range_ordered b) as (_ & Hlo & Hhi).
  eapply fills_template_fill; [exact Hlo | exact Hhi |].
  apply random_piece_from_shape_spec.
Qed.

(** The constructor applied to a fill of a catalog template, as the
    strategic branch does. *)
Lemma Piece_init_fill_catalog (sh full : list (list Z)) (t : list nat) :
  sh ∈ SHAPES -> fills sh full ->
  catalog_piece (fst (Piece_init (Some full) neutral t)).
Proof.
  intros Hin Hf. destruct (Piece_init_dims (Some full) neutral t) as [Hh Hw].
  split; [exact Hh|]. split; [exact Hw|]. exists sh. split; [exact Hin|].
  destruct (contains_numbers full) eqn:E.
  - assert (Hs : shape (fst (Piece_init (Some full) neutral t)) = full).
    { unfold Piece_init, bind. rewrite E. unfold ret, choice, bind, ret.
      destruct (draw t). reflexivity. }
    rewrite Hs. exact Hf.
  - rewrite (Piece_init_shape_template full neutral t E).
    eapply (fills_refill 1 5); [lia | lia | exact Hf | exact E |].
    apply (random_piece_from_shape_spec full neutral).
Qed.

Lemma shape_numbers_values (occ : list (Z * Z)) (top left : Z)
    (l : list (nat * Z)) (m : gmap (Z * Z) Z) :
  Forall (fun iv => 1 <= snd iv <= 5) l ->
  map_Forall (fun _ v => 1 <= v <= 5) m ->
  map_Forall (fun _ v => 1 <= v <= 5)
    (foldl (fun m' '(idx_i, pval) =>
              match occ !! idx_i with
              | Some (gx, gy) => <[(gy - top, gx - left) := pval]> m'
              | None => m'
              end) m l).
Proof.
  intros Hl. revert m. induction Hl as [|[i v] l Hv _ IH]; intros m Hm; simpl.
  - exact Hm.
  - apply IH. destruct (occ !! i) as [[gx gy]|]; [|exact Hm].
    apply map_Forall_insert_2; assumption.
Qed.

Lemma zip_parts_values (ri : list nat) (parts : list Z) :
  Forall (fun v => 1 <= v <= 5) parts ->
  Forall (fun iv : nat * Z => 1 <= snd iv <= 5) (zip ri parts).
Proof.
  intros H. revert ri. induction H as [|v parts Hv _ IH]; intros ri.
  - destruct ri; constructor.
  - destruct ri as [|i ri]; [constructor|]. simpl. constructor; [exact Hv | apply IH].
Qed.

Lemma fill_candidate_catalog (g : game) (sh : list (list Z)) (top left : Z)
    (occ : list (Z * Z)) (ri : list nat) (parts : list Z)
    (t : list nat) (p : Piece) (t' : list nat) :
  sh ∈ SHAPES -> Forall (fun v => 1 <= v <= 5) parts ->
  fill_candidate g sh (len sh) (len (hd [] sh)) top left occ ri parts t = (Some p, t') ->
  catalog_piece p.
Proof.
  intros Hin Hparts. unfold fill_candidate.
  destruct (bias_range_ordered (choose_bias_from_board g)) as (Hord & Hlo & Hhi).
  destruct (bias_range _) as [mn mx]. simpl in Hord, Hlo, Hhi.
  set (numbers := foldl _ ∅ (zip ri parts)).
  assert (Hnum : map_Forall (fun _ v => 1 <= v <= 5) numbers).
  { apply shape_numbers_values; [apply zip_parts_values, Hparts | apply map_Forall_empty]. }
  unfold bind.
  match goal with |- context [mapR ?f ?l t] =>
    pose proof (mapR_Forall2
                  (fun dy rowv =>
                     Forall2 (fun dx v => if at2 sh dy dx =? 1 then 1 <= v <= 5 else v = 0)
                             (range (len (hd [] sh))) rowv) f l) as Hfull
  end.
  match type of Hfull with ?A -> _ => assert (Hcell : A) end.
  { intros dy t0. apply mapR_Forall2. intros dx t1.
    destruct (at2 sh dy dx =? 1); [|reflexivity].
    destruct (numbers !! (dy, dx)) as [v|] eqn:Ev.
    - simpl. exact (Hnum _ _ Ev).
    - pose proof (randint_range mn mx t1 Hord). lia. }
  specialize (Hfull Hcell t).
  destruct (mapR _ _ t) as [full t1]. simpl in Hfull.
  destruct (SHAPES_dims sh Hin) as [Hh Hw].
  assert (Hw0 : 0 <= len (hd [] sh)) by lia.
  destruct (matrix_of_ranges _ (len sh) (len (hd [] sh)) full Hh Hw0 Hfull)
    as (Hl & Hlw & Hcells).
  assert (Hfills : fills sh full).
  { split; [exact Hl|]. split; [exact Hlw|]. intros dy dx Hy Hx.
    destruct (Hcells dy dx Hy Hx) as (v & Hv & HQ).
    rewrite (at2_get2 full), Hv. simpl.
    destruct (Z.eqb_spec (at2 sh dy dx) 1); split; intros; (lia || congruence). }
  pose proof (Piece_init_fill_catalog sh full t1 Hin Hfills) as Hcat.
  destruct (Piece_init (Some full) neutral t1) as [cand t2]. simpl in Hcat.
  destruct (can_place g cand left top); unfold ret; intros H; inversion H; subst.
  exact Hcat.
Qed.

Lemma first_some_Some_in {A B} (P : B -> Prop) (f : A -> R (option B)) (l : list A) :
  (∀ a t0 b t1, a ∈ l -> f a t0 = (Some b, t1) -> P b) ->
  ∀ t b t', first_some f l t = (Some b, t') -> P b.
Proof.
  induction l as [|a l IH]; intros Hf t b t' H; simpl in H.
  - discriminate.
  - unfold bind in H. destruct (f a t) as [[b0|] t1] eqn:E.
    + unfold ret in H. inversion H; subst. eapply Hf; [apply list_elem_of_here | eauto].
    + eapply IH; [|eauto]. intros a' t0 b' t2 Hin. apply Hf.
      apply list_elem_of_further, Hin.
Qed.

Lemma compositions_values (total : Z) (k : nat) (parts : list Z) :
  parts ∈ compositions total k 1 5 -> Forall (fun v => 1 <= v <= 5) parts.
Proof. intros H. apply compositions_spec in H. tauto. Qed.

Lemma strategic_origin_catalog (g : game) (sh : list (list Z))
    (y : Z) (empties : list Z) (needed top left : Z)
    (t : list nat) (p : Piece) (t' : list nat) :
  sh ∈ SHAPES ->
  strategic_origin g sh (len sh) (len (hd [] sh)) y empties needed top left t
  = (Some p, t') ->
  catalog_piece p.
Proof.
  intros Hin. unfold strategic_origin.
  destruct (scan_positions _ _ _ _ _ _ _ _) as [[|pos ps]|]; try discriminate.
  destruct (row_indices_of _ _ _) as [|i ri] eqn:Eri; [discriminate|].
  unfold bind.
  destruct (first_some _ (compositions needed _ 1 5) t) as [[q|] t1] eqn:E1.
  - unfold ret. intros H; inversion H; subst.
    eapply (first_some_Some_in catalog_piece); [|exact E1].
    intros parts t0 b t2 Hp. apply fill_candidate_catalog; [exact Hin|].
    eapply compositions_values; eauto.
  - apply (first_some_Some catalog_piece).
    intros try_sum t0 b t2.
    destruct (negb _); [discriminate|].
    apply (first_some_Some_in catalog_piece).
    intros parts t3 b' t4 Hp. apply fill_candidate_catalog; [exact Hin|].
    eapply compositions_values; eauto.
Qed.

Lemma strategic_catalog (g : game) (cands : list candidate)
    (t : list nat) (p : Piece) (t' : list nat) :
  strategic g cands t = (Some p, t') -> catalog_piece p.
Proof.
  unfold strategic. apply (first_some_Some catalog_piece).
  intros c t0 b t1. apply (first_some_Some_in catalog_piece).
  intros sh t2 b' t3 Hin. unfold strategic_shape.
  destruct c as [[[k i] e] n]. destruct k; [|discriminate].
  apply (first_some_Some catalog_piece).
  intros top t4 b'' t5. apply (first_some_Some catalog_piece).
  intros left t6 b3 t7. apply strategic_origin_catalog. exact Hin.
Qed.

Lemma choice_elem_of {A} (d : A) (l : list A) (t : list nat) :
  l ≠ [] -> fst (choice d l t) ∈ l.
Proof.
  intros Hne. unfold choice, bind, ret. destruct (draw t) as [n t']. simpl.
  assert (Hlt : (n mod length l < length l)%nat).
  { apply Nat.mod_upper_bound. destruct l; [contradiction | simpl; lia]. }
  destruct (lookup_lt_is_Some_2 l _ Hlt) as [a Ha].
  rewrite (nth_lookup_Some _ _ d _ Ha). eapply list_elem_of_lookup_2; eauto.
Qed.

Lemma filter_SHAPES_sub (P : list (list Z) -> Prop) `{∀ s, Decision (P s)}
    (sh : list (list Z)) :
  sh ∈ filter P SHAPES -> sh ∈ SHAPES.
Proof. intros Hin. apply list_elem_of_filter in Hin. tauto. Qed.

Lemma explore_pool_catalog (free : Z) (t : list nat) :
  fst ((if free <=? 10 then choice [] (small_shapes ++ medium_shapes)
        else if free <=? 20
             then choice [] (medium_shapes ++ small_shapes ++ large_shapes)
             else choice [] SHAPES) t) ∈ SHAPES.
Proof.
  assert (Hsub : ∀ l : list (list (list Z)),
            l ≠ [] -> (∀ s, s ∈ l -> s ∈ SHAPES) -> fst (choice [] l t) ∈ SHAPES).
  { intros l Hne Hl. apply Hl, choice_elem_of, Hne. }
  assert (Hs : ∀ s, s ∈ small_shapes -> s ∈ SHAPES)
    by (intros s; apply filter_SHAPES_sub).
  assert (Hm : ∀ s, s ∈ medium_shapes -> s ∈ SHAPES)
    by (intros s; apply filter_SHAPES_sub).
  assert (Hl : ∀ s, s ∈ large_shapes -> s ∈ SHAPES)
    by (intros s; apply filter_SHAPES_sub).
  destruct (free <=? 10); [|destruct (free <=? 20)]; apply Hsub.
  - vm_compute. discriminate.
  - intros s Hin. apply elem_of_app in Hin as [Hin | Hin]; auto.
  - vm_compute. discriminate.
  - intros s Hin. apply elem_of_app in Hin as [Hin | Hin]; [auto|].
    apply elem_of_app in Hin as [Hin | Hin]; auto.
  - vm_compute. discriminate.
  - auto.
Qed.

Lemma variety_catalog (t : list nat) :
  fst (choice [] shapes_with_variety t) ∈ SHAPES.
Proof.
  eapply filter_SHAPES_sub. apply choice_elem_of. vm_compute. discriminate.
Qed.

Lemma explore_catalog (g : game) (b : bias) (free : Z) (tries : nat) :
  ∀ c t p c' t', explore g b free tries c t = (Some p, c', t') -> catalog_piece p.
Proof.
  induction tries as [|n IH]; intros c t p c' t' H; cbn [explore] in H.
  - discriminate.
  - unfold bind in H.
    pose proof (explore_pool_catalog free t) as Hpool.
    match type of H with context [let (_, _) := ?x in _] =>
      destruct x as [sh t1] eqn:E1 end. simpl in Hpool.
    assert (Hsh' : ∀ t1', fst ((if is_single sh && (c >=? 2)
                                then choice [] shapes_with_variety
                                else ret sh) t1') ∈ SHAPES).
    { intros t1'. destruct (is_single sh && (c >=? 2));
        [apply variety_catalog | exact Hpool]. }
    specialize (Hsh' t1).
    match type of H with context [let (_, _) := ?x in _] =>
      destruct x as [sh' t2] eqn:E2 end. simpl in Hsh'.
    pose proof (Piece_init_catalog sh' b t2 Hsh') as Hcat.
    destruct (Piece_init (Some sh') b t2) as [q t3]. simpl in Hcat.
    destruct (bool_decide (is_Some (find_any_pos g q))) eqn:Hf.
    + unfold ret in H. inversion H; subst. exact Hcat.
    + eapply IH; eauto.
Qed.

Lemma generate_catalog (g : game) (now : Z) (tries : nat) (t : list nat) :
  catalog_piece (fst (fst (generate_placeable_piece g now tries t))).
Proof.
  unfold generate_placeable_piece, bind.
  destruct (random_random t) as [r t0].
  match goal with |- context [let (_, _) := ?x in _] =>
    destruct x as [[q|] t1] eqn:Es end.
  { simpl. destruct (r <? 300); [|discriminate].
    unfold bind in Es. destruct (shuffle _ t0) as [cands t0'].
    eapply strategic_catalog; eauto. }
  match goal with |- context [explore ?a ?b ?c ?d ?e ?f] =>
    destruct (explore a b c d e f) as [[[q|] c1] t2] eqn:Ee end.
  { simpl. eapply explore_catalog; eauto. }
  match goal with |- context [let (_, _) := ?x in _] =>
    destruct x as [[q|] t3] eqn:Ef end.
  { simpl. destruct shapes_with_variety as [|s0 ss] eqn:Ev; [discriminate|].
    unfold bind in Ef.
    pose proof (variety_catalog t2) as Hv. rewrite Ev in Hv.
    destruct (choice _ _ t2) as [sh t2']. simpl in Hv.
    pose proof (Piece_init_catalog sh (choose_bias_from_board g) t2' Hv) as Hcat.
    destruct (Piece_init (Some sh) _ t2') as [q' t2'']. simpl in Hcat.
    destruct (bool_decide (is_Some (find_any_pos g q'))); [|discriminate].
    unfold ret in Ef. inversion Ef; subst. exact Hcat. }
  assert (Hd : [[1; 1]] ∈ SHAPES) by (apply list_elem_of_In; simpl; tauto).
  pose proof (Piece_init_catalog [[1; 1]] (choose_bias_from_board g) t3 Hd) as Hcat.
  destruct (Piece_init _ _ t3) as [q t4]. exact Hcat.
Qed.

Lemma catalog_piece_values (p : Piece) (dx dy : Z) :
  catalog_piece p -> occupied p dx dy -> 1 <= at2 (shape p) dy dx <= 5.
Proof.
  intros (Hh & Hw & sh & _ & Hl & Hlw & Hf) (Hy & Hx & Hne).
  rewrite Hh, Hl in Hy. rewrite Hw, Hlw in Hx.
  destruct (Hf dy dx Hy Hx) as [H1 H0].
  destruct (decide (at2 sh dy dx = 1)) as [E|E]; [auto|].
  specialize (H0 E). contradiction.
Qed.

Lemma generate_bookkeeping (g : game) (now : Z) (tries : nat) (t : list nat) :
  ∃ c, snd (fst (generate_placeable_piece g now tries t))
       = set_generator_state g now c.
Proof.
  unfold generate_placeable_piece, bind.
  destruct (random_random t) as [r t0].
  match goal with |- context [let (_, _) := ?x in _] =>
    destruct x as [[q|] t1] end; [eexists; reflexivity|].
  match goal with |- context [explore ?a ?b ?c ?d ?e ?f] =>
    destruct (explore a b c d e f) as [[[q|] c1] t2] end;
    [eexists; reflexivity|].
  match goal with |- context [let (_, _) := ?x in _] =>
    destruct x as [[q|] t3] end; [eexists; reflexivity|].
  destruct (Piece_init _ _ t3) as [q t4]. eexists; reflexivity.
Qed.

(** X4: every piece generate_placeable_piece returns is a fill of a
    catalog template with a value of 1..5 on each occupied cell, and the
    call changes nothing of the game object but last_piece_time, which
    becomes the current time, and consecutive_single_5s: board, held
    pieces, score and flags are as before. *)
Theorem generator_deals_catalog_pieces (g : game) (now : Z) (tries : nat)
    (t : list nat) :
  let p := fst (fst (generate_placeable_piece g now tries t)) in
  let g' := snd (fst (generate_placeable_piece g now tries t)) in
  catalog_piece p
  ∧ (∀ dx dy, occupied p dx dy -> 1 <= at2 (shape p) dy dx <= 5)
  ∧ grid g' = grid g ∧ grid_nums g' = grid_nums g ∧ grid_colors g' = grid_colors g
  ∧ off_board g' = off_board g
  ∧ last_piece_time g' = now.
Proof.
  intros p g'. pose proof (generate_catalog g now tries t) as Hc. fold p in Hc.
  split; [exact Hc|].
  split; [intros dx dy; apply catalog_piece_values, Hc|].
  destruct (generate_bookkeeping g now tries t) as (c & E). fold g' in E.
  rewrite E. repeat split.
Qed.

(** ** The course of place_piece *)

Lemma stamp_cell_session_fields (p : Piece) (x y dy : Z) (g : game) (dx : Z) :
  session_fields (stamp_cell p x y dy g dx) = session_fields g.
Proof. unfold stamp_cell. destruct (negb _); reflexivity. Qed.

Lemma stamp_session_fields (g : game) (p : Piece) (x y : Z) :
  session_fields (stamp g p x y) = session_fields g.
Proof.
  unfold stamp. rewrite foldl_nested.
  generalize (a ← range (h p); b ← range (w p); [(a, b)]). intros L. revert g.
  induction L as [|[dy dx] L IH]; intros g; simpl; [reflexivity|].
  rewrite IH. apply stamp_cell_session_fields.
Qed.

Lemma stamp_off_board (g : game) (p : Piece) (x y : Z) :
  off_board (stamp g p x y) = off_board g.
Proof.
  pose proof (stamp_session_fields g p x y) as H. unfold session_fields in H.
  congruence.
Qed.

(** What place_piece does, step by step: the board is the stamped one, the
    used slot holds the generated piece, the score grows by 15 per cell
    of the clear-set, best follows the score, and the file is written
    only for a new best. *)
Lemma place_piece_trace (g : game) (d : disk) (o : write_outcome)
    (now : Z) (idx : nat) (piece : Piece) (x y : Z) (t : list nat) :
  let g1 := stamp g piece x y in
  let np := fst (fst (generate_placeable_piece g1 now 150 t)) in
  let k := Z.of_nat (size (to_clear_of g1)) in
  ∃ g6,
    fst (place_piece g d o now idx piece x y t)
    = (if negb (any_move_possible g6) then set_game_over g6 true else g6,
       if score g + 15 * k >? best g
       then snd (save_best_try (score g + 15 * k) d o) else d)
    ∧ grid g6 = grid g1 ∧ grid_nums g6 = grid_nums g1
    ∧ grid_colors g6 = grid_colors g1
    ∧ pieces g6 = <[idx := np]> (pieces g)
    ∧ score g6 = score g + 15 * k
    ∧ best g6 = Z.max (best g) (score g + 15 * k)
    ∧ game_over g6 = game_over g ∧ paused g6 = paused g
    ∧ timed_mode g6 = timed_mode g ∧ start_time g6 = start_time g.
Proof.
  intros g1 np k. unfold place_piece, bind, ret. fold g1.
  destruct (generate_bookkeeping g1 now 150 t) as (c & Hgen).
  unfold np. destruct (generate_placeable_piece g1 now 150 t) as [[q g2] t1].
  simpl in Hgen. subst g2. simpl fst.
  pose proof (stamp_off_board g piece x y) as Hoff. fold g1 in Hoff.
  unfold off_board in Hoff. injection Hoff as Hp Hsel Hdr Hsc Hbe Hgo Hst Hpo Hhy Han Hpa Hti.
  match goal with |- context [check_and_animate ?G now t1] => set (g3 := G) end.
  destruct (check_and_animate_result g3 now t1) as (g4 & E4 & Hs4 & Hg4 & Hn4 & Hc4 & _).
  assert (Hk : Z.of_nat (size (to_clear_of g3)) = k)
    by (unfold k; f_equal; f_equal; apply to_clear_of_ext; reflexivity).
  rewrite Hk in E4, Hs4. unfold POINTS_PER_CELL in E4, Hs4.
  assert (Hrest : pieces g4 = pieces g3 ∧ best g4 = best g3
                  ∧ game_over g4 = game_over g3 ∧ paused g4 = paused g3
                  ∧ timed_mode g4 = timed_mode g3 ∧ start_time g4 = start_time g3).
  { assert (Eg : g4 = snd (fst (check_and_animate g3 now t1))) by (rewrite E4; reflexivity).
    rewrite Eg. unfold check_and_animate, bind, ret.
    destruct (bool_decide (to_clear_of g3 = ∅)); simpl; [repeat split|].
    unfold choice, bind, ret. destruct (draw t1). simpl. repeat split. }
  destruct Hrest as (Hp4 & Hb4 & Hgo4 & Hpa4 & Hti4 & Hst4).
  destruct (check_and_animate g3 now t1) as [[[cleared points] g4'] t2].
  simpl in E4. assert (Eg : g4' = g4) by (inversion E4; reflexivity).
  assert (Epts : points = k * 15) by (inversion E4; reflexivity).
  subst g4' points. clear E4.
  simpl in Hs4, Hg4, Hn4, Hc4, Hp4, Hb4, Hgo4, Hpa4, Hti4, Hst4.
  rewrite Hsc in Hs4. rewrite Hbe in Hb4. rewrite Hp in Hp4.
  rewrite Hgo in Hgo4. rewrite Hpa in Hpa4. rewrite Hti in Hti4. rewrite Hst in Hst4.
  replace (k * 15) with (15 * k) in * by lia.
  assert (Hcmp : ∀ g5, score g5 = score g4 -> best g5 = best g4 ->
            (score g5 >? best g5) = (score g + 15 * k >? best g))
    by (intros g5 -> ->; rewrite Hs4, Hb4; reflexivity).
  destruct (15 * k >? 0); cbn [score best set_popups];
    (rewrite Hs4, Hb4;
     destruct (Z.gtb_spec (score g + 15 * k) (best g)) as [Hgt|Hle];
     [ unfold save_best; cbn [best set_best];
       destruct (save_best_try (score g + 15 * k) d o) as [[u|e] d'] eqn:Esv;
       eexists; (split; [reflexivity|]); simpl;
       repeat split; try assumption; lia
     | eexists; (split; [reflexivity|]); simpl;
       repeat split; try assumption; lia ]).
Qed.

(** X5: a legal placement into a held slot adds 15 points per cell of the
    clear-set of the board it has just written, so the score never goes
    down; best becomes the larger of the old best and the new score; the
    best-score file is written only when the new score exceeds the old
    best, and then holds the new score if the write succeeds (and the
    score is within what str() prints) and is untouched if the file cannot
    be opened. *)
Theorem place_piece_score_and_best (g : game) (d : disk) (o : write_outcome)
    (now : Z) (idx : nat) (piece : Piece) (x y : Z) (t : list nat) :
  well_formed g -> held_slot g idx -> readable_piece piece ->
  can_place g piece x y = true ->
  let g' := fst (fst (place_piece g d o now idx piece x y t)) in
  let d' := snd (fst (place_piece g d o now idx piece x y t)) in
  let k := Z.of_nat (size (to_clear_of (stamp g piece x y))) in
  score g' = score g + 15 * k
  ∧ score g <= score g'
  ∧ best g' = Z.max (best g) (score g')
  ∧ (score g' <= best g -> d' = d)
  ∧ (score g' > best g -> o = WriteOk -> printable (score g') ->
     d' = Holds (pretty (score g')))
  ∧ (score g' > best g -> o = OpenFails -> d' = d).
Proof.
  intros _ _ _ _ g' d' k.
  destruct (place_piece_trace g d o now idx piece x y t)
    as (g6 & E & _ & _ & _ & _ & Hs & Hb & _).
  fold k in E, Hs, Hb.
  assert (Eg : g' = if negb (any_move_possible g6) then set_game_over g6 true else g6)
    by (unfold g'; rewrite E; reflexivity).
  assert (Ed : d' = if score g + 15 * k >? best g
                    then snd (save_best_try (score g + 15 * k) d o) else d)
    by (unfold d'; rewrite E; reflexivity).
  assert (Hs' : score g' = score g + 15 * k)
    by (rewrite Eg; destruct (negb _); exact Hs).
  assert (Hb' : best g' = Z.max (best g) (score g + 15 * k))
    by (rewrite Eg; destruct (negb _); exact Hb).
  rewrite Hs'. split; [reflexivity|]. split; [lia|]. split; [exact Hb'|].
  rewrite Ed. destruct (Z.gtb_spec (score g + 15 * k) (best g)).
  - split; [lia|]. split; [intros _ -> _; reflexivity | intros _ ->; reflexivity].
  - split; [reflexivity|]. split; intros; lia.
Qed.

Lemma place_piece_score_and_best_witness :
  let p := mkPiece [[1]] 1 1 0 in
  let g := set_pieces row_needs_one [p; p; p] in
  let g' := fst (fst (place_piece g Missing WriteOk 0 0 p 6 0 [])) in
  score g' = 105.
Proof.
  intros p g g'.
  assert (Hw : well_formed g) by (repeat split; repeat constructor).
  assert (Hh : held_slot g 0) by (unfold held_slot; simpl; lia).
  assert (Hr : readable_piece p).
  { split; [reflexivity|]. repeat constructor. unfold len. simpl. lia. }
  pose proof (place_piece_score_and_best g Missing WriteOk 0 0%nat p 6 0 []
                Hw Hh Hr eq_refl) as (Hs & _).
  fold g' in Hs. rewrite Hs. vm_compute. reflexivity.
Defined.

(** X6: place_piece declares game over exactly when none of the held
    pieces, with the new piece in the used slot, can be placed anywhere
    on the board; otherwise game_over is left as it was. *)
Theorem place_piece_game_over_iff_stuck (g : game) (d : disk) (o : write_outcome)
    (now : Z) (idx : nat) (piece : Piece) (x y : Z) (t : list nat) :
  Forall catalog_piece (pieces g) ->
  let g' := fst (fst (place_piece g d o now idx piece x y t)) in
  game_over g' = true ↔
  game_over g = true
  ∨ ∀ p, p ∈ pieces g' -> ∀ x' y', can_place g' p x' y' = false.
Proof.
  intros Hcat g'.
  destruct (place_piece_trace g d o now idx piece x y t)
    as (g6 & E & _ & _ & _ & Hp & _ & _ & Hgo & _).
  assert (Eg : g' = if negb (any_move_possible g6) then set_game_over g6 true else g6)
    by (unfold g'; rewrite E; reflexivity).
  assert (Hcat6 : Forall catalog_piece (pieces g6)).
  { rewrite Hp. apply Forall_insert; [exact Hcat | apply generate_catalog]. }
  pose proof (any_move_possible_false g6 Hcat6) as Hstuck.
  destruct (any_move_possible g6) eqn:Hm; simpl in Eg; rewrite Eg.
  - rewrite Hgo. split; [auto|]. intros [H | H]; [exact H|].
    apply Hstuck in H. discriminate.
  - split; [|reflexivity]. intros _. right. intros p Hin x' y'.
    rewrite <- (can_place_ext g6 (set_game_over g6 true)) by reflexivity.
    apply (proj1 Hstuck eq_refl p Hin).
Qed.

Lemma place_piece_game_over_iff_stuck_witness :
  game_over (fst (fst (place_piece nearly_full Missing WriteOk 0 0
                                   (mkPiece [[3]] 1 1 0) 0 0 []))) = true.
Proof.
  assert (Hcat : Forall catalog_piece (pieces nearly_full)).
  { repeat constructor; apply single_cell_catalog; lia. }
  apply (place_piece_game_over_iff_stuck nearly_full Missing WriteOk 0 0%nat
           (mkPiece [[3]] 1 1 0) 0 0 [] Hcat).
  right. intros p Hin.
  assert (Hall : forallb (fun q => has_cell_b q
                                   && no_origin_b
                                        (fst (fst (place_piece nearly_full Missing WriteOk
                                                     0 0 (mkPiece [[3]] 1 1 0) 0 0 []))) q)
                   (pieces (fst (fst (place_piece nearly_full Missing WriteOk 0 0
                                                  (mkPiece [[3]] 1 1 0) 0 0 []))))
                 = true) by (vm_compute; reflexivity).
  rewrite forallb_forall in Hall.
  specialize (Hall p (proj1 (list_elem_of_In _ _) Hin)).
  apply andb_true_iff in Hall as [Hc Hn].
  apply no_origin_b_sound; assumption.
Defined.

(** ** Sound sessions *)

Lemma get2_replicate {A} (v : A) (r c : Z) :
  get2 (replicate 7 (replicate 7 v)) r c
  = if (0 <=? r) && (r <? 7) && (0 <=? c) && (c <? 7) then Some v else None.
Proof.
  unfold get2, zget.
  destruct (Z.ltb_spec r 0); [destruct (Z.leb_spec 0 r); [lia | reflexivity]|].
  destruct (replicate 7 (replicate 7 v) !! Z.to_nat r) as [rw|] eqn:Er.
  - apply lookup_replicate in Er as [-> Hr].
    destruct (Z.ltb_spec c 0).
    { destruct (Z.leb_spec 0 c); [lia|]. rewrite !andb_false_r. reflexivity. }
    destruct (replicate 7 v !! Z.to_nat c) as [a|] eqn:Ec.
    + apply lookup_replicate in Ec as [-> Hc].
      destruct (Z.leb_spec 0 r), (Z.ltb_spec r 7), (Z.leb_spec 0 c), (Z.ltb_spec c 7);
        try lia. reflexivity.
    + apply lookup_ge_None in Ec. rewrite length_replicate in Ec.
      destruct (Z.ltb_spec c 7); [lia|]. rewrite !andb_false_r. reflexivity.
  - apply lookup_ge_None in Er. rewrite length_replicate in Er.
    destruct (Z.ltb_spec r 7); [lia|]. rewrite andb_false_r. reflexivity.
Qed.

Lemma empty_board_ok (g : game) :
  grid g = empty_grid 0 -> grid_nums g = empty_grid 0 ->
  grid_colors g = empty_grid None -> board_ok g.
Proof.
  intros Hg Hn Hc. split.
  - unfold well_formed. rewrite Hg, Hn, Hc. repeat split; repeat constructor.
  - intros r c. left. unfold cell_empty, color_at. rewrite !at2_get2, Hg, Hn, Hc.
    unfold empty_grid. change (Z.to_nat board_size) with 7%nat.
    rewrite !get2_replicate. destruct (_ && _); repeat split.
Qed.

Lemma board_ok_ext (g g' : game) :
  grid g = grid g' -> grid_nums g = grid_nums g' -> grid_colors g = grid_colors g' ->
  board_ok g -> board_ok g'.
Proof.
  unfold board_ok, well_formed, cell_empty, cell_occupied.
  intros <- <- <-. tauto.
Qed.

Lemma session_ok_ext (g g' : game) :
  grid g = grid g' -> grid_nums g = grid_nums g' -> grid_colors g = grid_colors g' ->
  pieces g = pieces g' -> session_ok g -> session_ok g'.
Proof.
  intros Hg Hn Hc Hp (Hb & Hl & Hf). split; [eapply board_ok_ext; eauto|].
  rewrite <- Hp. auto.
Qed.

Lemma stamp_board_ok (g : game) (p : Piece) (x y : Z) :
  board_ok g -> catalog_piece p -> can_place g p x y = true ->
  board_ok (stamp g p x y).
Proof.
  intros [Hw Hcells] Hcat Hc.
  destruct (stamp_spec g p x y Hw Hc) as [Hw' H].
  split; [exact Hw'|]. intros r c.
  destruct (H r c) as [Hocc Hkeep].
  destruct (decide (occupied p (c - x) (r - y))) as [Ho | Hno].
  - right. destruct (Hocc Ho) as (_ & E1 & E2 & E3).
    split; [exact E1|]. split; [|rewrite E3; eauto].
    rewrite E2. apply catalog_piece_values; assumption.
  - destruct (Hkeep Hno) as (K1 & K2 & K3).
    destruct (Hcells r c) as [(A & B & C) | (A & B & C)]; [left | right];
      repeat split; try congruence; rewrite ?K1, ?K2, ?K3; try tauto.
Qed.

Lemma cleared_board_ok (g g' : game) :
  board_ok g -> cleared_from g g' -> board_ok g'.
Proof.
  intros [_ Hcells] [Hw' Hcl]. split; [exact Hw'|]. intros r c.
  destruct (Hcl r c) as [(K1 & K2 & K3) | He]; [|left; exact He].
  destruct (Hcells r c) as [(A & B & C) | (A & B & C)]; [left | right];
    repeat split; try congruence; rewrite ?K1, ?K2, ?K3; try tauto.
Qed.

Lemma place_piece_session_ok (g : game) (d : disk) (o : write_outcome)
    (now : Z) (idx : nat) (piece : Piece) (x y : Z) (t : list nat) :
  session_ok g -> pieces g !! idx = Some piece -> can_place g piece x y = true ->
  session_ok (fst (fst (place_piece g d o now idx piece x y t))).
Proof.
  intros (Hb & Hl & Hf) Hidx Hc.
  destruct (place_piece_trace g d o now idx piece x y t)
    as (g6 & E & Hg & Hn & Hcol & Hp & _).
  rewrite E. simpl fst.
  assert (H6 : session_ok g6).
  { split.
    - eapply board_ok_ext; [symmetry; exact Hg | symmetry; exact Hn
                           | symmetry; exact Hcol |].
      apply stamp_board_ok; [exact Hb | | exact Hc].
      eapply Forall_lookup_1; eauto.
    - rewrite Hp, length_insert. split; [exact Hl|].
      apply Forall_insert; [exact Hf | apply generate_catalog]. }
  destruct (negb _); [|exact H6].
  eapply session_ok_ext; [| | | | exact H6]; reflexivity.
Qed.

Lemma clear_cell_session_fields (g : game) (xy : Z * Z) :
  session_fields (clear_cell g xy) = session_fields g.
Proof. destruct xy as [x y]. unfold clear_cell. destruct (negb _); reflexivity. Qed.

Lemma clear_cells_session_fields (cs : list (Z * Z)) (g : game) :
  session_fields (foldl clear_cell g cs) = session_fields g.
Proof.
  revert g. induction cs as [|xy cs IH]; intros g; simpl; [reflexivity|].
  rewrite IH. apply clear_cell_session_fields.
Qed.

Lemma anim_fold_session_fields (now : Z) (anims : list animation)
    (st : game * list animation) :
  session_fields (fst (foldl (anim_step now) st anims)) = session_fields (fst st).
Proof.
  revert st. induction anims as [|a anims IH]; intros st; simpl; [reflexivity|].
  rewrite IH. unfold anim_step. destruct (_ >? _); [|reflexivity].
  simpl. apply clear_cells_session_fields.
Qed.

(** update_animations leaves the fields that are neither board nor
    animation lists as they were. *)
Lemma update_animations_rest (g : game) (now : Z) :
  let g' := update_animations g now in
  pieces g' = pieces g ∧ score g' = score g ∧ best g' = best g
  ∧ game_over g' = game_over g ∧ paused g' = paused g
  ∧ timed_mode g' = timed_mode g ∧ start_time g' = start_time g
  ∧ selected g' = selected g ∧ dragging g' = dragging g.
Proof.
  unfold update_animations.
  pose proof (anim_fold_session_fields now (animations g) (g, [])) as H.
  destruct (foldl (anim_step now) (g, []) (animations g)) as [g1 dn].
  simpl in *. unfold session_fields, off_board in H.
  injection H as Hp Hsel Hdr Hsc Hbe Hgo Hst Hpo Hhy Han Hpa Hti Hlp Hcs.
  repeat split; assumption.
Qed.

Lemma update_session_ok (g : game) (now : Z) :
  session_ok g -> session_ok (update g now).
Proof.
  intros (Hb & Hl & Hf). unfold update.
  destruct (negb (paused g) && negb (game_over g));
    [|exact (conj Hb (conj Hl Hf))].
  destruct (update_animations_spec g now (proj1 Hb)) as [Hcl _].
  destruct (update_animations_rest g now) as (Hp & _).
  assert (H1 : session_ok (update_animations g now)).
  { split; [eapply cleared_board_ok; eauto|]. rewrite Hp. auto. }
  destruct (_ && _); [|exact H1].
  eapply session_ok_ext; [| | | | exact H1]; reflexivity.
Qed.

Lemma set_generator_state_twice (g : game) (a b c e : Z) :
  set_generator_state (set_generator_state g a b) c e = set_generator_state g c e.
Proof. reflexivity. Qed.

Lemma generate_n_spec (now : Z) (n : nat) :
  ∀ g t,
    let ps := fst (fst (generate_n g now n t)) in
    let g' := snd (fst (generate_n g now n t)) in
    length ps = n ∧ Forall catalog_piece ps
    ∧ Forall (fun p => placeable g p ∨ last_resort p) ps
    ∧ grid g' = grid g ∧ grid_nums g' = grid_nums g
    ∧ grid_colors g' = grid_colors g ∧ off_board g' = off_board g.
Proof.
  induction n as [|n IH]; intros g t; simpl.
  - repeat split; constructor.
  - unfold bind, ret.
    pose proof (generate_catalog g now 150 t) as Hcat.
    pose proof (generate_placeable_or_last_resort g now 150 t) as Hpl.
    destruct (generate_bookkeeping g now 150 t) as (c & Hg1).
    destruct (generate_placeable_piece g now 150 t) as [[p g1] t1].
    simpl in Hcat, Hpl, Hg1. subst g1.
    specialize (IH (set_generator_state g now c) t1).
    destruct (generate_n (set_generator_state g now c) now n t1) as [[ps g2] t2].
    simpl in IH. destruct IH as (Hl & Hf & Hp & Hg & Hn & Hc & Ho). simpl.
    split; [lia|]. split; [constructor; assumption|].
    split; [|repeat split; assumption].
    constructor; [exact Hpl|].
    eapply Forall_impl; [exact Hp|]. intros q [(x & y & Hq) | Hq]; [left | right; exact Hq].
    exists x, y. rewrite <- Hq. apply can_place_ext. reflexivity.
Qed.

Lemma empty_board_domino_fits (g : game) : grid g = empty_grid 0 -> domino_fits g.
Proof.
  intros Hg. exists 0, 0. rewrite Hg. repeat split; try lia; reflexivity.
Qed.

Lemma fresh_pieces (g : game) (now : Z) (t : list nat) :
  grid g = empty_grid 0 -> grid_nums g = empty_grid 0 ->
  grid_colors g = empty_grid None ->
  let ps := fst (fst (generate_n g now 3 t)) in
  let g' := snd (fst (generate_n g now 3 t)) in
  length ps = 3%nat ∧ Forall catalog_piece ps ∧ Forall (placeable g) ps
  ∧ grid g' = empty_grid 0 ∧ grid_nums g' = empty_grid 0
  ∧ grid_colors g' = empty_grid None ∧ off_board g' = off_board g.
Proof.
  intros Hg Hn Hc ps g'.
  destruct (generate_n_spec now 3 g t) as (Hl & Hf & Hp & Hg' & Hn' & Hc' & Ho).
  fold ps in Hl, Hf, Hp. fold g' in Hg', Hn', Hc', Ho.
  split; [exact Hl|]. split; [exact Hf|]. split; [|repeat split; congruence].
  eapply Forall_impl; [exact Hp|]. intros q [Hq | Hq]; [exact Hq|].
  apply last_resort_placeable; [apply empty_board_domino_fits, Hg | exact Hq].
Qed.

(** ** New and restarted sessions *)

Lemma BlockBlastGame_init_fresh (timed : bool) (d : disk) (now : Z) (t : list nat) :
  let g := fst (BlockBlastGame_init timed d now t) in
  fresh_session g now ∧ best g = load_best d ∧ timed_mode g = timed.
Proof.
  unfold BlockBlastGame_init, bind, ret.
  match goal with |- context [generate_n ?G now 3 t] => set (g0 := G) end.
  destruct (fresh_pieces g0 now t eq_refl eq_refl eq_refl)
    as (Hl & Hf & Hp & Hg & Hn & Hc & Ho).
  destruct (generate_n g0 now 3 t) as [[ps g1] t1]. simpl in *.
  unfold off_board in Ho.
  injection Ho as Hpi Hsel Hdr Hsc Hbe Hgo Hst Hpo Hhy Han Hpa Hti.
  unfold fresh_session. simpl.
  repeat split; try assumption.
  eapply Forall_impl; [exact Hp|]. intros q (x & y & Hq). exists x, y.
  rewrite <- Hq. apply can_place_ext. simpl. exact Hg.
Qed.

Lemma reset_fresh (g : game) (now : Z) (t : list nat) :
  let g' := fst (reset g now t) in
  fresh_session g' now ∧ best g' = best g ∧ timed_mode g' = timed_mode g.
Proof.
  unfold reset, bind, ret.
  match goal with |- context [generate_n ?G now 3 t] => set (g0 := G) end.
  destruct (fresh_pieces g0 now t eq_refl eq_refl eq_refl)
    as (Hl & Hf & Hp & Hg & Hn & Hc & Ho).
  destruct (generate_n g0 now 3 t) as [[ps g1] t1]. simpl in *.
  unfold off_board in Ho.
  injection Ho as Hpi Hsel Hdr Hsc Hbe Hgo Hst Hpo Hhy Han Hpa Hti.
  unfold fresh_session. simpl.
  repeat split; try assumption.
  eapply Forall_impl; [exact Hp|]. intros q (x & y & Hq). exists x, y.
  rewrite <- Hq. apply can_place_ext. simpl. exact Hg.
Qed.

(** X7: the constructor and reset() both yield a session with an empty
    board, score 0, nothing selected, no pending animation, not paused,
    not over, the clock restarted, and three pieces dealt from the catalog
    each of which can be placed on that board. The constructor takes best
    from the file and the mode from its argument; reset keeps both. *)
Theorem new_and_restarted_sessions_are_fresh :
  (∀ timed d now t,
     let g := fst (BlockBlastGame_init timed d now t) in
     fresh_session g now ∧ best g = load_best d ∧ timed_mode g = timed)
  ∧ (∀ g now t,
     let g' := fst (reset g now t) in
     fresh_session g' now ∧ best g' = best g ∧ timed_mode g' = timed_mode g).
Proof. split; [exact BlockBlastGame_init_fresh | exact reset_fresh]. Qed.

Lemma fresh_session_ok (g : game) (now : Z) : fresh_session g now -> session_ok g.
Proof.
  intros (Hg & Hn & Hc & _ & _ & _ & _ & _ & _ & _ & Hl & Hf & _).
  split; [apply empty_board_ok; assumption | auto].
Qed.

(** ** Clicks *)

Lemma handle_click_session_ok (g : game) (d : disk) (o : write_outcome) (now : Z)
    (mx my : Z) (t : list nat) :
  session_ok g ->
  session_ok (snd (fst (fst (handle_click g d o now mx my t)))).
Proof.
  intros Hok. unfold handle_click.
  destruct (game_over g); [exact Hok|].
  destruct (paused g); [exact Hok|].
  destruct (collidepoint restart_button mx my).
  { unfold bind, ret. pose proof (reset_fresh g now t) as (Hf & _).
    destruct (reset g now t) as [g' t']. simpl in *.
    eapply fresh_session_ok; eauto. }
  destruct (collidepoint quit_button mx my); [exact Hok|].
  destruct (collidepoint board_rect mx my).
  - destruct (dragging g); [|exact Hok].
    destruct (selected g) as [sel|]; [|exact Hok].
    destruct (pieces g !! sel) as [piece|] eqn:Ep; [|exact Hok].
    unfold bind, ret.
    set (gx := (mx - left board_rect) `div` CELL).
    set (gy := (my - top board_rect) `div` CELL).
    destruct (can_place g piece gx gy) eqn:Hc.
    + pose proof (place_piece_session_ok g d o now sel piece gx gy t Hok Ep Hc) as Hp.
      destruct (place_piece g d o now sel piece gx gy t) as [[g1 d1] t1].
      simpl in *. eapply session_ok_ext; [| | | | exact Hp]; reflexivity.
    + simpl. eapply session_ok_ext; [| | | | exact Hok]; reflexivity.
  - destruct (list_find _ _) as [[i j]|]; [|exact Hok].
    simpl. eapply session_ok_ext; [| | | | exact Hok]; reflexivity.
Qed.

(** ** The main loop *)

Lemma app_ok_keep (a : app) (m : Menu) (r : bool) (d : disk) :
  app_ok a -> app_ok (mkApp m (the_game a) r d).
Proof. intros Hok g Hg. apply Hok. exact Hg. Qed.

Lemma app_ok_none (m : Menu) (r : bool) (d : disk) : app_ok (mkApp m None r d).
Proof. intros g Hg. discriminate. Qed.

Lemma app_ok_some (m : Menu) (g : game) (r : bool) (d : disk) :
  session_ok g -> app_ok (mkApp m (Some g) r d).
Proof. intros Hok g' Hg. inversion Hg; subst. exact Hok. Qed.

Lemma on_event_app_ok (a : app) (e : env) (ev : event) :
  app_ok a -> app_ok (on_event a e ev).
Proof.
  intros Hok.
  destruct ev as [|button mx my|k|dy|]; simpl; try exact Hok.
  - destruct (button =? 1); [|exact Hok].
    destruct (active (menu a)).
    + destruct (menu_handle_click (menu a) mx my) as [chosen m'].
      destruct chosen; [|apply app_ok_keep, Hok].
      apply app_ok_some.
      pose proof (BlockBlastGame_init_fresh (menu_timed_mode m') (the_disk a)
                    (now e) (tape e)) as (Hf & _).
      eapply fresh_session_ok; eauto.
    + destruct (the_game a) as [g0|] eqn:Eg; [|exact Hok].
      pose proof (handle_click_session_ok g0 (the_disk a) (wr e) (now e) mx my (tape e)
                    (Hok g0 Eg)) as Hh.
      destruct (handle_click g0 (the_disk a) (wr e) (now e) mx my (tape e))
        as [[[res g'] d'] t'].
      simpl in *. destruct res; [apply app_ok_none | apply app_ok_some, Hh].
  - destruct k; try exact Hok.
    + destruct (the_game a); [|exact Hok].
      destruct (negb (active (menu a))); [apply app_ok_none | exact Hok].
    + destruct (the_game a) as [g0|] eqn:Eg; [|exact Hok].
      destruct (negb (active (menu a))); [|exact Hok].
      apply app_ok_some.
      eapply session_ok_ext; [| | | | exact (Hok g0 Eg)]; reflexivity.
Qed.

Lemma on_frame_app_ok (a : app) (e : env) : app_ok a -> app_ok (on_frame a e).
Proof.
  intros Hok. unfold on_frame.
  destruct (active (menu a)); [exact Hok|].
  destruct (the_game a) as [g0|] eqn:Eg; [|exact Hok].
  apply app_ok_some, update_session_ok, Hok, Eg.
Qed.

Lemma loop_body_app_ok (a : app) (f : frame) : app_ok a -> app_ok (loop_body a f).
Proof.
  intros Hok. unfold loop_body. apply on_frame_app_ok.
  generalize (fst f). intros evs. revert a Hok.
  induction evs as [|ee evs IH]; intros a Hok; simpl; [exact Hok|].
  apply IH, on_event_app_ok, Hok.
Qed.

Lemma main_app_ok (frames : list frame) (a : app) :
  app_ok a -> app_ok (main a frames).
Proof.
  revert a. induction frames as [|f frames IH]; intros a Hok; simpl; [exact Hok|].
  destruct (running a); [|exact Hok]. apply IH, loop_body_app_ok, Hok.
Qed.

(** X8: every session the main loop can reach from the menu has a 7x7
    board on which each cell is either empty (occupied = false, value 0,
    no colour) or occupied with a value of 1..5 and a colour, and holds
    exactly three pieces dealt from the catalog. *)
Theorem reachable_sessions_are_sound (g : game) : reachable g -> session_ok g.
Proof.
  intros (d & frames & H).
  apply (main_app_ok frames (app_init d)); [|exact H].
  intros g0 Hg0. discriminate.
Qed.

Lemma reachable_sessions_are_sound_witness : session_ok checker_game.
Proof.
  apply reachable_sessions_are_sound.
  exists Missing, checker_frames. vm_compute. reflexivity.
Defined.

(** ** What a click can change *)

(** X9: a click on a session that is over only asks for the menu, and a
    click on a paused session does nothing. Otherwise, unless the click
    is on RESTART or drops the dragged piece at a legal origin, it leaves
    the board, the held pieces, score, best, the game-over flag and the
    best-score file untouched; a drop on the board that fails can_place
    only ends the drag. *)
Theorem handle_click_changes_board_only_by_legal_drop (g : game) (d : disk)
    (o : write_outcome) (now : Z) (mx my : Z) (t : list nat) :
  let r := fst (handle_click g d o now mx my t) in
  let g' := snd (fst r) in
  (game_over g = true -> r = (ToMenu, g, d))
  ∧ (game_over g = false -> paused g = true -> r = (NoResult, g, d))
  ∧ (collidepoint restart_button mx my = false -> ¬ legal_drop g mx my ->
     grid g' = grid g ∧ grid_nums g' = grid_nums g ∧ grid_colors g' = grid_colors g
     ∧ pieces g' = pieces g ∧ score g' = score g ∧ best g' = best g
     ∧ game_over g' = game_over g ∧ snd r = d)
  ∧ (∀ sel piece,
       game_over g = false -> paused g = false ->
       collidepoint restart_button mx my = false ->
       collidepoint quit_button mx my = false ->
       collidepoint board_rect mx my = true -> dragging g = true ->
       selected g = Some sel -> pieces g !! sel = Some piece ->
       can_place g piece ((mx - 18) `div` 88) ((my - 18) `div` 88) = false ->
       r = (NoResult, set_selected (set_dragging g false) None, d)).
Proof.
  intros r g'. subst g' r. unfold handle_click, legal_drop.
  change (left board_rect) with 18. change (top board_rect) with 18.
  change CELL with 88.
  split; [intros ->; reflexivity|].
  split; [intros -> ->; reflexivity|].
  split.
  - intros Hre Hnot. rewrite Hre.
    destruct (game_over g) eqn:Hgo; [repeat split; exact Hgo|].
    destruct (paused g) eqn:Hpa; [repeat split; exact Hgo|].
    destruct (collidepoint quit_button mx my); [repeat split; exact Hgo|].
    destruct (collidepoint board_rect mx my).
    + destruct (dragging g); [|repeat split; exact Hgo].
      destruct (selected g) as [sel|]; [|repeat split; exact Hgo].
      destruct (pieces g !! sel) as [piece|] eqn:Ep; [|repeat split; exact Hgo].
      destruct (can_place g piece ((mx - 18) `div` 88) ((my - 18) `div` 88)) eqn:Hc.
      * exfalso. apply Hnot. repeat split. exists sel, piece. auto.
      * unfold bind, ret. simpl. repeat split; exact Hgo.
    + destruct (list_find _ _) as [[i j]|]; simpl; repeat split; exact Hgo.
  - intros sel piece -> -> -> -> -> -> -> -> ->. reflexivity.
Qed.

Lemma handle_click_changes_board_only_by_legal_drop_witness :
  let g := set_dragging (set_selected nearly_full (Some 0%nat)) true in
  fst (handle_click g Missing WriteOk 0 200 200 [])
  = (NoResult, set_selected (set_dragging g false) None, Missing).
Proof.
  intros g.
  pose proof (handle_click_changes_board_only_by_legal_drop g Missing WriteOk 0 200 200 [])
    as (_ & _ & _ & H).
  apply (H 0%nat (mkPiece [[3]] 1 1 0)); reflexivity.
Defined.

(** ** The frame update *)

(** X10: update(dt) does nothing at all while the session is paused or
    over. Otherwise, in relaxed mode it never ends the session; in timed
    mode it ends it once the clock reads more than TIMER_SECONDS past the
    start, and leaves it running while the clock reads less than
    TIMER_SECONDS past the start. Clock readings are whole milliseconds
    here, and nothing is said of the reading exactly TIMER_SECONDS past
    the start, where the rounding of the float subtraction decides. *)
Theorem update_ends_session_only_by_timer (g : game) (now : Z) :
  (paused g = true ∨ game_over g = true -> update g now = g)
  ∧ (paused g = false -> game_over g = false -> timed_mode g = false ->
     game_over (update g now) = false)
  ∧ (paused g = false -> game_over g = false -> timed_mode g = true ->
     now - start_time g > TIMER_SECONDS -> game_over (update g now) = true)
  ∧ (paused g = false -> game_over g = false ->
     now - start_time g < TIMER_SECONDS -> game_over (update g now) = false).
Proof.
  unfold update. split; [|split; [|split]].
  - intros [-> | ->]; [reflexivity | rewrite andb_false_r; reflexivity].
  - intros Hpa Hgo0 Hrel. rewrite Hpa, Hgo0. simpl.
    destruct (update_animations_rest g now) as (_ & _ & _ & Hgo & _ & Hti & Hst & _).
    rewrite Hti, Hrel. simpl. rewrite Hgo. exact Hgo0.
  - intros Hpa Hgo0 Htm Hlate. rewrite Hpa, Hgo0. simpl.
    destruct (update_animations_rest g now) as (_ & _ & _ & Hgo & _ & Hti & Hst & _).
    rewrite Hti, Hst, Htm.
    destruct (Z.gtb_spec (now - start_time g) TIMER_SECONDS); [reflexivity | lia].
  - intros Hpa Hgo0 Hearly. rewrite Hpa, Hgo0. simpl.
    destruct (update_animations_rest g now) as (_ & _ & _ & Hgo & _ & Hti & Hst & _).
    rewrite Hti, Hst.
    destruct (Z.gtb_spec (now - start_time g) TIMER_SECONDS); [lia|].
    rewrite andb_false_r, Hgo. exact Hgo0.
Qed.

Lemma update_ends_session_only_by_timer_witness :
  game_over (update (fst (BlockBlastGame_init true Missing 0 [])) 180001) = true
  ∧ game_over (update (fst (BlockBlastGame_init true Missing 0 [])) 179999) = false
  ∧ game_over (update (fst (BlockBlastGame_init false Missing 0 [])) 180001) = false.
Proof.
  split; [|split].
  - destruct (update_ends_session_only_by_timer
                (fst (BlockBlastGame_init true Missing 0 [])) 180001) as (_ & _ & H & _).
    apply H; [reflexivity | reflexivity | reflexivity | vm_compute; reflexivity].
  - destruct (update_ends_session_only_by_timer
                (fst (BlockBlastGame_init true Missing 0 [])) 179999) as (_ & _ & _ & H).
    apply H; [reflexivity | reflexivity | vm_compute; reflexivity].
  - destruct (update_ends_session_only_by_timer
                (fst (BlockBlastGame_init false Missing 0 [])) 180001) as (_ & H & _).
    apply H; reflexivity.
Defined.

(** ** What update_animations removes and resets *)

Lemma list_remove_app_notin {A} `{EqDecision A} (d : A) (pre l : list A) :
  d ∉ pre -> list_remove d (pre ++ d :: l) = pre ++ l.
Proof.
  induction pre as [|a pre IH]; intros Hn; simpl.
  - rewrite decide_True by reflexivity. reflexivity.
  - rewrite decide_False.
    + f_equal. apply IH. intros Hin. apply Hn. apply list_elem_of_further, Hin.
    + intros ->. apply Hn. apply list_elem_of_here.
Qed.

Lemma remove_done_anims (P : animation -> Prop) `{∀ a, Decision (P a)}
    (l pre : list animation) :
  Forall (fun a => ¬ P a) pre ->
  foldl (fun l' d => list_remove d l') (pre ++ l) (filter P l)
  = pre ++ filter (fun a => ¬ P a) l.
Proof.
  revert pre. induction l as [|a l IH]; intros pre Hpre.
  - reflexivity.
  - destruct (decide (P a)) as [Hp | Hn].
    + rewrite (filter_cons_True P a l Hp).
      rewrite (filter_cons_False (fun a => ¬ P a) a l) by tauto.
      cbn [foldl]. rewrite list_remove_app_notin.
      * apply IH, Hpre.
      * intros Hin. rewrite Forall_forall in Hpre. exact (Hpre a Hin Hp).
    + rewrite (filter_cons_False P a l Hn).
      rewrite (filter_cons_True (fun a => ¬ P a) a l Hn).
      replace (pre ++ a :: l) with ((pre ++ [a]) ++ l)
        by (rewrite <- app_assoc; reflexivity).
      rewrite IH.
      * rewrite <- app_assoc. reflexivity.
      * apply Forall_app. split; [exact Hpre | repeat constructor; exact Hn].
Qed.

Lemma anim_fold_done (now : Z) (anims : list animation) (st : game * list animation) :
  snd (foldl (anim_step now) st anims) = snd st ++ filter (expired now) anims.
Proof.
  revert st. induction anims as [|a anims IH]; intros st; cbn [foldl].
  - rewrite app_nil_r. reflexivity.
  - rewrite IH. unfold anim_step, expired.
    destruct (Z.gtb_spec (now - start a) CLEAR_ANIM) as [Hgt | Hle]; simpl.
    + rewrite filter_cons_True by lia. rewrite <- app_assoc. reflexivity.
    + rewrite filter_cons_False by lia. reflexivity.
Qed.

Lemma clear_cells_keep (cs : list (Z * Z)) (g : game) (r c : Z) :
  well_formed g -> (c, r) ∉ cs -> cell_kept g (foldl clear_cell g cs) r c.
Proof.
  revert g. induction cs as [|[x y] cs IH]; intros g Hw Hn; simpl.
  - apply cell_kept_refl.
  - destruct (clear_cell_spec g x y Hw) as [[Hw1 _] _].
    eapply cell_kept_trans; [|apply IH; [exact Hw1|]].
    + unfold clear_cell. destruct (negb _); [|apply cell_kept_refl].
      assert (Hne : (y, x) ≠ (r, c)).
      { intros E. inversion E; subst. apply Hn. apply list_elem_of_here. }
      repeat split; simpl.
      * rewrite !at2_get2, get2_set2_ne by exact Hne. reflexivity.
      * rewrite !at2_get2, get2_set2_ne by exact Hne. reflexivity.
      * unfold color_at. rewrite get2_set2_ne by exact Hne. reflexivity.
    + intros Hin. apply Hn. apply list_elem_of_further, Hin.
Qed.

Lemma anim_fold_keep (now : Z) (anims : list animation) (st : game * list animation)
    (r c : Z) :
  well_formed (fst st) ->
  (∀ a, a ∈ anims -> expired now a -> (c, r) ∉ cells a) ->
  cell_kept (fst st) (fst (foldl (anim_step now) st anims)) r c.
Proof.
  revert st. induction anims as [|a anims IH]; intros st Hw Hn; cbn [foldl].
  - apply cell_kept_refl.
  - assert (Hstep : well_formed (fst (anim_step now st a))
                    ∧ cell_kept (fst st) (fst (anim_step now st a)) r c).
    { unfold anim_step, expired in *.
      destruct (Z.gtb_spec (now - start a) CLEAR_ANIM); simpl.
      - destruct (clear_cells_spec (cells a) (fst st) Hw) as [[Hw1 _] _].
        split; [exact Hw1|]. apply clear_cells_keep; [exact Hw|].
        apply Hn; [apply list_elem_of_here | lia].
      - split; [exact Hw | apply cell_kept_refl]. }
    destruct Hstep as [Hw1 Hk].
    eapply cell_kept_trans; [exact Hk|]. apply IH; [exact Hw1|].
    intros b Hb. apply Hn. apply list_elem_of_further, Hb.
Qed.

Lemma filter_off_threshold (now : Z) (l : list animation) :
  Forall (fun a => now - start a ≠ CLEAR_ANIM) l ->
  filter (fun a => ¬ expired now a) l
  = filter (fun a => now - start a < CLEAR_ANIM) l.
Proof.
  induction 1 as [|a l Ha _ IH]; [reflexivity|].
  rewrite !filter_cons, IH. unfold expired.
  destruct (decide (¬ now - start a > CLEAR_ANIM));
    destruct (decide (now - start a < CLEAR_ANIM)); try reflexivity; lia.
Qed.

(** X11: when no pending animation is exactly CLEAR_ANIM old (clock
    readings in whole milliseconds), update_animations keeps, in order,
    exactly the animations younger than CLEAR_ANIM and drops every older
    one; and on a 7x7 board it leaves alone every cell that is listed
    only in animations younger than CLEAR_ANIM, or in none. *)
Theorem update_animations_drops_expired (g : game) (now : Z) :
  off_threshold g now ->
  animations (update_animations g now)
  = filter (fun a => now - start a < CLEAR_ANIM) (animations g)
  ∧ (∀ a, a ∈ animations g -> now - start a > CLEAR_ANIM ->
       a ∉ animations (update_animations g now))
  ∧ (well_formed g ->
     ∀ r c, (∀ a, a ∈ animations g -> (c, r) ∈ cells a ->
               now - start a < CLEAR_ANIM) ->
            cell_kept g (update_animations g now) r c).
Proof.
  intros Hoff.
  assert (Han' : animations (update_animations g now)
                 = filter (fun a => now - start a < CLEAR_ANIM) (animations g)).
  { rewrite <- (filter_off_threshold now (animations g) Hoff).
    unfold update_animations.
    pose proof (anim_fold_done now (animations g) (g, [])) as Hdone.
    pose proof (anim_fold_session_fields now (animations g) (g, [])) as Hf.
    destruct (foldl (anim_step now) (g, []) (animations g)) as [g1 dn].
    simpl in Hdone, Hf. subst dn.
    unfold session_fields, off_board in Hf.
    injection Hf as Hp Hsel Hdr Hsc Hbe Hgo Hst Hpo Hhy Han Hpa Hti Hlp Hcs.
    simpl. rewrite Han.
    apply (remove_done_anims (expired now) (animations g) []). constructor. }
  split; [exact Han'|]. split.
  - intros a _ Hold Hin. rewrite Han' in Hin.
    apply list_elem_of_filter in Hin as [Hyoung _]. lia.
  - intros Hw r c Hn. unfold update_animations.
    pose proof (anim_fold_keep now (animations g) (g, [])) as Hkeep.
    destruct (foldl (anim_step now) (g, []) (animations g)) as [g1 dn].
    simpl in Hkeep. simpl. apply (Hkeep r c Hw).
    intros a Ha Hexp Hin. unfold expired in Hexp.
    specialize (Hn a Ha Hin). lia.
Qed.

Lemma update_animations_drops_expired_witness :
  let g := snd (fst (check_and_animate (board_with_row [5; 5; 5; 5; 3; 1; 1]) 0 [])) in
  animations (update_animations g 451) = []
  ∧ animations (update_animations g 449) = animations g.
Proof.
  intros g.
  assert (H1 : off_threshold g 451).
  { unfold off_threshold. repeat constructor. vm_compute. discriminate. }
  assert (H2 : off_threshold g 449).
  { unfold off_threshold. repeat constructor. vm_compute. discriminate. }
  split.
  - rewrite (proj1 (update_animations_drops_expired g 451 H1)). reflexivity.
  - rewrite (proj1 (update_animations_drops_expired g 449 H2)). reflexivity.
Defined.

(** ** The menu *)

Lemma buttons_rects :
  map fst buttons
  = [timed_button; relaxed_button; mkRect 465 406 200 50; mkRect 465 466 200 50].
Proof. reflexivity. Qed.

Lemma timed_relaxed_disjoint (mx my : Z) :
  collidepoint timed_button mx my = true ->
  collidepoint relaxed_button mx my = false.
Proof.
  unfold collidepoint, timed_button, relaxed_button, right, bottom. simpl. lia.
Qed.

Lemma menu_handle_click_spec (m : Menu) (mx my : Z) :
  let chosen := fst (menu_handle_click m mx my) in
  let m' := snd (menu_handle_click m mx my) in
  (chosen = true ↔ starts_session m mx my)
  ∧ (chosen = true ->
     active m' = false ∧ menu_timed_mode m' = collidepoint timed_button mx my)
  ∧ (chosen = false ->
     active m' = active m ∧ menu_timed_mode m' = menu_timed_mode m).
Proof.
  unfold menu_handle_click, starts_session.
  destruct (showing_credits m) eqn:Hc; simpl.
  { destruct (collidepoint back_button mx my); simpl;
      (split; [split; [discriminate | intros (? & _); discriminate]|]);
      split; (discriminate || auto). }
  destruct (showing_mechanics m) eqn:Hm; simpl.
  { destruct (collidepoint back_button mx my); simpl;
      (split; [split; [discriminate | intros (_ & ? & _); discriminate]|]);
      split; (discriminate || auto). }
  change (mkRect (WIDTH `div` 2 - 100) (HEIGHT `div` 2 - 40) 200 50) with timed_button.
  change (mkRect (WIDTH `div` 2 - 100) (HEIGHT `div` 2 + 20) 200 50) with relaxed_button.
  destruct (collidepoint timed_button mx my) eqn:Ht.
  { rewrite decide_True by reflexivity. simpl.
    split; [split; auto|]. split; [auto | discriminate]. }
  rewrite decide_False by discriminate.
  destruct (collidepoint relaxed_button mx my) eqn:Hr.
  { rewrite decide_True by reflexivity. simpl.
    split; [split; auto|]. split; [auto | discriminate]. }
  rewrite decide_False by discriminate.
  assert (Hno : ¬ (false = false ∧ false = false ∧ (false = true ∨ false = true)))
    by (intros (_ & _ & [? | ?]); discriminate).
  repeat case_decide; simpl;
    (split; [split; [discriminate | intros Hx; exfalso; exact (Hno Hx)]|]);
    split; (discriminate || auto).
Qed.

Lemma on_event_menu_or_session (a : app) (e : env) (ev : event) :
  menu_or_session a -> menu_or_session (on_event a e ev).
Proof.
  unfold menu_or_session. intros Hinv.
  destruct ev as [|button mx my|k|dy|]; simpl; try exact Hinv.
  - destruct (button =? 1); [|exact Hinv].
    destruct (active (menu a)) eqn:Ha.
    + destruct (menu_handle_click_spec (menu a) mx my) as (_ & Hyes & Hno).
      destruct (menu_handle_click (menu a) mx my) as [chosen m']. simpl in *.
      destruct chosen; simpl.
      * destruct (Hyes eq_refl) as [-> _]. split; discriminate.
      * destruct (Hno eq_refl) as [-> _]. rewrite Ha. exact Hinv.
    + destruct (the_game a) as [g0|] eqn:Eg; [|rewrite Ha, Eg; exact Hinv].
      destruct (handle_click g0 (the_disk a) (wr e) (now e) mx my (tape e))
        as [[[res g'] d'] t'].
      simpl. destruct res; simpl; [tauto|]. rewrite Ha. split; discriminate.
  - destruct k; try exact Hinv.
    + destruct (the_game a) as [g0|] eqn:Eg; [|rewrite Eg; exact Hinv].
      destruct (active (menu a)) eqn:Ha; simpl.
      * rewrite Ha, Eg. exact Hinv.
      * tauto.
    + destruct (the_game a) as [g0|] eqn:Eg; [|rewrite Eg; exact Hinv].
      destruct (active (menu a)) eqn:Ha; simpl.
      * rewrite Ha, Eg. exact Hinv.
      * rewrite Ha. split; discriminate.
Qed.

Lemma on_frame_menu_or_session (a : app) (e : env) :
  menu_or_session a -> menu_or_session (on_frame a e).
Proof.
  unfold menu_or_session, on_frame. intros Hinv.
  destruct (active (menu a)) eqn:Ha; [rewrite Ha; exact Hinv|].
  destruct (the_game a) as [g0|] eqn:Eg; [|rewrite Ha, Eg; exact Hinv].
  simpl. rewrite Ha. split; discriminate.
Qed.

Lemma main_menu_or_session (frames : list frame) (a : app) :
  menu_or_session a -> menu_or_session (main a frames).
Proof.
  revert a. induction frames as [|f frames IH]; intros a Hinv; simpl; [exact Hinv|].
  destruct (running a); [|exact Hinv]. apply IH. unfold loop_body.
  apply on_frame_menu_or_session.
  generalize (fst f). intros evs. revert a Hinv.
  induction evs as [|ee evs IHe]; intros a Hinv; simpl; [exact Hinv|].
  apply IHe, on_event_menu_or_session, Hinv.
Qed.

(** X12: in every state main() can reach, the menu is active exactly when
    there is no session: a session exists only while the menu is hidden,
    and returning to the menu discards it. *)
Theorem menu_active_iff_no_session (d : disk) (frames : list frame) :
  let a := main (app_init d) frames in
  active (menu a) = true ↔ the_game a = None.
Proof.
  apply main_menu_or_session. unfold menu_or_session. simpl. tauto.
Qed.

(** X13: from the menu with no session, an event creates a session exactly
    when it is a left click on TIMED MODE or RELAXED MODE while neither
    the credits nor the mechanics page is shown; the session is then
    fresh, timed exactly when the click was on TIMED MODE, with best read
    from the file, and the menu is hidden. *)
Theorem session_starts_by_mode_click (a : app) (e : env) (ev : event) :
  active (menu a) = true -> the_game a = None ->
  let a' := on_event a e ev in
  (is_Some (the_game a') ↔
   ∃ mx my, ev = MOUSEBUTTONDOWN 1 mx my ∧ starts_session (menu a) mx my)
  ∧ (∀ g mx my, ev = MOUSEBUTTONDOWN 1 mx my -> the_game a' = Some g ->
       active (menu a') = false
       ∧ fresh_session g (now e)
       ∧ timed_mode g = collidepoint timed_button mx my
       ∧ best g = load_best (the_disk a)).
Proof.
  intros Ha Hg a'. subst a'.
  destruct ev as [|button mx my|k|dy|]; simpl.
  - rewrite Hg. split; [split; [intros [? ?]; discriminate
                               | intros (? & ? & ? & _); discriminate]
                       | intros; discriminate].
  - destruct (Z.eqb_spec button 1) as [-> | Hb].
    + rewrite Ha.
      destruct (menu_handle_click_spec (menu a) mx my) as (Hiff & Hyes & Hno).
      destruct (menu_handle_click (menu a) mx my) as [chosen m']. simpl in *.
      destruct chosen; simpl.
      * destruct (Hyes eq_refl) as [Hact Htm].
        split.
        -- split; [intros _; exists mx, my; split; [reflexivity | apply Hiff; reflexivity]
                  | eauto].
        -- intros g mx' my' E Hs. inversion E; subst mx' my'.
           inversion Hs; subst g. clear Hs E.
           destruct (BlockBlastGame_init_fresh (menu_timed_mode m') (the_disk a)
                       (now e) (tape e)) as (Hf & Hbest & Htimed).
           repeat split; try assumption; try apply Hf. congruence.
      * rewrite Hg. split.
        -- split; [intros [? ?]; discriminate|].
           intros (mx' & my' & E & Hs). inversion E; subst.
           apply Hiff in Hs. discriminate.
        -- intros; discriminate.
    + rewrite Hg. split.
      * split; [intros [? ?]; discriminate|].
        intros (mx' & my' & E & _). inversion E; subst. contradiction.
      * intros; discriminate.
  - destruct k; rewrite ?Hg; simpl; rewrite ?Hg;
      (split; [split; [intros [? ?]; discriminate
                      | intros (? & ? & ? & _); discriminate]
              | intros; discriminate]).
  - rewrite Hg. split; [split; [intros [? ?]; discriminate
                               | intros (? & ? & ? & _); discriminate]
                       | intros; discriminate].
  - rewrite Hg. split; [split; [intros [? ?]; discriminate
                               | intros (? & ? & ? & _); discriminate]
                       | intros; discriminate].
Qed.

Lemma session_starts_by_mode_click_witness :
  let a' := on_event (app_init Missing) (mkEnv 0 [] WriteOk)
                     (MOUSEBUTTONDOWN 1 500 360) in
  is_Some (the_game a').
Proof.
  intros a'.
  apply (session_starts_by_mode_click (app_init Missing) (mkEnv 0 [] WriteOk)
           (MOUSEBUTTONDOWN 1 500 360) eq_refl eq_refl).
  exists 500, 360. split; [reflexivity|].
  split; [reflexivity|]. split; [reflexivity|]. right. reflexivity.
Defined.

(** ** Saving and reloading the best score *)

Lemma lstrip_no_space (s : string) : no_space s = true -> lstrip s = s.
Proof.
  destruct s as [|c s]; [reflexivity|]. simpl. intros H.
  apply andb_true_iff in H as [Hc _]. destruct (is_space c); [discriminate | reflexivity].
Qed.

Lemma no_space_rev_app (s1 s2 : string) :
  no_space (String.rev_app s1 s2) = no_space s1 && no_space s2.
Proof.
  revert s2. induction s1 as [|c s1 IH]; intros s2; simpl; [reflexivity|].
  rewrite IH. simpl. destruct (is_space c), (no_space s1); reflexivity.
Qed.

Lemma rev_app_rev_app (s1 s2 s3 : string) :
  String.rev_app (String.rev_app s1 s2) s3 = String.rev_app s2 (s1 +:+ s3).
Proof.
  revert s2 s3. induction s1 as [|c s1 IH]; intros s2 s3; simpl; [reflexivity|].
  rewrite IH. reflexivity.
Qed.

Lemma string_app_empty (s : string) : s +:+ "" = s.
Proof.
  induction s as [|c s IH]; [reflexivity|].
  change (String c (s +:+ "") = String c s). f_equal. exact IH.
Qed.

Lemma strip_no_space (s : string) : no_space s = true -> strip s = s.
Proof.
  intros H. unfold strip, rstrip. rewrite (lstrip_no_space s H).
  rewrite lstrip_no_space.
  - unfold String.rev. rewrite rev_app_rev_app. simpl. apply string_app_empty.
  - unfold String.rev. rewrite no_space_rev_app, H. reflexivity.
Qed.

Lemma pretty_N_char_digit (x : N) :
  (x < 10)%N ->
  digit_of (pretty_N_char x) = Some (Z.of_N x)
  ∧ is_space (pretty_N_char x) = false.
Proof.
  intros H.
  assert (x = 0 ∨ x = 1 ∨ x = 2 ∨ x = 3 ∨ x = 4 ∨ x = 5 ∨ x = 6 ∨ x = 7 ∨ x = 8 ∨ x = 9)%N
    as Hx by lia.
  repeat (destruct Hx as [-> | Hx]; [split; reflexivity|]). subst. split; reflexivity.
Qed.

Lemma no_space_pretty_N_go (x : N) (s : string) :
  no_space (pretty_N_go x s) = no_space s.
Proof.
  revert s. induction (N.lt_wf_0 x) as [x _ IH]; intros s.
  destruct (decide (x = 0)%N) as [-> | Hx]; [reflexivity|].
  rewrite pretty_N_go_step by lia. rewrite IH by (apply N.div_lt; lia).
  simpl. destruct (pretty_N_char_digit (x `mod` 10)%N) as [_ Hs];
    [apply N.mod_lt; lia|]. rewrite Hs. reflexivity.
Qed.

Lemma digits_pretty_N_go (x : N) :
  ∀ s acc prev, (0 < x)%N ->
    ∃ m, digits (pretty_N_go x s) acc prev = digits s (acc * m + Z.of_N x) true.
Proof.
  induction (N.lt_wf_0 x) as [x _ IH]; intros s acc prev Hx.
  rewrite pretty_N_go_step by exact Hx.
  destruct (pretty_N_char_digit (x `mod` 10)%N) as [Hd _]; [apply N.mod_lt; lia|].
  pose proof (N.div_mod x 10 ltac:(lia)) as Hdm.
  destruct (decide (x `div` 10 = 0)%N) as [E | E].
  - rewrite E, pretty_N_go_0. simpl. rewrite Hd. exists 10. f_equal. lia.
  - assert (Hlt : (x `div` 10 < x)%N) by (apply N.div_lt; lia).
    assert (Hpos : (0 < x `div` 10)%N) by (apply N.neq_0_lt_0; exact E).
    destruct (IH (x `div` 10)%N Hlt
                 (String (pretty_N_char (x `mod` 10)) s) acc prev Hpos)
      as (m & Hm).
    rewrite Hm. simpl. rewrite Hd. exists (10 * m). f_equal. lia.
Qed.

Lemma pretty_N_go_head (x : N) (s : string) :
  (0 < x)%N ->
  ∃ c rest, pretty_N_go x s = String c rest ∧ is_Some (digit_of c).
Proof.
  revert s. induction (N.lt_wf_0 x) as [x _ IH]; intros s Hx.
  rewrite pretty_N_go_step by exact Hx.
  destruct (pretty_N_char_digit (x `mod` 10)%N) as [Hd _]; [apply N.mod_lt; lia|].
  destruct (decide (x `div` 10 = 0)%N) as [E | E].
  - rewrite E, pretty_N_go_0. eauto.
  - apply IH; [apply N.div_lt; lia | apply N.neq_0_lt_0; exact E].
Qed.

Lemma digit_not_sign (c : Ascii.ascii) :
  is_Some (digit_of c) ->
  Ascii.eqb c (Ascii.ascii_of_nat 45) = false
  ∧ Ascii.eqb c (Ascii.ascii_of_nat 43) = false.
Proof.
  unfold digit_of. intros [v Hv].
  destruct ((48 <=? Ascii.nat_of_ascii c) && (Ascii.nat_of_ascii c <=? 57))%nat eqn:E;
    [|discriminate].
  split.
  - destruct (Ascii.eqb_spec c (Ascii.ascii_of_nat 45)) as [-> | _]; [|reflexivity].
    vm_compute in E. discriminate.
  - destruct (Ascii.eqb_spec c (Ascii.ascii_of_nat 43)) as [-> | _]; [|reflexivity].
    vm_compute in E. discriminate.
Qed.

Lemma py_int_pretty_pos (p : positive) :
  py_int (pretty (N.pos p)) = Ok (Z.pos p)
  ∧ no_space (pretty (N.pos p)) = true
  ∧ digits (pretty (N.pos p)) 0 false = Some (Z.pos p).
Proof.
  unfold pretty, pretty_N. rewrite decide_False by discriminate.
  assert (Hns : no_space (pretty_N_go (N.pos p) "") = true)
    by (rewrite no_space_pretty_N_go; reflexivity).
  destruct (digits_pretty_N_go (N.pos p) "" 0 false ltac:(lia)) as (m & Hm).
  simpl in Hm.
  split; [|split; [exact Hns | exact Hm]].
  unfold py_int. rewrite (strip_no_space _ Hns).
  destruct (pretty_N_go_head (N.pos p) "" ltac:(lia)) as (c & rest & E & Hc).
  rewrite E in *. destruct (digit_not_sign c Hc) as [H1 H2].
  rewrite H1, H2, Hm. reflexivity.
Qed.

Lemma py_int_pretty (b : Z) : py_int (or_zero (strip (pretty b))) = Ok b.
Proof.
  destruct b as [|p|p].
  - reflexivity.
  - change (pretty (Z.pos p)) with (pretty (N.pos p)).
    destruct (py_int_pretty_pos p) as (Hi & Hns & _).
    rewrite (strip_no_space _ Hns).
    destruct (pretty (N.pos p)) as [|c s] eqn:E; [|exact Hi].
    vm_compute in Hi. discriminate.
  - change (pretty (Z.neg p)) with (String (Ascii.ascii_of_nat 45) (pretty (N.pos p))).
    destruct (py_int_pretty_pos p) as (_ & Hns & Hd).
    assert (Hns' : no_space (String (Ascii.ascii_of_nat 45) (pretty (N.pos p))) = true)
      by (simpl; rewrite Hns; reflexivity).
    rewrite (strip_no_space _ Hns'). simpl or_zero.
    unfold py_int. rewrite (strip_no_space _ Hns').
    rewrite Ascii.eqb_refl, Hd. reflexivity.
Qed.

(** X14: what save_best writes, load_best reads back: for a best within
    what str() prints and int() parses (fewer than 4301 digits), after a
    successful write the file holds the decimal text of best, and
    load_best on that file returns best again. *)
Theorem saved_best_is_loaded_back (g : game) (d : disk) :
  printable (best g) ->
  snd (save_best g d WriteOk) = Holds (pretty (best g))
  ∧ load_best (snd (save_best g d WriteOk)) = best g.
Proof.
  intros _.
  assert (H : ∀ b, load_best (Holds (pretty b)) = b).
  { intros b. unfold load_best, load_best_try. rewrite py_int_pretty. reflexivity. }
  split; [reflexivity | apply H].
Qed.

Lemma saved_best_is_loaded_back_witness :
  snd (save_best (set_best blank_game 105) Missing WriteOk) = Holds "105"
  ∧ load_best (snd (save_best (set_best blank_game 105) Missing WriteOk)) = 105.
Proof.
  assert (Hp : printable (best (set_best blank_game 105))).
  { unfold printable. vm_compute. reflexivity. }
  destruct (saved_best_is_loaded_back (set_best blank_game 105) Missing Hp) as [H1 H2].
  split; [rewrite H1; vm_compute; reflexivity | exact H2].
Defined.

(** ** The bias of the fill values *)

Lemma Qle_bool_avg_low (s : Z) (p : positive) :
  Qle_bool (7 # 2) (inject_Z s / inject_Z (Z.pos p)) = true ↔ 7 * Z.pos p <= 2 * s.
Proof.
  rewrite Qle_bool_iff. unfold Qle, Qdiv, Qmult, Qinv, inject_Z. simpl. lia.
Qed.

Lemma Qle_bool_avg_high (s : Z) (p : positive) :
  Qle_bool (inject_Z s / inject_Z (Z.pos p)) (2 # 1) = true ↔ s <= 2 * Z.pos p.
Proof.
  rewrite Qle_bool_iff. unfold Qle, Qdiv, Qmult, Qinv, inject_Z. simpl. lia.
Qed.

(** X15: choose_bias_from_board is 'neutral' on a board without values;
    otherwise, with s the sum and n the number of the non-zero values on
    the board, it is 'low' exactly when 2s >= 7n (mean at least 3.5),
    'high' exactly when s <= 2n (mean at most 2), and 'neutral' in
    between. *)
Theorem choose_bias_thresholds (g : game) :
  let s := zsum (board_vals g) in
  let n := len (board_vals g) in
  (board_vals g = [] -> choose_bias_from_board g = neutral)
  ∧ (board_vals g ≠ [] ->
     (choose_bias_from_board g = low ↔ 7 * n <= 2 * s)
     ∧ (choose_bias_from_board g = high ↔ s <= 2 * n)
     ∧ (choose_bias_from_board g = neutral ↔ 2 * n < s ∧ 2 * s < 7 * n)).
Proof.
  intros s n. unfold choose_bias_from_board, board_average. subst s n.
  destruct (board_vals g) as [|v vals] eqn:E.
  - split; [reflexivity | intros H; contradiction].
  - split; [discriminate|]. intros _.
    set (s := zsum (v :: vals)).
    assert (Hn : ∃ p, len (v :: vals) = Z.pos p).
    { unfold len. simpl length. exists (Pos.of_succ_nat (length vals)). lia. }
    destruct Hn as (p & Hp). rewrite Hp.
    pose proof (Qle_bool_avg_low s p) as Hlow.
    pose proof (Qle_bool_avg_high s p) as Hhigh.
    destruct (Qle_bool (7 # 2) _) eqn:E1.
    + assert (7 * Z.pos p <= 2 * s) by (apply Hlow; reflexivity).
      repeat split; try discriminate; intros; lia.
    + assert (¬ 7 * Z.pos p <= 2 * s) by (intros X; apply Hlow in X; discriminate).
      destruct (Qle_bool _ (2 # 1)) eqn:E2.
      * assert (s <= 2 * Z.pos p) by (apply Hhigh; reflexivity).
        repeat split; try discriminate; intros; lia.
      * assert (¬ s <= 2 * Z.pos p) by (intros X; apply Hhigh in X; discriminate).
        repeat split; try discriminate; intros; lia.
Qed.

Lemma choose_bias_thresholds_witness :
  choose_bias_from_board row_needs_one = low.
Proof.
  destruct (choose_bias_thresholds row_needs_one) as (_ & H).
  apply H; [vm_compute; discriminate | vm_compute; discriminate].
Defined.

(** ** Rotation of a piece *)

Lemma heads_spec {A} (n : nat) (rows : list (list A)) :
  Forall (fun r => length r = S n) rows ->
  ∃ hs, heads rows = Some hs ∧ length hs = length rows
        ∧ ∀ j, hs !! j = rows !! j ≫= fun r => r !! 0%nat.
Proof.
  induction 1 as [|r rows Hr _ (hs & E & Hl & Hj)]; simpl.
  - exists []. split; [reflexivity|]. split; [reflexivity|]. intros j. reflexivity.
  - destruct r as [|a r]; [discriminate|]. rewrite E.
    exists (a :: hs). split; [reflexivity|]. split; [simpl; lia|].
    intros [|j]; [reflexivity | apply Hj].
Qed.

Lemma zip_star_fuel_spec {A} (n : nat) (rows : list (list A)) :
  Forall (fun r => length r = n) rows ->
  matrix n (length rows) (zip_star_fuel n rows)
  ∧ ∀ i j, entry (zip_star_fuel n rows) i j = entry rows j i.
Proof.
  revert rows. induction n as [|n IH]; intros rows Hrows; simpl.
  - split; [split; [reflexivity | constructor]|].
    intros i j. unfold entry. simpl.
    destruct (rows !! j) as [r|] eqn:E; [|reflexivity]. simpl.
    rewrite Forall_forall in Hrows.
    pose proof (Hrows r (list_elem_of_lookup_2 _ _ _ E)) as Hl.
    destruct r; [reflexivity | discriminate].
  - destruct (heads_spec n rows Hrows) as (hs & E & Hl & Hj). rewrite E.
    assert (Hdrop : Forall (fun r => length r = n) (map (drop 1) rows)).
    { apply Forall_fmap. eapply Forall_impl; [exact Hrows|].
      intros r Hr. unfold compose. cbv beta in Hr |- *. rewrite length_drop. lia. }
    destruct (IH _ Hdrop) as [[Hlen Hall] Hent].
    rewrite length_map in Hall.
    split.
    + split; [simpl; lia | constructor; [exact Hl | exact Hall]].
    + intros [|i] j; unfold entry; simpl.
      * apply Hj.
      * specialize (Hent i j). unfold entry in Hent. rewrite Hent.
        rewrite list_lookup_fmap. destruct (rows !! j) as [r|]; [|reflexivity].
        simpl. rewrite lookup_drop. reflexivity.
Qed.

Lemma matrix_hd {A} (hh ww : nat) (m : list (list A)) :
  matrix hh ww m -> (1 <= hh)%nat -> length (hd [] m) = ww.
Proof.
  intros [Hl Hr] Hh. destruct m as [|r m]; [simpl in Hl; lia|].
  inversion Hr; subst. reflexivity.
Qed.

Lemma matrix_reverse {A} (hh ww : nat) (m : list (list A)) :
  matrix hh ww m -> matrix hh ww (reverse m).
Proof.
  intros [Hl Hr]. split; [rewrite length_reverse; exact Hl|].
  apply Forall_reverse. exact Hr.
Qed.

Lemma entry_out {A} (hh ww : nat) (m : list (list A)) (i j : nat) :
  matrix hh ww m -> (hh <= i ∨ ww <= j)%nat -> entry m i j = None.
Proof.
  intros [Hl Hr] Hout. unfold entry.
  destruct (m !! i) as [r|] eqn:E; [|reflexivity]. simpl.
  pose proof (lookup_lt_Some _ _ _ E) as Hi.
  rewrite Forall_forall in Hr.
  pose proof (Hr r (list_elem_of_lookup_2 _ _ _ E)) as Hlen.
  apply lookup_ge_None. lia.
Qed.

Lemma matrix_ext {A} (hh ww : nat) (m m' : list (list A)) :
  matrix hh ww m -> matrix hh ww m' ->
  (∀ i j, (i < hh)%nat -> (j < ww)%nat -> entry m i j = entry m' i j) ->
  m = m'.
Proof.
  intros Hm Hm' Hent. apply list_eq. intros i.
  destruct (decide (i < hh)%nat) as [Hi | Hi].
  - destruct Hm as [Hl Hr]. destruct Hm' as [Hl' Hr'].
    destruct (lookup_lt_is_Some_2 m i ltac:(lia)) as [r Er].
    destruct (lookup_lt_is_Some_2 m' i ltac:(lia)) as [r' Er'].
    rewrite Er, Er'. f_equal. apply list_eq. intros j.
    rewrite Forall_forall in Hr, Hr'.
    pose proof (Hr r (list_elem_of_lookup_2 _ _ _ Er)) as Hlen.
    pose proof (Hr' r' (list_elem_of_lookup_2 _ _ _ Er')) as Hlen'.
    destruct (decide (j < ww)%nat) as [Hj | Hj].
    + specialize (Hent i j Hi Hj). unfold entry in Hent.
      rewrite Er, Er' in Hent. exact Hent.
    + rewrite !(proj2 (lookup_ge_None _ _)) by lia. reflexivity.
  - destruct Hm as [Hl _]. destruct Hm' as [Hl' _].
    rewrite !(proj2 (lookup_ge_None _ _)) by lia. reflexivity.
Qed.

Lemma rotate_shape_spec (hh ww : nat) (m : list (list Z)) :
  matrix hh ww m -> (1 <= hh)%nat ->
  matrix ww hh (rotate_shape m)
  ∧ ∀ i j, (j < hh)%nat -> entry (rotate_shape m) i j = entry m (hh - 1 - j) i.
Proof.
  intros Hm Hh. unfold rotate_shape, zip_star.
  pose proof (matrix_reverse hh ww m Hm) as Hrev.
  rewrite (matrix_hd hh ww _ Hrev Hh).
  destruct (zip_star_fuel_spec ww (reverse m) (proj2 Hrev)) as [Hmat Hent].
  rewrite (proj1 Hrev) in Hmat. split; [exact Hmat|].
  intros i j Hj. rewrite Hent. unfold entry.
  rewrite reverse_lookup by (rewrite (proj1 Hm); exact Hj).
  rewrite (proj1 Hm). replace (hh - S j)%nat with (hh - 1 - j)%nat by lia.
  reflexivity.
Qed.

Lemma rotate_shape_four (hh ww : nat) (m : list (list Z)) :
  matrix hh ww m -> (1 <= hh)%nat -> (1 <= ww)%nat ->
  rotate_shape (rotate_shape (rotate_shape (rotate_shape m))) = m.
Proof.
  intros Hm Hh Hw.
  destruct (rotate_shape_spec hh ww m Hm Hh) as [M1 E1].
  destruct (rotate_shape_spec ww hh _ M1 Hw) as [M2 E2].
  destruct (rotate_shape_spec hh ww _ M2 Hh) as [M3 E3].
  destruct (rotate_shape_spec ww hh _ M3 Hw) as [M4 E4].
  apply (matrix_ext hh ww); [exact M4 | exact Hm|].
  intros i j Hi Hj.
  rewrite E4 by exact Hj. rewrite E3 by lia. rewrite E2 by lia. rewrite E1 by lia.
  f_equal; lia.
Qed.

Lemma rectangular_piece_matrix (p : Piece) :
  rectangular_piece p ->
  matrix (Z.to_nat (h p)) (Z.to_nat (w p)) (shape p).
Proof.
  intros [Hh Hw]. unfold len in *. split; [lia|].
  eapply Forall_impl; [exact Hw|]. intros r Hr. simpl in Hr. lia.
Qed.

Lemma rotated_spec (p : Piece) (hh ww : nat) :
  matrix hh ww (shape p) -> (1 <= hh)%nat -> (1 <= ww)%nat ->
  rotated p = Some {| shape := rotate_shape (shape p);
                      h := Z.of_nat ww; w := Z.of_nat hh; color := color p |}.
Proof.
  intros Hm Hh Hw. unfold rotated.
  destruct (rotate_shape_spec hh ww (shape p) Hm Hh) as [[Hl Hr] _].
  destruct (rotate_shape (shape p)) as [|r m'] eqn:E; [simpl in Hl; lia|].
  inversion Hr; subst. unfold len. simpl length in *. do 2 f_equal; lia.
Qed.

(** X16: rotated() of a rectangular piece of h >= 1 rows and w >= 1
    columns is a rectangular piece of w rows and h columns with the same
    colour whose entry (i, j) is the entry (h-1-j, i) of the original, and
    four rotations give the original piece back; on a piece without rows
    the call fails with an IndexError. *)
Theorem rotated_quarter_turn (p : Piece) :
  rectangular_piece p -> 1 <= h p -> 1 <= w p ->
  (∃ q, rotated p = Some q
        ∧ h q = w p ∧ w q = h p ∧ color q = color p ∧ rectangular_piece q
        ∧ ∀ i j, 0 <= i < w p -> 0 <= j < h p ->
            at2 (shape q) i j = at2 (shape p) (h p - 1 - j) i)
  ∧ (((rotated p ≫= rotated) ≫= rotated) ≫= rotated) = Some p
  ∧ (∀ q, shape q = [] -> rotated q = None).
Proof.
  intros Hrect Hh Hw.
  pose proof (rectangular_piece_matrix p Hrect) as Hm.
  set (hh := Z.to_nat (h p)) in *. set (ww := Z.to_nat (w p)) in *.
  assert (Hhh : (1 <= hh)%nat) by (unfold hh; lia).
  assert (Hww : (1 <= ww)%nat) by (unfold ww; lia).
  destruct (rotate_shape_spec hh ww (shape p) Hm Hhh) as [M1 E1].
  destruct (rotate_shape_spec ww hh _ M1 Hww) as [M2 E2].
  destruct (rotate_shape_spec hh ww _ M2 Hhh) as [M3 E3].
  split; [|split; [|intros q Hq; unfold rotated; rewrite Hq; reflexivity]].
  - eexists. split; [apply (rotated_spec p hh ww Hm Hhh Hww)|]. simpl.
    split; [unfold ww; lia|]. split; [unfold hh; lia|]. split; [reflexivity|].
    split.
    + split; simpl.
      * unfold len. rewrite (proj1 M1). reflexivity.
      * eapply Forall_impl; [exact (proj2 M1)|]. intros r Hr. simpl in Hr.
        unfold len. lia.
    + intros i j Hi Hj. rewrite !at2_get2. f_equal.
      unfold get2, zget.
      destruct (Z.ltb_spec i 0); [lia|]. destruct (Z.ltb_spec j 0); [lia|].
      destruct (Z.ltb_spec (h p - 1 - j) 0); [lia|].
      specialize (E1 (Z.to_nat i) (Z.to_nat j) ltac:(unfold hh; lia)).
      unfold entry in E1.
      replace (Z.to_nat (h p - 1 - j)) with (hh - 1 - Z.to_nat j)%nat
        by (unfold hh; lia).
      destruct (rotate_shape (shape p) !! Z.to_nat i) as [r|];
        destruct (shape p !! (hh - 1 - Z.to_nat j)%nat) as [r'|];
        simpl in E1 |- *; congruence.
  - rewrite (rotated_spec p hh ww Hm Hhh Hww). cbn [mbind option_bind].
    rewrite (rotated_spec (mkPiece _ _ _ _) ww hh M1 Hww Hhh).
    cbn [mbind option_bind shape color].
    rewrite (rotated_spec (mkPiece _ _ _ _) hh ww M2 Hhh Hww).
    cbn [mbind option_bind shape color].
    rewrite (rotated_spec (mkPiece _ _ _ _) ww hh M3 Hww Hhh).
    cbn [shape color].
    rewrite (rotate_shape_four hh ww (shape p) Hm Hhh Hww).
    destruct Hrect as [Hlen _]. destruct p as [s ph pw pc]. simpl in *.
    f_equal. f_equal; unfold hh, ww; lia.
Qed.

Lemma rotated_quarter_turn_witness :
  let p := mkPiece [[1; 2; 3]; [0; 4; 0]] 2 3 5 in
  rotated p = Some (mkPiece [[0; 1]; [4; 2]; [0; 3]] 3 2 5)
  ∧ (((rotated p ≫= rotated) ≫= rotated) ≫= rotated) = Some p.
Proof.
  intros p. split; [reflexivity|].
  assert (Hr : rectangular_piece p) by (split; [reflexivity | repeat constructor]).
  apply (rotated_quarter_turn p Hr); simpl; lia.
Defined.

(** ** Invariants of the main loop *)

Section session_invariant.
Variable P : game -> Prop.
Hypothesis P_init : ∀ timed d now t, P (fst (BlockBlastGame_init timed d now t)).
Hypothesis P_click : ∀ g d o now mx my t,
  P g -> P (snd (fst (fst (handle_click g d o now mx my t)))).
Hypothesis P_update : ∀ g now, P g -> P (update g now).
Hypothesis P_pause : ∀ g, P g -> P (set_paused g (negb (paused g))).

Lemma on_event_invariant (a : app) (e : env) (ev : event) :
  sessions_satisfy P a -> sessions_satisfy P (on_event a e ev).
Proof.
  intros Hok.
  destruct ev as [|button mx my|k|dy|]; simpl; try exact Hok.
  - destruct (button =? 1); [|exact Hok].
    destruct (active (menu a)).
    + destruct (menu_handle_click (menu a) mx my) as [chosen m'].
      destruct chosen; [|exact Hok].
      intros g Hg. simpl in Hg. inversion Hg; subst. apply P_init.
    + destruct (the_game a) as [g0|] eqn:Eg; [|exact Hok].
      pose proof (P_click g0 (the_disk a) (wr e) (now e) mx my (tape e)
                    (Hok g0 Eg)) as Hh.
      destruct (handle_click g0 (the_disk a) (wr e) (now e) mx my (tape e))
        as [[[res g'] d'] t'].
      simpl in *. destruct res; intros g Hg; simpl in Hg; [discriminate|].
      inversion Hg; subst. exact Hh.
  - destruct k; try exact Hok.
    + destruct (the_game a) as [g0|]; [|exact Hok].
      destruct (negb (active (menu a))); [|exact Hok].
      intros g Hg. discriminate.
    + destruct (the_game a) as [g0|] eqn:Eg; [|exact Hok].
      destruct (negb (active (menu a))); [|exact Hok].
      intros g Hg. simpl in Hg. inversion Hg; subst. apply P_pause, Hok, Eg.
Qed.

Lemma on_frame_invariant (a : app) (e : env) : sessions_satisfy P a -> sessions_satisfy P (on_frame a e).
Proof.
  intros Hok. unfold on_frame.
  destruct (active (menu a)); [exact Hok|].
  destruct (the_game a) as [g0|] eqn:Eg; [|exact Hok].
  intros g Hg. simpl in Hg. inversion Hg; subst. apply P_update, Hok, Eg.
Qed.

Lemma main_invariant (frames : list frame) (a : app) :
  sessions_satisfy P a -> sessions_satisfy P (main a frames).
Proof.
  revert a. induction frames as [|f frames IH]; intros a Hok; simpl; [exact Hok|].
  destruct (running a); [|exact Hok]. apply IH.
  unfold loop_body. apply on_frame_invariant.
  generalize (fst f). intros evs. revert a Hok.
  induction evs as [|ee evs IHe]; intros a Hok; simpl; [exact Hok|].
  apply IHe, on_event_invariant, Hok.
Qed.

Lemma reachable_invariant (g : game) : reachable g -> P g.
Proof.
  intros (d & frames & H).
  apply (main_invariant frames (app_init d)); [|exact H].
  intros g0 Hg0. discriminate.
Qed.
End session_invariant.

Lemma fresh_tally (g : game) (now : Z) : fresh_session g now -> tally_ok g.
Proof.
  intros (_ & _ & _ & Hs & _ & _ & Hsel & Hdr & _).
  unfold tally_ok. rewrite Hs, Hsel, Hdr.
  split; [lia|]. split; [exists 0; lia|]. split; [lia|].
  split; [|intros i Hi; discriminate].
  split; [discriminate | intros [x Hx]; discriminate].
Qed.

Lemma tally_ok_dropped (g g1 : game) :
  tally_ok g -> 0 <= score g1 -> (15 | score g1) -> score g1 <= Z.max 0 (best g1) ->
  tally_ok (set_selected (set_dragging g1 false) None).
Proof.
  intros _ H0 H15 Hb. unfold tally_ok. simpl.
  split; [exact H0|]. split; [exact H15|]. split; [exact Hb|].
  split; [|intros i Hi; discriminate].
  split; [discriminate | intros [x Hx]; discriminate].
Qed.

Lemma handle_click_tally (g : game) (d : disk) (o : write_outcome) (now : Z)
    (mx my : Z) (t : list nat) :
  tally_ok g -> tally_ok (snd (fst (fst (handle_click g d o now mx my t)))).
Proof.
  intros Hok. unfold handle_click.
  destruct (game_over g); [exact Hok|].
  destruct (paused g); [exact Hok|].
  destruct (collidepoint restart_button mx my).
  { unfold bind, ret. pose proof (reset_fresh g now t) as (Hf & _).
    destruct (reset g now t) as [g' t']. simpl in *.
    eapply fresh_tally; exact Hf. }
  destruct (collidepoint quit_button mx my); [exact Hok|].
  destruct (collidepoint board_rect mx my).
  - destruct (dragging g); [|exact Hok].
    destruct (selected g) as [sel|]; [|exact Hok].
    destruct (pieces g !! sel) as [piece|] eqn:Ep; [|exact Hok].
    unfold bind, ret.
    set (gx := (mx - left board_rect) `div` CELL).
    set (gy := (my - top board_rect) `div` CELL).
    destruct Hok as (H0 & [q Hq] & Hb & Hrest).
    destruct (can_place g piece gx gy) eqn:Hc.
    + destruct (place_piece_trace g d o now sel piece gx gy t)
        as (g6 & Hpp & _ & _ & _ & _ & Hsc & Hbe & _).
      destruct (place_piece g d o now sel piece gx gy t) as [[g1 d1] t1].
      simpl in Hpp. injection Hpp as Hg1 _. simpl.
      set (k := Z.of_nat (size (to_clear_of (stamp g piece gx gy)))) in *.
      assert (Hk : 0 <= k) by (unfold k; lia).
      assert (Hs1 : score g1 = score g + 15 * k).
      { rewrite Hg1. destruct (negb (any_move_possible g6)); simpl; exact Hsc. }
      assert (Hb1 : best g1 = Z.max (best g) (score g + 15 * k)).
      { rewrite Hg1. destruct (negb (any_move_possible g6)); simpl; exact Hbe. }
      unfold tally_ok. simpl. rewrite Hs1, Hb1.
      split; [lia|]. split; [exists (q + k); lia|]. split; [lia|].
      split; [|intros i Hi; discriminate].
      split; [discriminate | intros [x Hx]; discriminate].
    + unfold tally_ok. simpl.
      split; [exact H0|]. split; [exists q; exact Hq|]. split; [exact Hb|].
      split; [|intros i Hi; discriminate].
      split; [discriminate | intros [x Hx]; discriminate].
  - destruct (list_find _ _) as [[j i]|] eqn:Ef; [|exact Hok].
    apply list_find_Some in Ef as (Hj & _ & _).
    apply lookup_seq in Hj as [-> Hj].
    destruct Hok as (H0 & H15 & Hb & _).
    unfold tally_ok. simpl.
    split; [exact H0|]. split; [exact H15|]. split; [exact Hb|].
    split; [split; [intros _; eexists; reflexivity | reflexivity]|].
    intros i Hi. inversion Hi; subst. simpl. lia.
Qed.

Lemma update_tally (g : game) (now : Z) : tally_ok g -> tally_ok (update g now).
Proof.
  intros Hok. unfold update.
  destruct (negb (paused g) && negb (game_over g)); [|exact Hok].
  destruct (update_animations_rest g now)
    as (_ & Hsc & Hbe & _ & _ & _ & _ & Hsel & Hdr).
  assert (Hu : tally_ok (update_animations g now)).
  { unfold tally_ok. rewrite Hsc, Hbe, Hsel, Hdr. exact Hok. }
  destruct (timed_mode _ && _); [|exact Hu]. exact Hu.
Qed.

(** X17: in every session the main loop can reach, the score is a
    non-negative multiple of 15 and does not exceed max(0, best) (best can
    be negative only when the file held a negative number), a piece is
    being dragged exactly when a slot is selected, and the selected slot
    is one of the three held pieces, so that pieces[selected] never
    fails. *)
Theorem reachable_tally_and_selection (g : game) :
  reachable g ->
  0 <= score g ∧ (15 | score g) ∧ score g <= Z.max 0 (best g)
  ∧ (dragging g = true ↔ is_Some (selected g))
  ∧ ∀ i, selected g = Some i -> is_Some (pieces g !! i).
Proof.
  intros Hr.
  assert (Hs : session_ok g).
  { destruct Hr as (d & frames & H).
    apply (main_app_ok frames (app_init d)); [|exact H].
    intros g0 Hg0. discriminate. }
  assert (Ht : tally_ok g).
  { apply (reachable_invariant tally_ok); [| | | |exact Hr].
    - intros timed d now t.
      destruct (BlockBlastGame_init_fresh timed d now t) as (Hf & _).
      eapply fresh_tally; exact Hf.
    - intros g0 d o now mx my t. apply handle_click_tally.
    - intros g0 now. apply update_tally.
    - intros g0 H0. exact H0. }
  destruct Ht as (H0 & H15 & Hb & Hd & Hsel).
  repeat (split; [assumption|]).
  intros i Hi. apply lookup_lt_is_Some.
  destruct Hs as (_ & Hl & _). rewrite Hl. apply Hsel, Hi.
Qed.

Lemma reachable_tally_and_selection_witness :
  0 <= score checker_game ∧ (15 | score checker_game)
  ∧ score checker_game <= Z.max 0 (best checker_game)
  ∧ (dragging checker_game = true ↔ is_Some (selected checker_game))
  ∧ ∀ i, selected checker_game = Some i -> is_Some (pieces checker_game !! i).
Proof.
  apply reachable_tally_and_selection.
  exists Missing, checker_frames. vm_compute. reflexivity.
Defined.

(** ** The candidate lines of the generator *)

Lemma near_complete_completable (g : game) (m : Z) (k : kind) (i : Z) :
  near_complete g m k i ↔ completable g m k i.
Proof.
  unfold near_complete, completable, len. split.
  - intros [He Hn]. split; [exact He|].
    destruct (compositions_feasible (length (line_empties g k i))
                (TARGET_SUM - line_sum g k i) 1 5) as [vals Hv]; [lia | lia | lia |].
    apply compositions_spec in Hv as (_ & Hl & Hf & Hs).
    exists vals. split; [exact Hl|]. split; [exact Hf|]. lia.
  - intros [He (vals & Hl & Hf & Hs)]. split; [exact He|].
    pose proof (zsum_bounds 1 5 vals Hf) as Hb. unfold len in Hb.
    rewrite Hl in Hb. lia.
Qed.

(** X18: find_near_lines_and_needed lists exactly the rows and columns of
    the board that have between 1 and max_empty empty cells and can be
    brought to the target sum 25 by values of 1..5 on those cells, each
    with the indices of its empty cells and the total still needed; for
    every listed line compositions(needed, number of empty cells, 1, 5)
    yields at least one tuple. *)
Theorem near_lines_are_the_completable_lines (g : game) (max_empty : Z)
    (c : candidate) :
  (c ∈ find_near_lines_and_needed g max_empty ↔
   ∃ k i, 0 <= i < 7 ∧ completable g max_empty k i
          ∧ c = (k, i, line_empties g k i, TARGET_SUM - line_sum g k i))
  ∧ (c ∈ find_near_lines_and_needed g max_empty ->
     compositions (snd c) (length (snd (fst c))) 1 5 ≠ []).
Proof.
  split.
  - rewrite find_near_lines_spec. split.
    + intros (k & i & Hi & Hn & Hc). exists k, i.
      split; [exact Hi|]. split; [apply near_complete_completable, Hn | exact Hc].
    + intros (k & i & Hi & Hn & Hc). exists k, i.
      split; [exact Hi|]. split; [apply near_complete_completable, Hn | exact Hc].
  - intros Hc. apply find_near_lines_spec in Hc as (k & i & _ & [He Hn] & Hc).
    rewrite Hc. cbn [fst snd]. unfold len in *.
    destruct (compositions_feasible (length (line_empties g k i))
                (TARGET_SUM - line_sum g k i) 1 5) as [vals Hv]; [lia | lia | lia |].
    intros E. rewrite E in Hv. apply elem_of_nil in Hv. exact Hv.
Qed.

Lemma near_lines_are_the_completable_lines_witness :
  compositions 1 1 1 5 ≠ [].
Proof.
  apply (near_lines_are_the_completable_lines column_needs_one 3
           (col, 3, [6], 1)).
  vm_compute. apply list_elem_of_here.
Defined.
